(** * Transcript store: per-key JSON-lines logs, rewrite and finalize

    A shallow embedding of [src/src/fileWriter.ts] (class [FileWriter]),
    [src/src/finish.ts] ([finishTranscript]), [src/src/database.ts] (the
    tables of finished transcripts and their tags) and the checks of the
    express routes.

    Conventions of the embedding.
    - A JavaScript string is a Rocq [string]; every character is a code unit
      below 256.  In that range the white space of [String.prototype.trim]
      is 9, 10, 11, 12, 13, 32 and 160, and the line breaks of [readline]
      are LF, CR LF and a lone CR.
    - The content of a file is the text the utf8 streams deliver.
    - [JSON.parse] and [JSON.stringify] belong to the host, not to the
      repository: they are fields of the class [Host], together with the
      number type and the way a read stream cuts a file into chunks.
    - A thrown exception is the [Throw] constructor of [outcome].
    - The target of [edit] and [delete] (typed [any]) is a JSON value;
      [Null] behaves as [undefined] does, reading [id] on it throws.
    - Directories are not modelled: they exist.
    - The file system names inodes; an open handle keeps the inode it was
      opened on (POSIX), whatever happens to the name afterwards.
    - A table is the finite map or set of its rows under its primary key; a
      time is a number of milliseconds, compared as the code compares it
      (as the text [toISOString()] gives). *)

From Stdlib Require Import String Ascii List Bool Arith Lia.
From stdpp Require Import base option list gmap strings.

#[local] Arguments String.append !s1 s2 / : simpl nomatch.

(** ** Text primitives of the host language *)

Module Text.

Definition LF : ascii := ascii_of_nat 10.
Definition CR : ascii := ascii_of_nat 13.
Definition NL : string := String LF EmptyString.

(** White space as [trim] sees it, on code units below 256. *)
Definition isWhiteSpace (c : ascii) : bool :=
  let n := nat_of_ascii c in
  ((n =? 9) || (n =? 10) || (n =? 11) || (n =? 12) || (n =? 13)
   || (n =? 32) || (n =? 160))%nat.

(** The empty string is the only falsy string. *)
Definition falsy (s : string) : bool :=
  match s with EmptyString => true | String _ _ => false end.

Fixpoint trimStart (s : string) : string :=
  match s with
  | EmptyString => EmptyString
  | String c s' => if isWhiteSpace c then trimStart s' else s
  end.

Fixpoint trimEnd (s : string) : string :=
  match s with
  | EmptyString => EmptyString
  | String c s' =>
      let t := trimEnd s' in
      if isWhiteSpace c && falsy t then EmptyString else String c t
  end.

(** [s.trim()] *)
Definition trim (s : string) : string := trimEnd (trimStart s).

(** [!line.trim()] *)
Definition blank (line : string) : bool := falsy (trim line).

Fixpoint allWhiteSpace (s : string) : bool :=
  match s with
  | EmptyString => true
  | String c s' => isWhiteSpace c && allWhiteSpace s'
  end.

(** [s.split("\n")]: never empty, the last element is what follows the
    last line feed. *)
Fixpoint split_nl (s : string) : list string :=
  match s with
  | EmptyString => [EmptyString]
  | String c s' =>
      if Ascii.eqb c LF then EmptyString :: split_nl s'
      else match split_nl s' with
           | x :: r => String c x :: r
           | [] => [String c EmptyString]
           end
  end.

(** [lines.pop()]: the array loses its last element, which is returned
    ([None] is [undefined], for an empty array). *)
Definition pop (lines : list string) : option string * list string :=
  (last lines, removelast lines).

(** [x || ""] *)
Definition orEmpty (x : option string) : string :=
  match x with
  | Some s => if falsy s then EmptyString else s
  | None => EmptyString
  end.

(** The lines [readline] emits for a whole input ([crlfDelay: Infinity]):
    a line ends at LF, CR LF or a lone CR; what follows the last break is
    emitted at the end of input only when it is not empty. *)
Fixpoint readline (s : string) : list string :=
  match s with
  | EmptyString => []
  | String c s' =>
      if Ascii.eqb c LF then EmptyString :: readline s'
      else if Ascii.eqb c CR then
        match s' with
        | String c' s'' =>
            if Ascii.eqb c' LF then EmptyString :: readline s''
            else EmptyString :: readline s'
        | EmptyString => [EmptyString]
        end
      else match readline s' with
           | x :: r => String c x :: r
           | [] => [String c EmptyString]
           end
  end.

(** Concatenation of the pieces of a stream. *)
Fixpoint concat (l : list string) : string :=
  match l with
  | [] => EmptyString
  | x :: r => x +:+ concat r
  end.

(** No line feed inside [s]. *)
Fixpoint noLF (s : string) : bool :=
  match s with
  | EmptyString => true
  | String c s' => negb (Ascii.eqb c LF) && noLF s'
  end.

(** No line break inside [s]. *)
Fixpoint noBreak (s : string) : bool :=
  match s with
  | EmptyString => true
  | String c s' => negb (Ascii.eqb c LF) && negb (Ascii.eqb c CR) && noBreak s'
  end.

(** What follows the last line feed of [s]. *)
Definition rest (s : string) : string := orEmpty (last (split_nl s)).

End Text.

(** ** JSON values and the host interface *)

(** A parsed JSON value; [number] is the host's number type. *)
#[local] Set Warnings "-register-all".
Inductive value (number : Type) : Type :=
  | Null
  | Bool (b : bool)
  | Num (n : number)
  | Str (s : string)
  | Arr (items : list (value number))
  | Obj (fields : list (string * value number)).

Arguments Null {number}.
Arguments Bool {number} b.
Arguments Num {number} n.
Arguments Str {number} s.
Arguments Arr {number} items.
Arguments Obj {number} fields.

(** What the code takes from Node and the JavaScript engine. *)
Class Host := {
  number : Type;
  (** [===] on two numbers *)
  number_eq : number -> number -> bool;
  (** [JSON.parse]; [None] when it throws a SyntaxError, as it does on a
      text of white space only *)
  JSON_parse : string -> option (value number);
  JSON_parse_blank : forall s, Text.blank s = true -> JSON_parse s = None;
  (** [JSON.stringify] of a JSON value *)
  JSON_stringify : value number -> string;
  (** [process.cwd()] *)
  cwd : string;
  (** the chunks a utf8 read stream delivers for a file of this content *)
  chunks : string -> list string;
  chunks_concat : forall content, Text.concat (chunks content) = content
}.

Inductive exn := SyntaxError | TypeError | ENOENT.

(** The result of running a piece of code that may throw. *)
Inductive outcome (A : Type) : Type :=
  | Ok (a : A)
  | Throw (e : exn).

Arguments Ok {A} a.
Arguments Throw {A} e.

#[global] Instance outcome_ret : MRet outcome := fun A a => Ok a.

#[global] Instance outcome_bind : MBind outcome := fun A B f x =>
  match x with
  | Ok a => f a
  | Throw e => Throw e
  end.

(** [try { body } catch { handler }] *)
Definition try_catch {A : Type} (body : outcome A) (handler : A) : A :=
  match body with
  | Ok a => a
  | Throw _ => handler
  end.

Section Json.
Context `{Host}.

(** A JavaScript value as the rewrite sees it: [None] is [undefined]. *)
Definition jsval : Type := option (value number).

(** The own property [name] of an object; [fields] holds every own
    property once. *)
Fixpoint field (name : string) (fields : list (string * value number)) : jsval :=
  match fields with
  | [] => None
  | (k, v) :: rest => if String.eqb k name then Some v else field name rest
  end.

(** [v.id]: a TypeError on [null], the own property of an object,
    [undefined] on an array, a string, a number or a boolean. *)
Definition get_id (v : value number) : outcome jsval :=
  match v with
  | Null => Throw TypeError
  | Obj fields => Ok (field "id" fields)
  | _ => Ok None
  end.

(** [a === b]: by value on primitives, by reference on objects and arrays
    (a freshly parsed object is never the caller's). *)
Definition strict_eq (a b : jsval) : bool :=
  match a, b with
  | None, None => true
  | Some Null, Some Null => true
  | Some (Bool x), Some (Bool y) => Bool.eqb x y
  | Some (Num x), Some (Num y) => number_eq x y
  | Some (Str x), Some (Str y) => String.eqb x y
  | _, _ => false
  end.

Definition parse (line : string) : outcome (value number) :=
  match JSON_parse line with
  | Some v => Ok v
  | None => Throw SyntaxError
  end.

End Json.

(** ** The file system *)

Record Disk := {
  names : gmap string nat;   (* path to inode *)
  data : gmap nat string;    (* inode to content *)
  next : nat                 (* the next free inode *)
}.

Definition emptyDisk : Disk := {| names := ∅; data := ∅; next := 0 |}.

(** The content behind a path, if the path exists. *)
Definition readFile (p : string) (d : Disk) : option string :=
  i ← names d !! p; Some (default EmptyString (data d !! i)).

Definition exists_ (p : string) (d : Disk) : bool :=
  match names d !! p with Some _ => true | None => false end.

(** A new empty file under [p]; its inode is returned. *)
Definition create (p : string) (d : Disk) : nat * Disk :=
  (next d,
   {| names := <[p := next d]> (names d);
      data := <[next d := EmptyString]> (data d);
      next := S (next d) |}).

(** [fs.open(p, "a")]: append mode, the file is created when missing. *)
Definition openAppend (p : string) (d : Disk) : nat * Disk :=
  match names d !! p with
  | Some i => (i, d)
  | None => create p d
  end.

(** [handle.appendFile(s)] *)
Definition appendFile (i : nat) (s : string) (d : Disk) : Disk :=
  {| names := names d;
     data := <[i := default EmptyString (data d !! i) +:+ s]> (data d);
     next := next d |}.

(** Flag [w]: the file is created or truncated, then holds [s]. *)
Definition writeFile (p : string) (s : string) (d : Disk) : Disk :=
  match names d !! p with
  | Some i => {| names := names d; data := <[i := s]> (data d); next := next d |}
  | None =>
      {| names := <[p := next d]> (names d);
         data := <[next d := s]> (data d);
         next := S (next d) |}
  end.

(** [fs.rename(from, to)] *)
Definition rename (from to : string) (d : Disk) : Disk :=
  match names d !! from with
  | Some i =>
      {| names := <[to := i]> (delete from (names d)); data := data d; next := next d |}
  | None => d
  end.

(** [fs.unlink(p)] *)
Definition unlink (p : string) (d : Disk) : Disk :=
  {| names := delete p (names d); data := data d; next := next d |}.

(** A disk as the operations above build it from [emptyDisk]: an inode in
    use lies below [next], and no two paths share an inode (the code makes
    no hard link). *)
Definition wellFormed (d : Disk) : Prop :=
  (forall p i, names d !! p = Some i -> i < next d)
  /\ (forall p p' i, names d !! p = Some i -> names d !! p' = Some i -> p = p').

(** ** The writer and the tasks it queues *)

(** [path.join] of a directory and a name, without the normalisation of
    dots and doubled separators that [path.join] makes: the path that
    [path.join] gives when the directory is in normal form and the name has
    no segment [.] or [..] and no doubled separator, as the file name
    [<key>.jsonl] of a key without a separator. *)
Definition path_join (dir name : string) : string :=
  match name with
  | String c _ => if Ascii.eqb c "/"%char then dir +:+ name else dir +:+ "/" +:+ name
  | EmptyString => dir
  end.

(** A key that names a file of the directory itself: no separator in it.
    Two such keys that differ name two files, also for [path.join]. *)
Fixpoint plain (id : string) : bool :=
  match id with
  | EmptyString => true
  | String c rest => negb (Ascii.eqb c "/"%char) && plain rest
  end.

(** The fields of a [FileWriter] the tasks read and write: [fileStates]
    maps a key to its open handle, a handle being the inode it writes to. *)
Record Writer := {
  baseDir : string;
  fileStates : gmap string nat
}.

Record World := {
  writer : Writer;
  disk : Disk
}.

Module FileWriter.
Section WithHost.
Context `{Host}.

(** [new FileWriter(baseDir)] *)
Definition new (dir : string) : Writer :=
  {| baseDir := path_join cwd dir; fileStates := ∅ |}.

(** [new FileWriter()] *)
Definition new_default : Writer := new "/transcripts/active".

Definition filePath (wr : Writer) (id : string) : string :=
  path_join (baseDir wr) (id +:+ ".jsonl").

Definition tempPath (wr : Writer) (id : string) : string :=
  filePath wr id +:+ ".tmp".

(** [getFileHandle(id)] (fileWriter.ts, lines 31 to 52): the cached handle,
    or a handle opened in append mode and cached. *)
Definition getFileHandle (id : string) (w : World) : nat * World :=
  match fileStates (writer w) !! id with
  | Some handle => (handle, w)
  | None =>
      let '(handle, d) := openAppend (filePath (writer w) id) (disk w) in
      (handle,
       {| writer := {| baseDir := baseDir (writer w);
                       fileStates := <[id := handle]> (fileStates (writer w)) |};
          disk := d |})
  end.

(** [closeFile(id)] (lines 67 to 73), run to its end: the entry leaves the
    cache. *)
Definition closeFile (id : string) (w : World) : World :=
  match fileStates (writer w) !! id with
  | Some _ =>
      {| writer := {| baseDir := baseDir (writer w);
                      fileStates := base.delete id (fileStates (writer w)) |};
         disk := disk w |}
  | None => w
  end.

(** [closeAll()] (lines 217 to 222), run to its end: [closeFile] for every
    key of the cache. *)
Definition closeAll (w : World) : World :=
  fold_left (fun w id => closeFile id w) (map_to_list (fileStates (writer w))).*1 w.

(** The task [append(id, obj)] puts on the chain of [id] (lines 89 to
    92), run to its end with no timer event in between: the handle it gets
    is not one that [closeFile] is closing. *)
Definition append (id : string) (obj : string) (w : World) : outcome unit * World :=
  let serialized := obj +:+ Text.NL in
  let '(handle, w1) := getFileHandle id w in
  (Ok tt, {| writer := writer w1; disk := appendFile handle serialized (disk w1) |}).

(** [parsed.id === obj.id] *)
Definition same_id (parsed obj : value number) : outcome bool :=
  a ← get_id parsed; b ← get_id obj; mret (strict_eq a b).

(** What one turn of the loop of [edit] writes to the temporary file
    (lines 126 to 143). *)
Definition edit_line (obj : value number) (line : string) : string :=
  if Text.blank line then Text.NL
  else
    try_catch
      (parsed ← parse line;
       m ← same_id parsed obj;
       mret (if m : bool then JSON_stringify obj +:+ Text.NL else line +:+ Text.NL))
      (line +:+ Text.NL).

(** What one turn of the loop of [delete] writes to the temporary file
    (lines 184 to 201). *)
Definition delete_line (obj : value number) (line : string) : string :=
  if Text.blank line then Text.NL
  else
    try_catch
      (parsed ← parse line;
       m ← same_id parsed obj;
       mret (if m : bool then EmptyString else line +:+ Text.NL))
      (line +:+ Text.NL).

(** A line that matches the target: it is not blank, it parses, and
    [parsed.id === obj.id] evaluates to [true] (no TypeError). *)
Definition matching (obj : value number) (line : string) : bool :=
  negb (Text.blank line)
  && match parse line ≫= (fun parsed => same_id parsed obj) with
     | Ok m => m
     | Throw _ => false
     end.

(** What is written for a line that is copied: the line and a line feed
    when it is not blank, a line feed alone when it is blank. *)
Definition copied (line : string) : string :=
  if Text.blank line then Text.NL else line +:+ Text.NL.

(** The line that stands in the new file for a copied line. *)
Definition kept (line : string) : string :=
  if Text.blank line then EmptyString else line.

(** The value has no field [id]. *)
Definition lacks_id (v : value number) : Prop :=
  match v with
  | Obj fields => field "id" fields = None
  | _ => True
  end.

(** [for await (const line of rl) { ... }]: the write stream collects what
    each turn writes. *)
Definition rewrite_loop (turn : string -> string) (lines : list string) : string :=
  fold_left (fun written line => written +:+ turn line) lines EmptyString.

(** The body shared by the tasks of [edit] (lines 105 to 150) and [delete]
    (lines 163 to 208): nothing to do without the file; else the lines of
    the file go through the loop into the temporary file, which is renamed
    over the file. *)
Definition rewrite (turn : string -> string) (id : string) (w : World)
  : outcome unit * World :=
  let file := filePath (writer w) id in
  let temp := tempPath (writer w) id in
  match readFile file (disk w) with
  | None => (Ok tt, w)
  | Some content =>
      let written := rewrite_loop turn (Text.readline content) in
      (Ok tt,
       {| writer := writer w;
          disk := rename temp file (writeFile temp written (disk w)) |})
  end.

(** The task [edit(id, obj)] puts on the chain of [id]. *)
Definition edit (id : string) (obj : value number) (w : World) : outcome unit * World :=
  rewrite (edit_line obj) id w.

(** The task [delete(id, obj)] puts on the chain of [id]. *)
Definition delete (id : string) (obj : value number) (w : World) : outcome unit * World :=
  rewrite (delete_line obj) id w.

(** The tasks of several calls of [append] for [id], run in order. *)
Definition appendAll (id : string) (lines : list string) (w : World) : World :=
  fold_left (fun w line => (append id line w).2) lines w.

(** What happens to a key between two moments of a run in which no task
    meets a handle that [closeFile] is closing: the chain of the key runs
    the task of an append to its end, or the idle timer fires and
    [closeFile] runs to its end. *)
Inductive action :=
  | AppendTask (line : string)
  | IdleClose.

Definition act (id : string) (a : action) (w : World) : World :=
  match a with
  | AppendTask line => (append id line w).2
  | IdleClose => closeFile id w
  end.

Definition runActions (id : string) (acts : list action) (w : World) : World :=
  fold_left (fun w a => act id a w) acts w.

(** The texts of the appends among the actions, in their order. *)
Definition appended (acts : list action) : list string :=
  omap (fun a => match a with
                 | AppendTask line => Some line
                 | IdleClose => None
                 end) acts.

(** The active file of [id], as a reader of the path sees it. *)
Definition activeFile (id : string) (w : World) : option string :=
  readFile (filePath (writer w) id) (disk w).

(** [id] has no cached handle and no active file. *)
Definition unused (id : string) (w : World) : Prop :=
  fileStates (writer w) !! id = None /\ activeFile id w = None.

(** [id] has a cached handle, opened on the active file, whose content is
    [c]. *)
Definition holds (id : string) (w : World) (c : string) : Prop :=
  exists h, fileStates (writer w) !! id = Some h
            /\ names (disk w) !! filePath (writer w) id = Some h
            /\ data (disk w) !! h = Some c.

End WithHost.
End FileWriter.

(** ** Finalize *)

Section Finish.
Context `{Host}.

Definition inputPath (id : string) : string :=
  path_join (path_join cwd "/transcripts/active") (id +:+ ".jsonl").

Definition outputPath (id : string) : string :=
  path_join (path_join cwd "/transcripts/complete") (id +:+ ".json").

(** The variables of [finishTranscript] that live across chunks. *)
Record scan := {
  buffer : string;
  messages : list (value number);
  lineIndex : nat
}.

(** [for (const line of lines) { ... }] (finish.ts, lines 26 to 32) *)
Fixpoint forLines (lines : list string) (msgs : list (value number)) (idx : nat)
  : outcome (list (value number) * nat) :=
  match lines with
  | [] => Ok (msgs, idx)
  | line :: rest =>
      if Text.blank line then forLines rest msgs idx
      else json ← parse line; forLines rest (msgs ++ [json])%list (S idx)
  end.

(** [for await (const chunk of fileStream) { ... }] (lines 21 to 33) *)
Fixpoint forChunks (cs : list string) (st : scan) : outcome scan :=
  match cs with
  | [] => Ok st
  | chunk :: rest =>
      let '(popped, lines) := Text.pop (Text.split_nl (buffer st +:+ chunk)) in
      '(msgs, idx) ← forLines lines (messages st) (lineIndex st);
      forChunks rest {| buffer := Text.orEmpty popped; messages := msgs; lineIndex := idx |}
  end.

(** The document [{ metadata, messages }]. *)
Definition document (metadata : value number) (msgs : list (value number))
  : value number :=
  Obj [("metadata", metadata); ("messages", Arr msgs)].

(** What is left in [buffer] after the last chunk (lines 35 to 39). *)
Definition lastLine (metadata : value number) (st : scan)
  : outcome (value number * list (value number)) :=
  if Text.blank (buffer st) then Ok (metadata, messages st)
  else
    json ← parse (buffer st);
    if (lineIndex st =? 0)%nat then Ok (json, messages st)
    else Ok (metadata, (messages st ++ [json])%list).

(** [finishTranscript(id, metadata)] (lines 4 to 47); [None] for an omitted
    [metadata]. *)
Definition finishTranscript (id : string) (metadata : jsval) (d : Disk)
  : outcome unit * Disk :=
  let metadata := default (Obj []) metadata in
  match readFile (inputPath id) d with
  | None => (Throw ENOENT, d)
  | Some content =>
      match
        st ← forChunks (chunks content)
               {| buffer := EmptyString; messages := []; lineIndex := 0 |};
        lastLine metadata st
      with
      | Throw e => (Throw e, d)
      | Ok (metadata, msgs) =>
          (Ok tt,
           unlink (inputPath id)
             (writeFile (outputPath id) (JSON_stringify (document metadata msgs)) d))
      end
  end.

(** The loop over chunks, seen on the whole text at once: the lines before
    the last line feed are parsed, what follows it stays in the buffer. *)
Definition scanText (s : string) (m : list (value number)) (i : nat) : outcome scan :=
  forLines (removelast (Text.split_nl s)) m i
  ≫= (fun r => Ok {| buffer := Text.rest s; messages := r.1; lineIndex := r.2 |}).

(** What [finishTranscript] computes from the text of the active file. *)
Definition finishText (metadata : value number) (content : string)
  : outcome (value number * list (value number)) :=
  scanText content [] 0 ≫= lastLine metadata.

(** A line that the loop of [finishTranscript] parses to [v]. *)
Definition record (l : string) (v : value number) : Prop :=
  Text.noLF l = true /\ JSON_parse l = Some v.

(** A line the loop of [finishTranscript] gets past: it is blank, or
    [JSON.parse] accepts it. *)
Definition parseable (l : string) : Prop :=
  Text.blank l = true \/ JSON_parse l <> None.

(** The values of the lines that are not blank, in the order of the
    lines. *)
Definition parsedLines (ls : list string) : list (value number) :=
  omap (fun l => if Text.blank l then None else JSON_parse l) ls.

End Finish.

(** ** The promise chain of a key

    Every call of [append], [edit] or [delete] runs, without suspension,
    [last = queues.get(id) || Promise.resolve()],
    [next = last.catch(log).then(task)] and [queues.set(id, next)].
    The promises of call number [i] are named after it: [Resolved i] is its
    [Promise.resolve()], [Caught i] is [last.catch(log)], [Next i] is
    [next].  What runs later is a reaction of one of these promises or the
    end of a task; the event loop picks the order. *)

Module Scheduler.

Inductive kind := Append | Edit | Delete.

Inductive promise :=
  | Resolved (i : nat)
  | Caught (i : nat)
  | Next (i : nat).

#[global] Instance promise_eq_dec : EqDecision promise.
Proof. solve_decision. Defined.

Inductive pstate := Pending | Fulfilled | Rejected.

Inductive tstate :=
  | Waiting
  | Running
  | Done (ok : bool).

Record call := {
  call_key : string;
  call_kind : kind;
  call_last : promise
}.

Record state := {
  queues : gmap string promise;
  calls : list call;
  settled : promise -> pstate;
  task : nat -> tstate
}.

Definition init : state :=
  {| queues := ∅; calls := []; settled := fun _ => Pending; task := fun _ => Waiting |}.

Definition set_promise (p : promise) (v : pstate) (f : promise -> pstate)
  : promise -> pstate :=
  fun p' => if decide (p' = p) then v else f p'.

Definition set_task (i : nat) (v : tstate) (f : nat -> tstate) : nat -> tstate :=
  fun j => if decide (j = i) then v else f j.

Inductive event :=
  | Submit (k : string) (o : kind)   (* a call of append, edit or delete *)
  | Catch (i : nat)                  (* the reaction of [last.catch] of call i *)
  | Then (i : nat)                   (* the reaction of [.then] of call i *)
  | Settle (i : nat) (ok : bool).    (* the task of call i returns or throws *)

Definition step (e : event) (s : state) : option state :=
  match e with
  | Submit k o =>
      let i := length (calls s) in
      let last := default (Resolved i) (queues s !! k) in
      Some {| queues := <[k := Next i]> (queues s);
              calls := calls s ++ [{| call_key := k; call_kind := o; call_last := last |}];
              settled :=
                match queues s !! k with
                | Some _ => settled s
                | None => set_promise (Resolved i) Fulfilled (settled s)
                end;
              task := task s |}
  | Catch i =>
      c ← calls s !! i;
      match settled s (Caught i), settled s (call_last c) with
      | Pending, Fulfilled | Pending, Rejected =>
          (* the value passes through, or the handler logs the error and
             returns: fulfilled either way *)
          Some {| queues := queues s; calls := calls s;
                  settled := set_promise (Caught i) Fulfilled (settled s);
                  task := task s |}
      | _, _ => None
      end
  | Then i =>
      c ← calls s !! i;
      match task s i, settled s (Next i), settled s (Caught i) with
      | Waiting, Pending, Fulfilled =>
          Some {| queues := queues s; calls := calls s; settled := settled s;
                  task := set_task i Running (task s) |}
      | Waiting, Pending, Rejected =>
          (* a rejection passes through [.then]: the task is not run *)
          Some {| queues := queues s; calls := calls s;
                  settled := set_promise (Next i) Rejected (settled s);
                  task := task s |}
      | _, _, _ => None
      end
  | Settle i ok =>
      match task s i with
      | Running =>
          Some {| queues := queues s; calls := calls s;
                  settled := set_promise (Next i) (if ok then Fulfilled else Rejected)
                               (settled s);
                  task := set_task i (Done ok) (task s) |}
      | _ => None
      end
  end.

Fixpoint run (es : list event) (s : state) : option state :=
  match es with
  | [] => Some s
  | e :: rest => s' ← step e s; run rest s'
  end.

Definition started (s : state) (i : nat) : Prop := task s i <> Waiting.

Definition finished (s : state) (i : nat) : Prop := exists ok, task s i = Done ok.

(** Calls [i] and [j] are for the same key. *)
Definition same_key (s : state) (i j : nat) : Prop :=
  exists ci cj, calls s !! i = Some ci /\ calls s !! j = Some cj
                /\ call_key ci = call_key cj.

(** The last call for [k] among [cs], numbered from [n]. *)
Fixpoint latest (k : string) (cs : list call) (n : nat) (found : option nat)
  : option nat :=
  match cs with
  | [] => found
  | c :: rest =>
      latest k rest (S n) (if String.eqb (call_key c) k then Some n else found)
  end.

(** The promise after which call [i] chained its task: [next] of the last
    earlier call for the same key, or a promise resolved on the spot. *)
Definition link (s : state) (i : nat) (c : call) : Prop :=
  call_last c
  = match latest (call_key c) (take i (calls s)) 0 None with
    | Some p => Next p
    | None => Resolved i
    end.

(** What holds in every state the scheduler reaches. *)
Record inv (s : state) : Prop := {
  inv_queue : forall k, queues s !! k = Next <$> latest k (calls s) 0 None;
  inv_link : forall i c, calls s !! i = Some c -> link s i c;
  inv_resolved : forall i c,
    calls s !! i = Some c -> call_last c = Resolved i ->
    settled s (Resolved i) = Fulfilled;
  inv_caught : forall i c,
    calls s !! i = Some c ->
    settled s (Caught i) <> Rejected
    /\ (settled s (Caught i) = Fulfilled -> settled s (call_last c) <> Pending);
  inv_task : forall i,
    match task s i with
    | Waiting => settled s (Next i) = Pending
    | Running =>
        settled s (Caught i) = Fulfilled /\ settled s (Next i) = Pending
        /\ i < length (calls s)
    | Done ok =>
        settled s (Caught i) = Fulfilled
        /\ settled s (Next i) = (if ok then Fulfilled else Rejected)
        /\ i < length (calls s)
    end;
  inv_fresh : forall i,
    length (calls s) <= i -> settled s (Caught i) = Pending /\ task s i = Waiting
}.

(** The state a run reaches ([init] when an event of the run is refused). *)
Definition reached (es : list event) : state := default init (run es init).

(** Two calls for the key ["a"]; the task of the first one throws. *)
Definition failing_first : list event :=
  [Submit "a" Append; Submit "a" Edit; Catch 0; Then 0; Settle 0 false].

(** An event of the event loop, not a new call. *)
Definition reaction (e : event) : Prop :=
  match e with
  | Submit _ _ => False
  | _ => True
  end.


End Scheduler.

(** ** The cache of open handles

    [getFileHandle], [resetIdleTimer] and [closeFile] cut at their [await]s.
    A handle and a timer are numbers; [opened] records, for every handle
    that is open, the key it was opened for. *)

Module Handles.

Record FileState := {
  handle : nat;
  timer : option nat
}.

Record state := {
  fileStates : gmap string FileState;
  opened : gmap nat string;
  timers : gmap nat string;        (* pending timeouts and the key they close *)
  acquiring : list string;         (* getFileHandle suspended before its open returns *)
  closing : list (string * nat);   (* closeFile suspended in [await handle.close()] *)
  fresh : nat
}.

Definition init : state :=
  {| fileStates := ∅; opened := ∅; timers := ∅; acquiring := []; closing := []; fresh := 0 |}.

Inductive event :=
  | Acquire (k : string)   (* the task of an append calls getFileHandle *)
  | Opened (k : string)    (* [fs.open] returns to a suspended getFileHandle *)
  | Fire (t : nat)         (* a timeout runs its callback, closeFile *)
  | Closed (n : nat).      (* [handle.close()] returns to the n-th suspended closeFile *)

(** [resetIdleTimer(id, state)] (lines 57 to 62): the timeout of the entry
    is cleared, a new one is set and stored in the entry. *)
Definition resetIdleTimer (id : string) (st : FileState) (s : state) : state :=
  {| fileStates := <[id := {| handle := handle st; timer := Some (fresh s) |}]> (fileStates s);
     opened := opened s;
     timers :=
       <[fresh s := id]>
         (match timer st with
          | Some t => base.delete t (timers s)
          | None => timers s
          end);
     acquiring := acquiring s;
     closing := closing s;
     fresh := S (fresh s) |}.

(** [getFileHandle] (lines 31 to 52) is the events [Acquire], up to its
    first [await], and [Opened], from the return of [fs.open]; [closeFile]
    (lines 67 to 73) is the events [Fire], up to its [await], and
    [Closed]. *)
Definition step (e : event) (s : state) : option state :=
  match e with
  | Acquire k =>
      (* the chain of [k] runs one task at a time *)
      if bool_decide (k ∈ acquiring s) then None
      else
        match fileStates s !! k with
        | Some st => Some (resetIdleTimer k st s)
        | None =>
            Some {| fileStates := fileStates s; opened := opened s; timers := timers s;
                    acquiring := k :: acquiring s;
                    closing := closing s; fresh := fresh s |}
        end
  | Opened k =>
      if bool_decide (k ∈ acquiring s) then
        let st := {| handle := fresh s; timer := None |} in
        Some (resetIdleTimer k st
                {| fileStates := <[k := st]> (fileStates s);
                   opened := <[fresh s := k]> (opened s);
                   timers := timers s;
                   acquiring := filter (fun k' => k' <> k) (acquiring s);
                   closing := closing s;
                   fresh := S (fresh s) |})
      else None
  | Fire t =>
      k ← timers s !! t;
      Some {| fileStates := fileStates s; opened := opened s;
              timers := base.delete t (timers s);
              acquiring := acquiring s;
              closing :=
                match fileStates s !! k with
                | Some st => closing s ++ [(k, handle st)]
                | None => closing s
                end;
              fresh := fresh s |}
  | Closed n =>
      '(k, h) ← closing s !! n;
      Some {| fileStates := base.delete k (fileStates s);
              opened := base.delete h (opened s);
              timers := timers s;
              acquiring := acquiring s;
              closing := take n (closing s) ++ drop (S n) (closing s);
              fresh := fresh s |}
  end.

Fixpoint run (es : list event) (s : state) : option state :=
  match es with
  | [] => Some s
  | e :: rest => s' ← step e s; run rest s'
  end.

(** The handles open for [k]. *)
Definition open_for (k : string) (s : state) : list nat :=
  filter (fun h => opened s !! h = Some k) (map_to_list (opened s)).*1.

(** While [getFileHandle] waits for [fs.open], the cache has no entry for
    its key: a handle is opened only for a key without an entry. *)
Definition opening_uncached (s : state) : Prop :=
  forall k, k ∈ acquiring s -> fileStates s !! k = None.

(** The event does not start a [closeFile] for a key while another one
    is suspended for the same key. *)
Definition calm (e : event) (s : state) : Prop :=
  match e with
  | Fire t =>
      match timers s !! t with
      | Some k => k ∉ (closing s).*1
      | None => True
      end
  | _ => True
  end.

(** A run in which calls of [closeFile] for one key never overlap. *)
Fixpoint calm_run (es : list event) (s : state) : Prop :=
  match es with
  | [] => True
  | e :: rest =>
      calm e s /\ match step e s with
                  | Some s' => calm_run rest s'
                  | None => True
                  end
  end.

(** Every open handle is the cached handle of its key, and so is the
    handle of every suspended [closeFile]. *)
Definition cached_only (s : state) : Prop :=
  (forall h k, opened s !! h = Some k ->
               exists st, fileStates s !! k = Some st /\ handle st = h)
  /\ (forall k h, (k, h) ∈ closing s ->
                  exists st, fileStates s !! k = Some st /\ handle st = h)
  /\ NoDup (closing s).*1.

(** An append opens a handle; its timer fires and [closeFile] waits for
    the close; an append finds the entry and sets a new timer, which fires
    too: a second [closeFile] starts on the same entry.  Its [close()], on
    a handle that is closing already, returns at once, and it removes the
    entry; an append opens a new handle; the first [closeFile] returns and
    removes the entry of the new handle, which stays open; the next append
    opens one more. *)
Definition overlapping_closes : list event :=
  [Acquire "k"; Opened "k"; Fire 1; Acquire "k"; Fire 2; Closed 1;
   Acquire "k"; Opened "k"; Closed 0; Acquire "k"; Opened "k"].

End Handles.

From Stdlib Require Import NArith.

(** ** The database of finished transcripts

    The two tables of database.ts and the statements run on them.  A row of
    [transcripts] keeps the columns the code reads ([created_at] is never
    read).  [expires_at] holds [toISOString()] texts, which SQLite compares
    as texts: the column is modelled by the instant, in milliseconds since
    1970, and [isoLt] is the order of the texts. *)

Module Database.

Record Row := {
  server : string;
  expires_at : option N;     (* NULL for a permanent transcript *)
  is_permanent : bool
}.

Record Db := {
  (** the pragma of the connection: are foreign keys enforced *)
  foreign_keys : bool;
  (** [transcripts], by its primary key [id] *)
  transcripts : gmap string Row;
  (** [transcript_tags], whose primary key is the whole row *)
  transcript_tags : gset (string * string)
}.

Definition emptyDb (fk : bool) : Db :=
  {| foreign_keys := fk; transcripts := ∅; transcript_tags := ∅ |}.

Inductive SqliteError :=
  | SQLITE_CONSTRAINT_PRIMARYKEY
  | SQLITE_CONSTRAINT_FOREIGNKEY.

(** What a statement or a function gives: it returns, or it throws. *)
Inductive result (A : Type) : Type :=
  | Returns (a : A)
  | Throws (e : SqliteError).

Arguments Returns {A} a.
Arguments Throws {A} e.

#[global] Instance result_ret : MRet result := fun A a => Returns a.

#[global] Instance result_bind : MBind result := fun A B f x =>
  match x with
  | Returns a => f a
  | Throws e => Throws e
  end.

(** [INSERT INTO transcripts (id, server, expires_at, is_permanent)]: the
    primary key refuses a second row with the same id. *)
Definition insertTranscript (id server : string) (exp : option N) (perm : bool)
    (db : Db) : result Db :=
  match transcripts db !! id with
  | Some _ => Throws SQLITE_CONSTRAINT_PRIMARYKEY
  | None =>
      Returns {| foreign_keys := foreign_keys db;
                 transcripts :=
                   <[id := {| server := server; expires_at := exp; is_permanent := perm |}]>
                     (transcripts db);
                 transcript_tags := transcript_tags db |}
  end.

(** [INSERT OR IGNORE INTO transcript_tags (transcript_id, tag)]: a row that
    is there already is left alone; the foreign key, when it is enforced,
    refuses a row for a transcript that does not exist ([OR IGNORE] does not
    cover foreign keys). *)
Definition insertTag (id tag : string) (db : Db) : result Db :=
  match transcripts db !! id with
  | None =>
      if foreign_keys db then Throws SQLITE_CONSTRAINT_FOREIGNKEY
      else Returns {| foreign_keys := foreign_keys db; transcripts := transcripts db;
                      transcript_tags := {[ (id, tag) ]} ∪ transcript_tags db |}
  | Some _ =>
      Returns {| foreign_keys := foreign_keys db; transcripts := transcripts db;
                 transcript_tags := {[ (id, tag) ]} ∪ transcript_tags db |}
  end.

(** Thirty days, in milliseconds. *)
Definition thirtyDays : N := 30 * 24 * 60 * 60 * 1000.

(** The body of the transaction of [createTranscriptInDb] (lines 77 to
    92). *)
Fixpoint insertTags (id : string) (tagsArr : list string) (db : Db) : result Db :=
  match tagsArr with
  | [] => Returns db
  | tag :: rest =>
      if negb (Text.falsy tag) && negb (Text.falsy (Text.trim tag)) then
        db' ← insertTag id (Text.trim tag) db; insertTags id rest db'
      else insertTags id rest db
  end.

(** [createTranscriptInDb(transcriptId, serverId, isPermanent, tags)] (lines
    57 to 95) at the time [now]; when a statement throws, the transaction
    is rolled back: the database is the one before the call. *)
Definition createTranscriptInDb (transcriptId serverId : string) (isPermanent : bool)
    (tags : list string) (now : N) (db : Db) : result Db :=
  let expiresAt := if isPermanent then None else Some (now + thirtyDays)%N in
  db' ← insertTranscript transcriptId serverId expiresAt isPermanent db;
  insertTags transcriptId tags db'.

(** [addTag(transcriptId, tag)] (lines 100 to 108) *)
Definition addTag (transcriptId tag : string) (db : Db) : result Db :=
  if Text.falsy (Text.trim tag) then Returns db
  else insertTag transcriptId (Text.trim tag) db.

(** [removeTag(transcriptId, tag)] (lines 110 to 117) *)
Definition removeTag (transcriptId tag : string) (db : Db) : Db :=
  {| foreign_keys := foreign_keys db; transcripts := transcripts db;
     transcript_tags := transcript_tags db ∖ {[ (transcriptId, Text.trim tag) ]} |}.

(** The row [(id, tag)] is in [transcript_tags]. *)
Definition tagged (db : Db) (id tag : string) : bool :=
  bool_decide ((id, tag) ∈ transcript_tags db).

(** [COUNT(DISTINCT tt.tag)] over the rows of [id] joined on a tag of the
    list. *)
Definition countDistinct (db : Db) (id : string) (tags : list string) : nat :=
  length (filter (fun tag => tagged db id tag = true) (remove_dups tags)).

(** [findTranscripts(server, tags, mode)] (lines 125 to 162): the ids of the
    rows it returns, in no order that SQL fixes; [None] for an omitted
    [tags]. *)
Definition findTranscripts (server_ : string) (tags : option (list string))
    (mode : string) (db : Db) : list string :=
  let ofServer :=
    filter (fun r => server r.2 = server_) (map_to_list (transcripts db)) in
  match default [] tags with
  | [] => ofServer.*1
  | tag :: rest =>
      if String.eqb mode "any" then
        (filter (fun r => existsb (tagged db r.1) (tag :: rest) = true) ofServer).*1
      else
        (filter (fun r => countDistinct db r.1 (tag :: rest) = length (tag :: rest))
           ofServer).*1
  end.

(** The first instant of the year 10000.  Before it [toISOString()] writes
    the year with four digits, from it on with the sign [+] and six
    digits. *)
Definition year10000 : N := 253402300800000.

(** [a < b] on the [toISOString()] texts of the instants [a] and [b], as
    SQLite compares two texts: the texts of one form have one width and are
    in the order of the instants, and a text that begins with the sign [+]
    is before every text that begins with a digit. *)
Definition isoLt (a b : N) : bool :=
  match (a <? year10000)%N, (b <? year10000)%N with
  | true, true | false, false => (a <? b)%N
  | false, true => true
  | true, false => false
  end.

(** [is_permanent = FALSE AND expires_at < now]; the comparison is on the
    texts, and is not true of a [NULL]. *)
Definition expired (now : N) (r : Row) : bool :=
  negb (is_permanent r)
  && match expires_at r with
     | Some e => isoLt e now
     | None => false
     end.

(** [ORDER BY expires_at ASC LIMIT 1] over the expired rows: a row whose
    [expires_at] is the first text (which one among equals is the engine's
    choice; here the first in the order of the map). *)
Definition oldest (now : N) (db : Db) : option string :=
  fst <$>
    foldr (fun r best =>
             match best with
             | None => Some r
             | Some b =>
                 if isoLt (default 0%N (expires_at b.2)) (default 0%N (expires_at r.2))
                 then Some b else Some r
             end)
      None
      (filter (fun r => expired now r.2 = true) (map_to_list (transcripts db))).

End Database.

Section CleanupLoop.
Context `{Host}.
Import Database.

(** [deleteTranscriptData(transcriptId)] (lines 202 to 208): the document is
    unlinked; that it is missing (ENOENT) is no error. *)
Definition deleteTranscriptData (transcriptId : string) (d : Disk) : Disk :=
  unlink (outputPath transcriptId) d.

(** One turn of the loop of [cleanupExpiredTranscripts] (lines 185 to 194):
    the tags of the transcript are deleted, then its row (which, with
    foreign keys enforced, would delete the tags as well), then its
    document. *)
Definition deleteTranscript (id : string) (st : Db * Disk) : Db * Disk :=
  ({| foreign_keys := foreign_keys st.1;
      transcripts := base.delete id (transcripts st.1);
      transcript_tags := filter (fun r => r.1 <> id) (transcript_tags st.1) |},
   deleteTranscriptData id st.2).

(** [while (true) { ... }] (lines 169 to 195); [clock n] is the time read
    at the turn [n].  The state at the exit and the number of the turn that
    found no expired row. *)
Fixpoint cleanupLoop (fuel : nat) (clock : nat -> N) (turn : nat) (st : Db * Disk)
  : Db * Disk * nat :=
  match fuel with
  | 0 => (st, turn)
  | S fuel =>
      match oldest (clock turn) st.1 with
      | None => (st, turn)
      | Some id => cleanupLoop fuel clock (S turn) (deleteTranscript id st)
      end
  end.

(** One run of the callback that [cleanupExpiredTranscripts] hands to
    [setInterval]: a turn deletes a row, so as many turns as there are rows
    are enough. *)
Definition cleanupExpiredTranscripts (clock : nat -> N) (st : Db * Disk)
  : Db * Disk * nat :=
  cleanupLoop (S (size (transcripts st.1))) clock 0 st.

End CleanupLoop.

Section Operations.
Context `{Host}.
Import Database.

(** A call of one of the functions database.ts exports, or one run of the
    cleanup callback. *)
Inductive operation :=
  | Create (id server_ : string) (isPermanent : bool) (tags : list string) (now : N)
  | AddTag (id tag : string)
  | RemoveTag (id tag : string)
  | Cleanup (clock : nat -> N).

(** The database and the disk after the call; a call that throws leaves
    them as they were. *)
Definition exec (c : operation) (st : Db * Disk) : Db * Disk :=
  match c with
  | Create id sv perm tags now =>
      match createTranscriptInDb id sv perm tags now st.1 with
      | Returns db => (db, st.2)
      | Throws _ => st
      end
  | AddTag id tag =>
      match addTag id tag st.1 with
      | Returns db => (db, st.2)
      | Throws _ => st
      end
  | RemoveTag id tag => (removeTag id tag st.1, st.2)
  | Cleanup clock => (cleanupExpiredTranscripts clock st).1
  end.

(** What every reachable database satisfies. *)
Record sound (db : Db) : Prop := {
  sound_trimmed : forall id tag,
    (id, tag) ∈ transcript_tags db -> tag <> EmptyString /\ Text.trim tag = tag;
  sound_referenced : forall id tag,
    foreign_keys db = true ->
    (id, tag) ∈ transcript_tags db -> is_Some (transcripts db !! id);
  sound_expiry : forall id row,
    transcripts db !! id = Some row ->
    (is_permanent row = true <-> expires_at row = None)
}.

End Operations.

(** ** The routes

    The checks that the handlers of the express application make before
    they call the writer and the database.  A header, a query parameter or
    a field of the body is [None] when the request has none, and a string
    otherwise. *)

Module Server.
Import Database.

(** [s.split(sep)] for a separator of one character: never empty. *)
Fixpoint split (sep : ascii) (s : string) : list string :=
  match s with
  | EmptyString => [EmptyString]
  | String c s' =>
      if Ascii.eqb c sep then EmptyString :: split sep s'
      else match split sep s' with
           | x :: r => String c x :: r
           | [] => [String c EmptyString]
           end
  end.

(** The character [sep] does not occur in [s]. *)
Fixpoint without (sep : ascii) (s : string) : bool :=
  match s with
  | EmptyString => true
  | String c s' => negb (Ascii.eqb c sep) && without sep s'
  end.

(** The authorization middleware (lines 39 to 47): does it call [next()];
    [ACCESS_TOKEN] is the variable of the environment, [None] when it is
    not set. *)
Definition authorized (authorization ACCESS_TOKEN : option string) : bool :=
  let authHeader := Text.orEmpty authorization in
  match split " " authHeader !! 1 with
  | None => false
  | Some token =>
      if Text.falsy token then false
      else match ACCESS_TOKEN with
           | Some expected => String.eqb token expected
           | None => false
           end
  end.

(** The tags of a search (lines 146 to 149), from the query parameter
    [t]. *)
Definition searchTags (t : option string) : list string :=
  filter (fun x => Text.falsy x = false) (map Text.trim (split "," (default EmptyString t))).

(** The answer of a handler: the status, and the transcripts of a
    search. *)
Record response := {
  status : nat;
  found : option (list string)
}.

(** [GET /search/:server] (lines 144 to 158) with the query parameters [t]
    and [m]. *)
Definition search (server_ : string) (t m : option string) (db : Db) : response :=
  let tags := searchTags t in
  let mode := default "any" m in
  if negb (bool_decide (mode ∈ ["any"; "all"])) then {| status := 400; found := None |}
  else if Text.falsy server_ then {| status := 400; found := None |}
  else {| status := 200; found := Some (findTranscripts server_ (Some tags) mode db) |}.


End Server.

(** [!!n] for a number of the host: false for zero. *)
Class Truthiness (H : Host) := {
  number_truthy : @number H -> bool
}.

Section WriteRoute.
Context {H : Host} {T : Truthiness H}.



End WriteRoute.

(** ** A concrete host

    Integers for numbers, a reader and a printer for the JSON texts made of
    objects, arrays, strings without escapes, integers, [true], [false] and
    [null] (any other text is refused), and read streams that deliver
    [highWaterMark] characters at a time.  The theorems below hold for every
    host; this one evaluates them on concrete files. *)

From Stdlib Require Import ZArith DecimalString.

Module Mini.

Definition DQ : ascii := ascii_of_nat 34.
Definition BSL : ascii := ascii_of_nat 92.

(** A double-quoted text. *)
Definition q (s : string) : string := String DQ s +:+ String DQ EmptyString.

Definition isJsonSpace (c : ascii) : bool :=
  let n := nat_of_ascii c in ((n =? 32) || (n =? 9) || (n =? 10) || (n =? 13))%nat.

Definition isDigit (c : ascii) : bool :=
  let n := nat_of_ascii c in ((48 <=? n) && (n <=? 57))%nat.

Fixpoint skip (s : string) : string :=
  match s with
  | String c s' => if isJsonSpace c then skip s' else s
  | EmptyString => EmptyString
  end.

(** [s] without the prefix [p], when it starts with it. *)
Fixpoint after (p s : string) : option string :=
  match p, s with
  | EmptyString, _ => Some s
  | String a p', String b s' => if Ascii.eqb a b then after p' s' else None
  | String _ _, EmptyString => None
  end.

(** The characters up to the closing quote, and what follows it. *)
Fixpoint text (s : string) : option (string * string) :=
  match s with
  | EmptyString => None
  | String c s' =>
      if Ascii.eqb c DQ then Some (EmptyString, s')
      else if Ascii.eqb c BSL || (nat_of_ascii c <? 32)%nat then None
      else '(t, r) ← text s'; Some (String c t, r)
  end.

Fixpoint digits (s : string) : string * string :=
  match s with
  | String c s' => if isDigit c then let '(d, r) := digits s' in (String c d, r) else (EmptyString, s)
  | EmptyString => (EmptyString, EmptyString)
  end.

Definition startsFraction (s : string) : bool :=
  match s with
  | String c _ => Ascii.eqb c "."%char || Ascii.eqb c "e"%char || Ascii.eqb c "E"%char
  | EmptyString => false
  end.

(** An integer literal: no leading zero, no fraction, no exponent. *)
Definition integer (s : string) : option (Z * string) :=
  let '(neg, s1) := match after "-" s with Some r => (true, r) | None => (false, s) end in
  let '(d, r) := digits s1 in
  match d with
  | EmptyString => None
  | String c d' =>
      if (Ascii.eqb c "0"%char && negb (Text.falsy d')) || startsFraction r then None
      else
        n ← NilZero.uint_of_string d;
        Some (if neg : bool then Z.opp (Z.of_uint n) else Z.of_uint n, r)
  end.

(** An own property is set: a repeated key keeps its place and takes the
    new value. *)
Fixpoint setField (k : string) (v : value Z) (fields : list (string * value Z))
  : list (string * value Z) :=
  match fields with
  | [] => [(k, v)]
  | (k', v') :: rest =>
      if String.eqb k' k then (k', v) :: rest else (k', v') :: setField k v rest
  end.

Inductive mode :=
  | AValue
  | Elements (seen : list (value Z))
  | Fields (seen : list (string * value Z)).

Fixpoint read (fuel : nat) (m : mode) (s : string) : option (value Z * string) :=
  match fuel with
  | O => None
  | S fuel =>
      let s := skip s in
      match m with
      | AValue =>
          match s with
          | String c r =>
              if Ascii.eqb c DQ then '(t, r') ← text r; Some (Str t, r')
              else if Ascii.eqb c "["%char then
                match after "]" (skip r) with
                | Some r' => Some (Arr [], r')
                | None => read fuel (Elements []) r
                end
              else if Ascii.eqb c "{"%char then
                match after "}" (skip r) with
                | Some r' => Some (Obj [], r')
                | None => read fuel (Fields []) r
                end
              else
                match after "null" s, after "true" s, after "false" s with
                | Some r', _, _ => Some (Null, r')
                | _, Some r', _ => Some (Bool true, r')
                | _, _, Some r' => Some (Bool false, r')
                | _, _, _ => '(n, r') ← integer s; Some (Num n, r')
                end
          | EmptyString => None
          end
      | Elements seen =>
          '(v, r) ← read fuel AValue s;
          let r := skip r in
          match after "," r, after "]" r with
          | Some r', _ => read fuel (Elements (seen ++ [v])%list) r'
          | _, Some r' => Some (Arr (seen ++ [v])%list, r')
          | _, _ => None
          end
      | Fields seen =>
          r ← after (String DQ EmptyString) s;
          '(k, r) ← text r;
          r ← after ":" (skip r);
          '(v, r) ← read fuel AValue r;
          let r := skip r in
          match after "," r, after "}" r with
          | Some r', _ => read fuel (Fields (setField k v seen)) r'
          | _, Some r' => Some (Obj (setField k v seen), r')
          | _, _ => None
          end
      end
  end.

Definition fromText (s : string) : option (value Z) :=
  '(v, r) ← read (2 * String.length s + 2) AValue s;
  if Text.falsy (skip r) then Some v else None.

Definition hexDigit (n : nat) : ascii :=
  ascii_of_nat (if (n <? 10)%nat then 48 + n else 87 + n).

Definition escape (c : ascii) : string :=
  let n := nat_of_ascii c in
  if Ascii.eqb c DQ then String BSL (String DQ EmptyString)
  else if Ascii.eqb c BSL then String BSL (String BSL EmptyString)
  else if (n =? 8)%nat then String BSL "b"
  else if (n =? 9)%nat then String BSL "t"
  else if (n =? 10)%nat then String BSL "n"
  else if (n =? 12)%nat then String BSL "f"
  else if (n =? 13)%nat then String BSL "r"
  else if (n <? 32)%nat then
    String BSL "u00" +:+ String (hexDigit (n / 16)) (String (hexDigit (n mod 16)) EmptyString)
  else String c EmptyString.

Fixpoint quote (s : string) : string :=
  match s with
  | EmptyString => EmptyString
  | String c s' => escape c +:+ quote s'
  end.

Fixpoint toText (v : value Z) : string :=
  match v with
  | Null => "null"
  | Bool true => "true"
  | Bool false => "false"
  | Num n => NilZero.string_of_int (Z.to_int n)
  | Str s => q (quote s)
  | Arr items =>
      "[" +:+
      (fix elements (l : list (value Z)) : string :=
         match l with
         | [] => EmptyString
         | x :: r =>
             toText x +:+ match r with [] => EmptyString | _ => "," +:+ elements r end
         end) items
      +:+ "]"
  | Obj fields =>
      "{" +:+
      (fix members (l : list (string * value Z)) : string :=
         match l with
         | [] => EmptyString
         | (k, x) :: r =>
             q (quote k) +:+ ":" +:+ toText x
             +:+ match r with [] => EmptyString | _ => "," +:+ members r end
         end) fields
      +:+ "}"
  end.

(** The first [n] characters of [s], and the rest. *)
Fixpoint cut (n : nat) (s : string) : string * string :=
  match n, s with
  | S n', String c s' => let '(a, b) := cut n' s' in (String c a, b)
  | _, _ => (EmptyString, s)
  end.

Fixpoint pieces (fuel : nat) (highWaterMark : nat) (s : string) : list string :=
  match s with
  | EmptyString => []
  | String _ _ =>
      match fuel with
      | O => [s]
      | S fuel => let '(a, b) := cut highWaterMark s in a :: pieces fuel highWaterMark b
      end
  end.

Definition readChunks (highWaterMark : nat) (s : string) : list string :=
  pieces (String.length s) (S (Nat.pred highWaterMark)) s.

End Mini.

(** * Facts about the text primitives *)

Module TextFacts.
Import Text.

Lemma trimEnd_falsy s : falsy (trimEnd s) = allWhiteSpace s.
Proof.
  induction s as [|c s IH]; [reflexivity|]. simpl. rewrite IH.
  destruct (isWhiteSpace c), (allWhiteSpace s); reflexivity.
Qed.

Lemma blank_allWhiteSpace s : blank s = allWhiteSpace s.
Proof.
  unfold blank, trim. rewrite trimEnd_falsy.
  induction s as [|c s IH]; [reflexivity|]. simpl.
  destruct (isWhiteSpace c) eqn:E; simpl; [exact IH | now rewrite E].
Qed.

Lemma append_assoc (a b c : string) : (a +:+ b) +:+ c = a +:+ (b +:+ c).
Proof. induction a as [|x a IH]; simpl; [reflexivity | now rewrite IH]. Qed.

Lemma append_empty (a : string) : a +:+ EmptyString = a.
Proof. induction a as [|x a IH]; simpl; [reflexivity | now rewrite IH]. Qed.

Lemma concat_app (l1 l2 : list string) :
  concat (l1 ++ l2) = concat l1 +:+ concat l2.
Proof.
  induction l1 as [|x l1 IH]; simpl; [reflexivity|].
  now rewrite IH, append_assoc.
Qed.

Lemma split_nl_nonempty s : split_nl s <> [].
Proof.
  destruct s as [|c s]; simpl; [discriminate|].
  destruct (Ascii.eqb c LF); [discriminate|].
  destruct (split_nl s); discriminate.
Qed.

Lemma orEmpty_Some s : orEmpty (Some s) = s.
Proof. destruct s; reflexivity. Qed.

Lemma split_nl_cons c s :
  Ascii.eqb c LF = false ->
  exists x r, split_nl s = x :: r /\ split_nl (String c s) = String c x :: r.
Proof.
  intros E. simpl. rewrite E.
  destruct (split_nl s) as [|x r] eqn:S; [now apply split_nl_nonempty in S|].
  eauto.
Qed.

Lemma split_nl_append x y :
  split_nl (x +:+ y) = removelast (split_nl x) ++ split_nl (rest x +:+ y).
Proof.
  unfold rest. induction x as [|c x IH]; [reflexivity|].
  cbn [String.append]. destruct (Ascii.eqb c LF) eqn:E.
  - cbn [split_nl]. rewrite E, IH.
    destruct (split_nl x) as [|h r] eqn:S; [now apply split_nl_nonempty in S|].
    reflexivity.
  - destruct (split_nl_cons c x E) as (h & r & S & S').
    destruct (split_nl_cons c (x +:+ y) E) as (h' & r' & T & T').
    rewrite S', T'. rewrite IH, S in T.
    destruct r as [|h2 r].
    + change (removelast [h]) with (@nil string) in T.
      change (last [h]) with (Some h) in T.
      change (removelast [String c h]) with (@nil string).
      change (last [String c h]) with (Some (String c h)).
      rewrite orEmpty_Some in *. cbn [app String.append split_nl] in *.
      rewrite E, T. reflexivity.
    + change (removelast (h :: h2 :: r)) with (h :: removelast (h2 :: r)) in T.
      change (last (h :: h2 :: r)) with (last (h2 :: r)) in T.
      injection T as <- <-.
      reflexivity.
Qed.

Lemma split_nl_noLF s : noLF s = true -> split_nl s = [s].
Proof.
  induction s as [|c s IH]; [reflexivity|]. cbn [split_nl noLF].
  intros [Ec Es]%andb_true_iff. apply negb_true_iff in Ec.
  now rewrite Ec, IH.
Qed.

Lemma split_nl_elements s : Forall (fun l => noLF l = true) (split_nl s).
Proof.
  induction s as [|c s IH]; cbn [split_nl]; [repeat constructor|].
  destruct (Ascii.eqb c LF) eqn:E; [constructor; [reflexivity | exact IH]|].
  destruct (split_nl s) as [|x r]; [repeat constructor; cbn [noLF]; now rewrite E|].
  inversion IH; subst. constructor; [cbn [noLF]; now rewrite E | assumption].
Qed.

Lemma rest_noLF s : noLF (rest s) = true.
Proof.
  unfold rest. pose proof (split_nl_elements s) as F.
  destruct (last (split_nl s)) as [x|] eqn:L; [|reflexivity].
  rewrite orEmpty_Some. apply last_Some in L as [l' L]. rewrite L in F.
  apply Forall_app in F as [_ F]. now inversion F.
Qed.

Lemma split_nl_line l s :
  noLF l = true -> split_nl (l +:+ NL +:+ s) = l :: split_nl s.
Proof.
  change (NL +:+ s) with (String LF s).
  induction l as [|c l IH]; [reflexivity|]. cbn [String.append split_nl noLF].
  intros [Ec El]%andb_true_iff. apply negb_true_iff in Ec.
  now rewrite Ec, IH.
Qed.

(** A file written one [line + NL] at a time splits back into its lines,
    followed by the empty text after the last line feed. *)
Lemma split_nl_lines ls :
  Forall (fun l => noLF l = true) ls ->
  split_nl (concat (map (fun l => l +:+ NL) ls)) = ls ++ [EmptyString].
Proof.
  induction 1 as [|l ls Hl _ IH]; [reflexivity|].
  cbn [map concat]. rewrite append_assoc, split_nl_line by assumption.
  now rewrite IH.
Qed.

Lemma readline_line l s :
  noBreak l = true -> readline (l +:+ NL +:+ s) = l :: readline s.
Proof.
  change (NL +:+ s) with (String LF s).
  induction l as [|c l IH]; [reflexivity|]. cbn [String.append readline noBreak].
  intros [[Ec Er]%andb_true_iff El]%andb_true_iff.
  apply negb_true_iff in Ec, Er. now rewrite Ec, Er, IH.
Qed.

(** A file written one [line + NL] at a time is read back by [readline] as
    these lines. *)
Lemma readline_lines ls :
  Forall (fun l => noBreak l = true) ls ->
  readline (concat (map (fun l => l +:+ NL) ls)) = ls.
Proof.
  induction 1 as [|l ls Hl _ IH]; [reflexivity|].
  cbn [map concat]. rewrite append_assoc, readline_line by assumption.
  now rewrite IH.
Qed.

(** The lines [readline] emits hold no line break. *)
Lemma readline_noBreak s : Forall (fun l => noBreak l = true) (readline s).
Proof.
  remember (String.length s) as n eqn:L. assert (String.length s <= n) as B by lia.
  clear L. revert s B. induction n as [|n IH]; intros [|c s] B;
    try constructor; cbn in B; [lia|].
  assert (String.length s <= n) as B' by lia. cbn [readline].
  destruct (Ascii.eqb c LF) eqn:E1.
  { constructor; [reflexivity | now apply IH]. }
  destruct (Ascii.eqb c CR) eqn:E2.
  { destruct s as [|c' s]; [repeat constructor|]. cbn in B'.
    destruct (Ascii.eqb c' LF); (constructor; [reflexivity | apply IH; cbn; lia]). }
  pose proof (IH s B') as F.
  destruct (readline s) as [|x r].
  - repeat constructor. cbn [noBreak]. now rewrite E1, E2.
  - inversion F; subst. constructor; [|assumption].
    cbn [noBreak]. now rewrite E1, E2.
Qed.

End TextFacts.

(** * The concrete host meets the interface *)

Section MiniFacts.
Import Text TextFacts Mini.

Lemma cut_append n s : fst (cut n s) +:+ snd (cut n s) = s.
Proof.
  revert s; induction n as [|n IH]; intros [|c s]; simpl; try reflexivity.
  specialize (IH s). destruct (cut n s) as [a b]. simpl in *. now rewrite IH.
Qed.

Lemma pieces_concat fuel n s : Text.concat (pieces fuel n s) = s.
Proof.
  revert s; induction fuel as [|fuel IH]; intros [|c s]; try reflexivity.
  - simpl. now rewrite append_empty.
  - cbn [pieces]. pose proof (cut_append n (String c s)) as E.
    destruct (cut n (String c s)) as [a b]. cbn [Text.concat].
    rewrite IH. exact E.
Qed.

Lemma isWhiteSpace_cases c :
  Text.isWhiteSpace c = true ->
  isJsonSpace c = true \/ In (nat_of_ascii c) [11; 12; 160].
Proof.
  destruct c as [[] [] [] [] [] [] [] []]; vm_compute; intros E;
    try discriminate E; auto 6.
Qed.

(** A text of white space only is no JSON text. *)
Lemma read_blank fuel s : Text.allWhiteSpace s = true -> read fuel AValue s = None.
Proof.
  destruct fuel as [|fuel]; [reflexivity|].
  induction s as [|c s IH]; intros E; [reflexivity|].
  simpl in E. apply andb_true_iff in E as [Ec Es].
  destruct (isWhiteSpace_cases c Ec) as [J|J].
  - specialize (IH Es). cbn [read skip] in *. now rewrite J.
  - assert (isJsonSpace c = false) as N.
    { destruct c as [[] [] [] [] [] [] [] []]; vm_compute in J; vm_compute;
        try reflexivity; exfalso; intuition discriminate. }
    cbn [read skip]. rewrite N.
    destruct c as [[] [] [] [] [] [] [] []]; vm_compute in J;
      try (exfalso; intuition discriminate); reflexivity.
Qed.

Lemma fromText_blank s : Text.blank s = true -> fromText s = None.
Proof.
  intros E. unfold fromText. rewrite read_blank; [reflexivity|].
  now rewrite <- blank_allWhiteSpace.
Qed.

End MiniFacts.

(** Node with integer numbers and the default [highWaterMark] of file
    streams, run from the directory [/srv]. *)
#[global] Instance miniHost : Host := {|
  number := Z;
  number_eq := Z.eqb;
  JSON_parse := Mini.fromText;
  JSON_parse_blank := fromText_blank;
  JSON_stringify := Mini.toText;
  cwd := "/srv";
  chunks := Mini.readChunks (2 ^ 16);
  chunks_concat := fun s => pieces_concat _ _ s
|}.

#[global] Instance miniTruthiness : Truthiness miniHost := {|
  number_truthy := fun z => negb (z =? 0)%Z
|}.

(** Concrete records and worlds for the examples. *)
Module Sample.
Import Mini.

(** [{"a":1}], [{"a":2}] and [{"note":"hi"}] *)
Definition a1 : string := "{" +:+ q "a" +:+ ":1}".
Definition a2 : string := "{" +:+ q "a" +:+ ":2}".
Definition note : string := "{" +:+ q "note" +:+ ":" +:+ q "hi" +:+ "}".

(** [{"id":1}], [{"id":2}] and [{"id":1,"text":"new"}] *)
Definition id1 : string := "{" +:+ q "id" +:+ ":1}".
Definition id2 : string := "{" +:+ q "id" +:+ ":2}".
Definition id1_new : string :=
  "{" +:+ q "id" +:+ ":1," +:+ q "text" +:+ ":" +:+ q "new" +:+ "}".

(** The targets [{"id":1,"text":"new"}], [{"id":3}] and [{}]. *)
Definition target1 : value Z := Obj [("id", Num 1%Z); ("text", Str "new")].
Definition target3 : value Z := Obj [("id", Num 3%Z)].
Definition target_no_id : value Z := Obj [].

(** A writer with the default directory on an empty disk. *)
Definition w0 : World := {| writer := FileWriter.new_default; disk := emptyDisk |}.

(** A world whose only file is the active file of [id]. *)
Definition withFile (id content : string) : World :=
  {| writer := FileWriter.new_default;
     disk := writeFile (inputPath id) content emptyDisk |}.

(** The text of [{"metadata":{},"messages":[{"a":1},{"a":2}]}]. *)
Definition doc_a1_a2 : string :=
  "{" +:+ q "metadata" +:+ ":{}," +:+ q "messages" +:+ ":[" +:+ a1 +:+ "," +:+ a2 +:+ "]}".

(** The text of [{"metadata":{},"messages":[{"note":"hi"}]}]. *)
Definition doc_note_message : string :=
  "{" +:+ q "metadata" +:+ ":{}," +:+ q "messages" +:+ ":[" +:+ note +:+ "]}".

(** The text of [{"metadata":{"note":"hi"},"messages":[]}]. *)
Definition doc_note_metadata : string :=
  "{" +:+ q "metadata" +:+ ":" +:+ note +:+ "," +:+ q "messages" +:+ ":[]}".

End Sample.

(** A database for the examples: the transcript ["t1"] of the server ["s"],
    which expires, and the permanent transcript ["t2"]. *)
Module SampleDb.
Import Database.

Definition row1 : Row :=
  {| server := "s"; expires_at := Some thirtyDays; is_permanent := false |}.

Definition row2 : Row :=
  {| server := "s"; expires_at := None; is_permanent := true |}.

Definition db1 : Db :=
  {| foreign_keys := true;
     transcripts := {[ "t1" := row1; "t2" := row2 ]};
     transcript_tags := {[ ("t1", "bug"); ("t2", "bug") ]} |}.

(** A disk with the documents of ["t1"] and ["t2"]. *)
Definition disk1 : Disk :=
  writeFile (outputPath "t2") "{}" (writeFile (outputPath "t1") "{}" emptyDisk).

End SampleDb.

(** * Facts about [finishTranscript] *)

Section FinishFacts.
Context `{Host}.
Import Text TextFacts.

Lemma forLines_app a b m i :
  forLines (a ++ b) m i = forLines a m i ≫= (fun r => forLines b r.1 r.2).
Proof.
  revert m i; induction a as [|l a IH]; intros m i; [reflexivity|].
  cbn [app forLines]. destruct (blank l); [apply IH|].
  destruct (parse l) as [v|e]; [apply IH | reflexivity].
Qed.

Lemma forChunks_scanText cs st :
  noLF (buffer st) = true ->
  forChunks cs st = scanText (buffer st +:+ concat cs) (messages st) (lineIndex st).
Proof.
  revert st; induction cs as [|c cs IH]; intros [b m i] B; cbn [buffer messages lineIndex] in *.
  - cbn [forChunks concat]. unfold scanText, rest.
    rewrite append_empty, split_nl_noLF by assumption.
    change (last [b]) with (Some b). now rewrite orEmpty_Some.
  - cbn [forChunks concat pop buffer messages lineIndex].
    rewrite <- (append_assoc b c (concat cs)).
    unfold scanText at 1.
    rewrite (split_nl_append (b +:+ c) (concat cs)).
    pose proof (split_nl_nonempty (rest (b +:+ c) +:+ concat cs)) as N.
    rewrite removelast_app, forLines_app by assumption.
    fold (rest (b +:+ c)).
    destruct (forLines (removelast (split_nl (b +:+ c))) m i) as [[m' i']|e];
      [|reflexivity].
    cbn [mbind outcome_bind fst snd].
    rewrite IH by apply rest_noLF. cbn [buffer messages lineIndex].
    unfold scanText. f_equal.
    assert (rest ((b +:+ c) +:+ concat cs) = rest (rest (b +:+ c) +:+ concat cs)) as ->; [|reflexivity].
    unfold rest at 1. rewrite split_nl_append.
    destruct (exists_last N) as (r & x & S).
    unfold rest at 2. rewrite S, app_assoc, !last_snoc. reflexivity.
Qed.

Lemma finishTranscript_eq id metadata d content :
  readFile (inputPath id) d = Some content ->
  finishTranscript id metadata d =
  match finishText (default (Obj []) metadata) content with
  | Throw e => (Throw e, d)
  | Ok (m, msgs) =>
      (Ok tt,
       unlink (inputPath id)
         (writeFile (outputPath id) (JSON_stringify (document m msgs)) d))
  end.
Proof.
  intros R. unfold finishTranscript. rewrite R.
  rewrite forChunks_scanText by reflexivity.
  cbn [buffer messages lineIndex String.append]. now rewrite chunks_concat.
Qed.

Lemma record_not_blank l v : record l v -> blank l = false.
Proof.
  intros [_ P]. destruct (blank l) eqn:B; [|reflexivity].
  rewrite JSON_parse_blank in P by assumption. discriminate.
Qed.

Lemma forLines_records ls vs m i :
  Forall2 record ls vs -> forLines ls m i = Ok (m ++ vs, i + length vs).
Proof.
  intros F; revert m i; induction F as [|l v ls vs R _ IH]; intros m i.
  - cbn. now rewrite app_nil_r, Nat.add_0_r.
  - cbn [forLines]. rewrite (record_not_blank l v R).
    unfold parse. destruct R as [_ ->]. cbn [mbind outcome_bind].
    rewrite IH, <- app_assoc. cbn [length app]. do 2 f_equal. lia.
Qed.

Lemma Forall2_record_noLF ls vs :
  Forall2 record ls vs -> Forall (fun l => noLF l = true) ls.
Proof. induction 1 as [|l v ls vs [N _] _ IH]; constructor; assumption. Qed.

(** Records written one per line, each followed by a line feed, all come
    out as messages; the metadata is the caller's. *)
Lemma finishText_records ls vs metadata :
  Forall2 record ls vs ->
  finishText metadata (concat (map (fun l => l +:+ NL) ls)) = Ok (metadata, vs).
Proof.
  intros F. unfold finishText, scanText, rest.
  rewrite split_nl_lines by (eapply Forall2_record_noLF; eassumption).
  rewrite removelast_last, last_snoc, (forLines_records ls vs) by assumption.
  reflexivity.
Qed.

(** A file that is one line without a line feed after it: the line is the
    metadata. *)
Lemma finishText_unterminated l v metadata :
  record l v -> finishText metadata l = Ok (v, []).
Proof.
  intros R. unfold finishText, scanText, rest.
  rewrite split_nl_noLF by apply R.
  change (last [l]) with (Some l). rewrite orEmpty_Some.
  cbn [removelast forLines mbind outcome_bind fst snd].
  unfold lastLine. cbn [buffer lineIndex messages].
  rewrite (record_not_blank l v R). unfold parse. destruct R as [_ ->].
  reflexivity.
Qed.

End FinishFacts.

(** * Facts about the file system *)

Section DiskFacts.
Import TextFacts.

Lemma readFile_None p d : readFile p d = None <-> names d !! p = None.
Proof. unfold readFile. destruct (names d !! p); cbn; split; congruence. Qed.

Lemma exists_readFile p d : exists_ p d = false <-> readFile p d = None.
Proof.
  rewrite readFile_None. unfold exists_.
  destruct (names d !! p); split; congruence.
Qed.

Lemma readFile_writeFile p s d : readFile p (writeFile p s d) = Some s.
Proof.
  unfold writeFile, readFile. destruct (names d !! p) as [i|] eqn:E; cbn.
  - rewrite E. cbn. now rewrite lookup_insert_eq.
  - rewrite lookup_insert_eq. cbn. now rewrite lookup_insert_eq.
Qed.

Lemma readFile_unlink p d : readFile p (unlink p d) = None.
Proof. apply readFile_None. cbn. apply lookup_delete_eq. Qed.

Lemma readFile_unlink_ne p p' d : p <> p' -> readFile p' (unlink p d) = readFile p' d.
Proof. intros N. unfold readFile. cbn. now rewrite lookup_delete_ne. Qed.

(** After [rename from to] the content of [from] is read under [to]. *)
Lemma readFile_rename from to d s :
  readFile from d = Some s -> readFile to (rename from to d) = Some s.
Proof.
  unfold readFile, rename. destruct (names d !! from) as [i|]; [|discriminate].
  cbn. now rewrite lookup_insert_eq.
Qed.

Lemma readFile_rename_from from to d :
  from <> to -> readFile from (rename from to d) = None.
Proof.
  intros N. apply readFile_None. unfold rename.
  destruct (names d !! from) as [i|] eqn:E; [|exact E].
  cbn. rewrite lookup_insert_ne by congruence. apply lookup_delete_eq.
Qed.

Lemma length_append a b : String.length (a +:+ b) = String.length a + String.length b.
Proof. induction a as [|c a IH]; cbn; [reflexivity | now rewrite IH]. Qed.

Lemma append_ne a b : b <> EmptyString -> a +:+ b <> a.
Proof.
  intros N E. apply (f_equal String.length) in E. rewrite length_append in E.
  destruct b; [congruence | cbn in E; lia].
Qed.

Lemma path_join_prefix dir name : exists z, path_join dir name = dir +:+ z.
Proof.
  unfold path_join. destruct name as [|c name]; [exists EmptyString; now rewrite append_empty|].
  destruct (Ascii.eqb c "/"); eauto.
Qed.

End DiskFacts.

Section PathFacts.
Context `{Host}.
Import TextFacts.

(** The active file and the complete file of any two keys are different
    paths. *)
Lemma inputPath_outputPath id id' : inputPath id <> outputPath id'.
Proof.
  unfold inputPath, outputPath.
  destruct (path_join_prefix (path_join cwd "/transcripts/active") (id +:+ ".jsonl")) as [z ->].
  destruct (path_join_prefix (path_join cwd "/transcripts/complete") (id' +:+ ".json")) as [z' ->].
  cbn [path_join]. change (Ascii.eqb "/" "/") with true. cbn match.
  rewrite !append_assoc. intros E. apply String.app_inj in E.
  cbn in E. discriminate E.
Qed.

Lemma tempPath_filePath wr id : FileWriter.tempPath wr id <> FileWriter.filePath wr id.
Proof. apply append_ne. discriminate. Qed.

End PathFacts.

(** * Facts about the tasks of the writer *)

Section WriterFacts.
Context `{Host}.
Import Text TextFacts FileWriter.

Lemma fold_rewrite (turn : string -> string) (ls : list string) (acc : string) :
  fold_left (fun written line => written +:+ turn line) ls acc
  = acc +:+ concat (map turn ls).
Proof.
  revert acc; induction ls as [|l ls IH]; intros acc; cbn [fold_left List.map concat].
  - now rewrite append_empty.
  - now rewrite IH, append_assoc.
Qed.

Lemma rewrite_loop_concat (turn : string -> string) (ls : list string) : rewrite_loop turn ls = concat (map turn ls).
Proof. unfold rewrite_loop. now rewrite fold_rewrite. Qed.

Lemma edit_line_matching obj line :
  edit_line obj line
  = if matching obj line then JSON_stringify obj +:+ NL else copied line.
Proof.
  unfold edit_line, matching, copied. destruct (blank line); [reflexivity|].
  cbn [negb andb]. destruct (parse line) as [parsed|e]; [|reflexivity].
  cbn [mbind outcome_bind]. destruct (same_id parsed obj) as [[]|e]; reflexivity.
Qed.

Lemma delete_line_matching obj line :
  delete_line obj line = if matching obj line then EmptyString else copied line.
Proof.
  unfold delete_line, matching, copied. destruct (blank line); [reflexivity|].
  cbn [negb andb]. destruct (parse line) as [parsed|e]; [|reflexivity].
  cbn [mbind outcome_bind]. destruct (same_id parsed obj) as [[]|e]; reflexivity.
Qed.

Lemma rewrite_missing turn id w :
  activeFile id w = None -> rewrite turn id w = (Ok tt, w).
Proof. unfold activeFile, rewrite. now intros ->. Qed.

(** A rewrite of an existing file: the new content is what the turns of the
    loop wrote, it is read under the old name, and the temporary name is
    gone. *)
Lemma rewrite_present turn id w content :
  activeFile id w = Some content ->
  (rewrite turn id w).1 = Ok tt
  /\ writer (rewrite turn id w).2 = writer w
  /\ activeFile id (rewrite turn id w).2 = Some (concat (map turn (readline content)))
  /\ exists_ (tempPath (writer w) id) (disk (rewrite turn id w).2) = false.
Proof.
  unfold activeFile, rewrite. intros ->. cbn [fst snd writer disk].
  rewrite rewrite_loop_concat. repeat split.
  - apply readFile_rename, readFile_writeFile.
  - apply exists_readFile, readFile_rename_from, tempPath_filePath.
Qed.

Lemma holds_activeFile id w c : holds id w c -> activeFile id w = Some c.
Proof.
  intros (h & _ & N & D). unfold activeFile, readFile. rewrite N. cbn. now rewrite D.
Qed.

Lemma append_unused id line w :
  unused id w ->
  (append id line w).1 = Ok tt
  /\ baseDir (writer (append id line w).2) = baseDir (writer w)
  /\ holds id (append id line w).2 (line +:+ NL).
Proof.
  intros [C A]. apply readFile_None in A.
  unfold append, getFileHandle, openAppend. rewrite C, A.
  cbn. repeat split. exists (next (disk w)). cbn.
  unfold filePath. cbn. rewrite !lookup_insert_eq. auto.
Qed.

Lemma append_holds id line w c :
  holds id w c ->
  (append id line w).1 = Ok tt
  /\ baseDir (writer (append id line w).2) = baseDir (writer w)
  /\ holds id (append id line w).2 (c +:+ line +:+ NL).
Proof.
  intros (h & C & N & D). unfold append, getFileHandle. rewrite C.
  cbn. repeat split. exists h. cbn. rewrite C, N, D, lookup_insert_eq. auto.
Qed.

(** After the idle timer closed the handle, the next append opens the file
    again and writes at its end: nothing is lost or overwritten. *)
Lemma append_after_close id line w c :
  holds id w c ->
  holds id (append id line (closeFile id w)).2 (c +:+ line +:+ NL).
Proof.
  intros (h & C & N & D).
  assert (closeFile id w
          = {| writer := {| baseDir := baseDir (writer w);
                            fileStates := base.delete id (fileStates (writer w)) |};
               disk := disk w |}) as ->.
  { unfold closeFile. now rewrite C. }
  unfold holds, append, getFileHandle, openAppend, filePath in *.
  cbn [writer disk fileStates baseDir]. rewrite lookup_delete_eq, N.
  exists h. cbn [writer disk fileStates baseDir snd appendFile names data].
  now rewrite N, D, !lookup_insert_eq.
Qed.

Lemma appendAll_holds id lines w c :
  holds id w c ->
  baseDir (writer (appendAll id lines w)) = baseDir (writer w)
  /\ holds id (appendAll id lines w) (c +:+ concat (map (fun l => l +:+ NL) lines)).
Proof.
  revert w c; induction lines as [|l lines IH]; intros w c Hc.
  - cbn. now rewrite append_empty.
  - destruct (append_holds id l w c Hc) as (_ & B & Hc').
    destruct (IH _ _ Hc') as [B' Hc''].
    change (appendAll id (l :: lines) w) with (appendAll id lines (append id l w).2).
    split; [congruence|]. cbn [List.map concat]. now rewrite !append_assoc in *.
Qed.

(** After the tasks of [append] for the lines [l :: lines], in this order,
    on a key that was not in use, the active file is these lines in this
    order, each followed by a line feed. *)
Lemma appendAll_unused id l lines w :
  unused id w ->
  baseDir (writer (appendAll id (l :: lines) w)) = baseDir (writer w)
  /\ activeFile id (appendAll id (l :: lines) w)
     = Some (concat (map (fun l => l +:+ NL) (l :: lines))).
Proof.
  intros U. destruct (append_unused id l w U) as (_ & B & Hc).
  destruct (appendAll_holds id lines _ _ Hc) as [B' Hc'].
  change (appendAll id (l :: lines) w) with (appendAll id lines (append id l w).2).
  split; [congruence|]. now apply holds_activeFile.
Qed.

End WriterFacts.

(** * Finalize: properties *)

Section FinalizeProperties.
Context `{Host}.
Import Text TextFacts FileWriter.

Lemma exists_Some p d s : readFile p d = Some s -> exists_ p d = true.
Proof.
  unfold readFile, exists_. destruct (names d !! p); [reflexivity | discriminate].
Qed.

Lemma activeFile_inputPath id w :
  baseDir (writer w) = baseDir FileWriter.new_default ->
  activeFile id w = readFile (inputPath id) (disk w).
Proof. unfold activeFile, filePath. now intros ->. Qed.

(** What is on the disk after a finalize that parsed every line. *)
Lemma finishTranscript_Ok id metadata d content m msgs :
  readFile (inputPath id) d = Some content ->
  finishText (default (Obj []) metadata) content = Ok (m, msgs) ->
  let r := finishTranscript id metadata d in
  r.1 = Ok tt
  /\ readFile (outputPath id) r.2 = Some (JSON_stringify (document m msgs))
  /\ exists_ (inputPath id) r.2 = false
  /\ exists_ (outputPath id) r.2 = true.
Proof.
  intros R F. cbv zeta. rewrite (finishTranscript_eq _ _ _ _ R), F. cbn [fst snd].
  assert (readFile (outputPath id)
            (unlink (inputPath id)
               (writeFile (outputPath id) (JSON_stringify (document m msgs)) d))
          = Some (JSON_stringify (document m msgs))) as E.
  { rewrite readFile_unlink_ne by apply inputPath_outputPath.
    apply readFile_writeFile. }
  repeat split; [exact E | | exact (exists_Some _ _ _ E)].
  apply exists_readFile, readFile_unlink.
Qed.

Lemma forLines_throw ls l m i :
  l ∈ ls -> blank l = false -> JSON_parse l = None ->
  forLines ls m i = Throw SyntaxError.
Proof.
  intros In B P. revert m i. induction In as [l ls|l l' ls _ IH]; intros m i.
  - cbn [forLines]. unfold parse. now rewrite B, P.
  - specialize (IH B P). cbn [forLines]. destruct (blank l'); [apply IH|].
    unfold parse. destruct (JSON_parse l'); [apply IH | reflexivity].
Qed.

Lemma finishText_throw metadata content l :
  l ∈ split_nl content -> blank l = false -> JSON_parse l = None ->
  finishText metadata content = Throw SyntaxError.
Proof.
  intros In B P. unfold finishText, scanText, rest.
  destruct (exists_last (split_nl_nonempty content)) as (ls & x & S).
  rewrite S in *. rewrite removelast_last, last_snoc, orEmpty_Some.
  apply elem_of_app in In as [In|In].
  - now rewrite (forLines_throw ls l).
  - apply list_elem_of_singleton in In as <-.
    destruct (forLines ls [] 0) as [[m i]|e] eqn:F.
    + cbn [mbind outcome_bind fst snd]. unfold lastLine. cbn [buffer].
      unfold parse. now rewrite B, P.
    + cbn [mbind outcome_bind].
      clear - F. revert F. generalize (@nil (value number)), 0.
      induction ls as [|y ls IH]; intros m i; cbn [forLines]; [discriminate|].
      destruct (blank y); [apply IH|]. unfold parse.
      destruct (JSON_parse y); cbn [mbind outcome_bind]; [apply IH | congruence].
Qed.

(** C4. After [append] of two records on a key that was not in use,
    [finishTranscript] writes the document whose metadata is the caller's
    (an empty object when none is given) and whose messages are the two
    records in the order of the appends; afterwards the active file does not
    exist and the complete file does. *)
Theorem finalize_round_trip (w : World) (id l1 l2 : string)
    (v1 v2 : value number) (metadata : jsval) :
  baseDir (writer w) = baseDir FileWriter.new_default ->
  unused id w ->
  record l1 v1 ->
  record l2 v2 ->
  let r := finishTranscript id metadata (disk (appendAll id [l1; l2] w)) in
  r.1 = Ok tt
  /\ readFile (outputPath id) r.2
     = Some (JSON_stringify (document (default (Obj []) metadata) [v1; v2]))
  /\ exists_ (inputPath id) r.2 = false
  /\ exists_ (outputPath id) r.2 = true.
Proof.
  intros B U R1 R2.
  destruct (appendAll_unused id l1 [l2] w U) as [B' A].
  rewrite activeFile_inputPath in A by congruence.
  apply (finishTranscript_Ok _ _ _ _ _ _ A).
  apply finishText_records. repeat first [assumption | constructor].
Qed.

(** C2, as the code has it.  One record appended to a key that was not in
    use is a message of the document, and the metadata is the caller's: the
    line taken as metadata is a last line with no line feed after it and no
    filled line before it, as when the active file is the bare record. *)
Theorem single_record_is_a_message (w : World) (id l : string)
    (v : value number) (metadata : jsval) (d : Disk) :
  baseDir (writer w) = baseDir FileWriter.new_default ->
  unused id w ->
  record l v ->
  readFile (inputPath id) d = Some l ->
  (let r := finishTranscript id metadata (disk (appendAll id [l] w)) in
   r.1 = Ok tt
   /\ readFile (outputPath id) r.2
      = Some (JSON_stringify (document (default (Obj []) metadata) [v])))
  /\ (let r := finishTranscript id metadata d in
      r.1 = Ok tt
      /\ readFile (outputPath id) r.2 = Some (JSON_stringify (document v []))).
Proof.
  intros B U R D. split.
  - destruct (appendAll_unused id l [] w U) as [B' A].
    rewrite activeFile_inputPath in A by congruence.
    refine (let P := finishTranscript_Ok _ _ _ _ _ _ A _ in conj (proj1 P) (proj1 (proj2 P))).
    apply finishText_records. repeat first [assumption | constructor].
  - refine (let P := finishTranscript_Ok _ _ _ _ _ _ D _ in conj (proj1 P) (proj1 (proj2 P))).
    now apply finishText_unterminated.
Qed.

(** C6. When a line of the active file that is not blank does not parse,
    [finishTranscript] throws and the disk is as it was: no complete
    document, the active file untouched. *)
Theorem finalize_aborts_on_parse_error (id : string) (metadata : jsval)
    (d : Disk) (content l : string) :
  readFile (inputPath id) d = Some content ->
  l ∈ split_nl content ->
  blank l = false ->
  JSON_parse l = None ->
  finishTranscript id metadata d = (Throw SyntaxError, d).
Proof.
  intros R In B P.
  now rewrite (finishTranscript_eq _ _ _ _ R), (finishText_throw _ _ l).
Qed.

End FinalizeProperties.

(** C4 on the records [{"a":1}] and [{"a":2}], key ["s1"], empty caller
    metadata, an empty disk: the complete file is
    [{"metadata":{},"messages":[{"a":1},{"a":2}]}]. *)
Lemma finalize_round_trip_witness :
  let r := finishTranscript "s1" (Some (Obj []))
             (disk (FileWriter.appendAll "s1" [Sample.a1; Sample.a2] Sample.w0)) in
  r.1 = Ok tt
  /\ readFile (outputPath "s1") r.2 = Some Sample.doc_a1_a2
  /\ exists_ (inputPath "s1") r.2 = false
  /\ exists_ (outputPath "s1") r.2 = true.
Proof.
  apply (finalize_round_trip (H := miniHost) Sample.w0 "s1" Sample.a1 Sample.a2
           (Obj [("a", Num 1%Z)]) (Obj [("a", Num 2%Z)]) (Some (Obj []))).
  - reflexivity.
  - split; reflexivity.
  - split; reflexivity.
  - split; reflexivity.
Defined.

(** C2 fails on the code: [{"note":"hi"}] appended to ["s2"] and finalized
    with empty metadata gives [{"metadata":{},"messages":[{"note":"hi"}]}],
    not [{"metadata":{"note":"hi"},"messages":[]}]. *)
Lemma single_record_counterexample :
  let r := finishTranscript "s2" (Some (Obj []))
             (disk (FileWriter.appendAll "s2" [Sample.note] Sample.w0)) in
  r.1 = Ok tt
  /\ readFile (outputPath "s2") r.2 = Some Sample.doc_note_message
  /\ readFile (outputPath "s2") r.2 <> Some Sample.doc_note_metadata.
Proof. vm_compute. repeat split. discriminate. Qed.

(** The amended C2 on the same record: appended, it is a message; alone in
    the file with no line feed after it, it is the metadata. *)
Lemma single_record_is_a_message_witness :
  (let r := finishTranscript "s2" (Some (Obj []))
              (disk (FileWriter.appendAll "s2" [Sample.note] Sample.w0)) in
   r.1 = Ok tt /\ readFile (outputPath "s2") r.2 = Some Sample.doc_note_message)
  /\ (let r := finishTranscript "s2" (Some (Obj []))
                 (disk (Sample.withFile "s2" Sample.note)) in
      r.1 = Ok tt /\ readFile (outputPath "s2") r.2 = Some Sample.doc_note_metadata).
Proof.
  apply (single_record_is_a_message (H := miniHost) Sample.w0 "s2" Sample.note
           (Obj [("note", Str "hi")]) (Some (Obj []))
           (disk (Sample.withFile "s2" Sample.note))).
  - reflexivity.
  - split; reflexivity.
  - split; reflexivity.
  - reflexivity.
Defined.

(** C6 on a file whose second line is [oops]. *)
Lemma finalize_aborts_on_parse_error_witness :
  let w := Sample.withFile "k" (Sample.a1 +:+ Text.NL +:+ "oops" +:+ Text.NL) in
  finishTranscript "k" None (disk w) = (Throw SyntaxError, disk w).
Proof.
  apply (finalize_aborts_on_parse_error (H := miniHost) "k" None _
           (Sample.a1 +:+ Text.NL +:+ "oops" +:+ Text.NL) "oops").
  - reflexivity.
  - vm_compute. apply list_elem_of_further, list_elem_of_here.
  - reflexivity.
  - reflexivity.
Defined.

(** * Edit and delete: properties *)

Section RewriteProperties.
Context `{Host}.
Import Text TextFacts FileWriter.

Lemma copied_kept line : copied line = kept line +:+ NL.
Proof. unfold copied, kept. now destruct (blank line). Qed.

Lemma kept_noBreak line : noBreak line = true -> noBreak (kept line) = true.
Proof. unfold kept. now destruct (blank line). Qed.

Lemma matching_kept obj line : matching obj line = false -> matching obj (kept line) = false.
Proof. unfold kept. destruct (blank line) eqn:B; [reflexivity | trivial]. Qed.

Lemma matching_not_blank obj line : matching obj line = true -> blank line = false.
Proof. unfold matching. destruct (blank line); [discriminate | reflexivity]. Qed.

(** What [delete] writes: the lines that do not match, copied. *)
Lemma delete_written obj (ls : list string) :
  concat (map (delete_line obj) ls)
  = concat (map (fun l => kept l +:+ NL) (filter (fun l => matching obj l = false) ls)).
Proof.
  induction ls as [|l ls IH]; [reflexivity|].
  cbn [map concat]. rewrite delete_line_matching, filter_cons.
  destruct (matching obj l) eqn:M.
  - rewrite decide_False by discriminate. exact IH.
  - rewrite decide_True by reflexivity. cbn [map concat].
    now rewrite IH, copied_kept.
Qed.

(** What [edit] writes: the new record for a line that matches, a copy for
    any other line. *)
Lemma edit_written obj (ls : list string) :
  concat (map (edit_line obj) ls)
  = concat (map (fun l => (if matching obj l then JSON_stringify obj else kept l) +:+ NL) ls).
Proof.
  induction ls as [|l ls IH]; [reflexivity|].
  cbn [map concat]. rewrite edit_line_matching, IH, copied_kept.
  now destruct (matching obj l).
Qed.

(** A line that does not match, and is empty or not blank, is written as
    it is by both loops. *)
Lemma turn_plain obj l :
  matching obj l = false -> l = EmptyString \/ blank l = false ->
  edit_line obj l = l +:+ NL /\ delete_line obj l = l +:+ NL.
Proof.
  intros M P. rewrite edit_line_matching, delete_line_matching, M.
  unfold copied. destruct P as [->| ->]; split; reflexivity.
Qed.

Lemma unparseable_not_matching obj l : JSON_parse l = None -> matching obj l = false.
Proof.
  intros P. unfold matching, parse. rewrite P. apply andb_false_r.
Qed.

Lemma Forall_filter_keep {A} (P : A -> Prop) (Q : A -> Prop) `{forall x, Decision (Q x)}
    (l : list A) :
  Forall P l -> Forall P (filter Q l).
Proof.
  intros F. apply Forall_forall. intros x [_ In]%list_elem_of_filter.
  revert x In. now apply Forall_forall.
Qed.

(** The lines of a file after [delete], as [readline] gives them. *)
Lemma readline_delete_written obj content :
  readline (concat (map (delete_line obj) (readline content)))
  = map kept (filter (fun l => matching obj l = false) (readline content)).
Proof.
  rewrite delete_written.
  rewrite <- (readline_lines (map kept _)) at 1.
  - now rewrite map_map.
  - apply Forall_map, Forall_filter_keep.
    eapply Forall_impl; [apply readline_noBreak|].
    intros l N. now apply kept_noBreak.
Qed.

(** C5. On an existing active file, [delete] drops every line that matches
    the target and copies the others in order, so that no line of the new
    file matches and the file is shorter by the number of matching lines;
    [edit] writes the serialized target in the place of every line that
    matches and copies the others. *)
Theorem rewrite_every_match (w : World) (id : string) (obj : value number)
    (content : string) :
  activeFile id w = Some content ->
  let ls := readline content in
  let K := length (filter (fun l => matching obj l = true) ls) in
  (delete id obj w).1 = Ok tt
  /\ (exists content',
        activeFile id (delete id obj w).2 = Some content'
        /\ readline content' = map kept (filter (fun l => matching obj l = false) ls)
        /\ Forall (fun l => matching obj l = false) (readline content')
        /\ length (readline content') + K = length ls)
  /\ (edit id obj w).1 = Ok tt
  /\ activeFile id (edit id obj w).2
     = Some (concat (map (fun l => (if matching obj l then JSON_stringify obj else kept l)
                                   +:+ NL) ls)).
Proof.
  intros A ls K.
  destruct (rewrite_present (delete_line obj) id w content A) as (D1 & _ & D2 & _).
  destruct (rewrite_present (edit_line obj) id w content A) as (E1 & _ & E2 & _).
  repeat split; [exact D1 | | exact E1 | now rewrite <- edit_written].
  eexists. split; [exact D2|].
  rewrite readline_delete_written. fold ls. repeat split.
  - apply Forall_map, Forall_forall.
    intros l [M _]%list_elem_of_filter. now apply matching_kept.
  - rewrite length_map. subst K. clear.
    induction ls as [|l ls IH]; [reflexivity|].
    rewrite !filter_cons. destruct (matching obj l).
    + rewrite decide_False, decide_True by congruence. cbn [length]. lia.
    + rewrite decide_True, decide_False by congruence. cbn [length]. lia.
Qed.

(** C7. When the active file of the key does not exist, the tasks of
    [edit] and [delete] return without an error and leave the world as it
    was: no file is created, under the active name or the temporary one. *)
Theorem rewrite_missing_file (w : World) (id : string) (obj : value number) :
  exists_ (filePath (writer w) id) (disk w) = false ->
  edit id obj w = (Ok tt, w) /\ delete id obj w = (Ok tt, w).
Proof.
  intros E. apply exists_readFile in E.
  split; apply rewrite_missing; exact E.
Qed.

(** C3, as the code has it.  When the active file is made of lines that
    each end with a line feed, hold no carriage return, and are empty or
    hold a character that is not white space, and the target matches no
    line, [edit] and [delete] leave its content as it was, and the
    temporary name is gone. *)
Theorem rewrite_without_match (w : World) (id : string) (obj : value number)
    (ls : list string) :
  activeFile id w = Some (concat (map (fun l => l +:+ NL) ls)) ->
  Forall (fun l => noBreak l = true /\ (l = EmptyString \/ blank l = false)) ls ->
  Forall (fun l => matching obj l = false) ls ->
  ((edit id obj w).1 = Ok tt
   /\ activeFile id (edit id obj w).2 = Some (concat (map (fun l => l +:+ NL) ls))
   /\ exists_ (tempPath (writer w) id) (disk (edit id obj w).2) = false)
  /\ ((delete id obj w).1 = Ok tt
      /\ activeFile id (delete id obj w).2 = Some (concat (map (fun l => l +:+ NL) ls))
      /\ exists_ (tempPath (writer w) id) (disk (delete id obj w).2) = false).
Proof.
  intros A P M.
  destruct (rewrite_present (delete_line obj) id w _ A) as (D1 & _ & D2 & D3).
  destruct (rewrite_present (edit_line obj) id w _ A) as (E1 & _ & E2 & E3).
  rewrite readline_lines in D2, E2
    by (eapply Forall_impl; [exact P | intros l [N _]; exact N]).
  assert (map (edit_line obj) ls = map (fun l => l +:+ NL) ls
          /\ map (delete_line obj) ls = map (fun l => l +:+ NL) ls) as [Ee Ed].
  { clear - P M. induction ls as [|l ls IH]; [split; reflexivity|].
    inversion P as [|? ? [_ Pl] P']; inversion M as [|? ? Ml M']; subst.
    destruct (IH P' M') as [IHe IHd]. destruct (turn_plain obj l Ml Pl) as [Te Td].
    cbn [map]. now rewrite Te, Td, IHe, IHd. }
  rewrite Ee in E2. rewrite Ed in D2. repeat split; assumption.
Qed.

(** C8. A line that [JSON.parse] refuses is written as it is, whatever the
    target, and the task ends without an error.  The lines in question are
    those the loop hands to [JSON.parse], which are the lines that are not
    blank (the loop tests for a blank line first and never parses one); an
    empty line is written as it is as well. *)
Theorem unparseable_line_is_copied (w : World) (id : string) (obj : value number)
    (content : string) (before after : list string) (l : string) :
  activeFile id w = Some content ->
  readline content = before ++ l :: after ->
  JSON_parse l = None ->
  l = EmptyString \/ blank l = false ->
  ((edit id obj w).1 = Ok tt
   /\ activeFile id (edit id obj w).2
      = Some (concat (map (edit_line obj) before) +:+ (l +:+ NL)
              +:+ concat (map (edit_line obj) after)))
  /\ ((delete id obj w).1 = Ok tt
      /\ activeFile id (delete id obj w).2
         = Some (concat (map (delete_line obj) before) +:+ (l +:+ NL)
                 +:+ concat (map (delete_line obj) after))).
Proof.
  intros A R P B.
  destruct (rewrite_present (delete_line obj) id w _ A) as (D1 & _ & D2 & _).
  destruct (rewrite_present (edit_line obj) id w _ A) as (E1 & _ & E2 & _).
  destruct (turn_plain obj l (unparseable_not_matching obj l P) B) as [Te Td].
  rewrite R, map_app, concat_app in D2, E2. cbn [map concat] in D2, E2.
  rewrite Te in E2. rewrite Td in D2. repeat split; assumption.
Qed.

(** C10, as the code has it.  For a target that is not [null] and has no
    field [id], a line that parses to a value that is not [null] and has no
    field [id] matches: [delete] writes nothing for it and [edit] writes the
    serialized target; after [delete] no such line is left in the file. *)
Theorem missing_id_matches (w : World) (id : string) (obj : value number)
    (content : string) :
  obj <> Null -> lacks_id obj ->
  activeFile id w = Some content ->
  (forall line parsed,
     JSON_parse line = Some parsed -> parsed <> Null -> lacks_id parsed ->
     matching obj line = true
     /\ delete_line obj line = EmptyString
     /\ edit_line obj line = JSON_stringify obj +:+ NL)
  /\ (exists content',
        activeFile id (delete id obj w).2 = Some content'
        /\ forall line parsed,
             line ∈ readline content' ->
             JSON_parse line = Some parsed -> parsed <> Null -> ~ lacks_id parsed).
Proof.
  intros On Ol A.
  assert (forall line parsed,
            JSON_parse line = Some parsed -> parsed <> Null -> lacks_id parsed ->
            matching obj line = true) as Mt.
  { intros line parsed P Pn Pl. unfold matching.
    destruct (blank line) eqn:B.
    { rewrite JSON_parse_blank in P by assumption. discriminate. }
    unfold parse. rewrite P. cbn [negb andb mbind outcome_bind].
    unfold same_id.
    assert (forall v : value number, v <> Null -> lacks_id v -> get_id v = Ok None) as G.
    { intros [] Vn Vl; cbn [get_id lacks_id] in *;
        first [congruence | now rewrite Vl]. }
    now rewrite (G parsed), (G obj). }
  split.
  - intros line parsed P Pn Pl. pose proof (Mt line parsed P Pn Pl) as M.
    now rewrite delete_line_matching, edit_line_matching, M.
  - destruct (rewrite_present (delete_line obj) id w _ A) as (_ & _ & D2 & _).
    eexists. split; [exact D2|].
    intros line parsed In P Pn Pl.
    rewrite readline_delete_written in In.
    apply list_elem_of_In, in_map_iff in In as (l & <- & In).
    apply list_elem_of_In, list_elem_of_filter in In as [M _].
    apply matching_kept in M. now rewrite (Mt _ _ P Pn Pl) in M.
Qed.

End RewriteProperties.

Section RewriteExamples.
Import Text FileWriter Sample.

(** C5 on the file [{"id":1}], [{"id":2}], [{"id":1}] and the target
    [{"id":1,"text":"new"}]: both lines with [id] 1 go, or are replaced. *)
Lemma rewrite_every_match_witness :
  let w := withFile "k" (id1 +:+ NL +:+ id2 +:+ NL +:+ id1 +:+ NL) in
  (delete "k" target1 w).1 = Ok tt
  /\ (exists content',
        activeFile "k" (delete "k" target1 w).2 = Some content'
        /\ readline content' = [id2]
        /\ Forall (fun l => matching target1 l = false) (readline content')
        /\ length (readline content') + 2 = 3)
  /\ (edit "k" target1 w).1 = Ok tt
  /\ activeFile "k" (edit "k" target1 w).2
     = Some (id1_new +:+ NL +:+ id2 +:+ NL +:+ id1_new +:+ NL).
Proof.
  exact (rewrite_every_match (H := miniHost)
           (withFile "k" (id1 +:+ NL +:+ id2 +:+ NL +:+ id1 +:+ NL)) "k" target1
           (id1 +:+ NL +:+ id2 +:+ NL +:+ id1 +:+ NL) eq_refl).
Defined.

(** C7 on an empty disk. *)
Lemma rewrite_missing_file_witness :
  edit "k" target1 w0 = (Ok tt, w0) /\ delete "k" target1 w0 = (Ok tt, w0).
Proof. exact (rewrite_missing_file (H := miniHost) w0 "k" target1 eq_refl). Defined.

(** C3 fails on the code: a file whose only line is two spaces, and a
    target that matches no line; after [edit], and after [delete], the line
    is empty.  So does a file whose last line has no line feed after it,
    or whose line ends with CR LF: the new file ends every line with a line
    feed alone. *)
Lemma blank_line_counterexample :
  let content := "  " +:+ NL in
  let w := withFile "k" content in
  let bare := withFile "k" id1 in
  let crlf := withFile "k" (id1 +:+ String CR NL) in
  (existsb (matching target3) (readline content) = false
   /\ activeFile "k" w = Some content
   /\ activeFile "k" (edit "k" target3 w).2 = Some NL
   /\ activeFile "k" (delete "k" target3 w).2 = Some NL
   /\ NL <> content)
  /\ (matching target3 id1 = false
      /\ activeFile "k" (edit "k" target3 bare).2 = Some (id1 +:+ NL)
      /\ activeFile "k" (delete "k" target3 crlf).2 = Some (id1 +:+ NL)).
Proof. vm_compute. repeat split. discriminate. Qed.

(** The amended C3 on the file [{"id":1}], an empty line, [{"id":2}]. *)
Lemma rewrite_without_match_witness :
  let content := id1 +:+ NL +:+ NL +:+ id2 +:+ NL in
  let w := withFile "k" content in
  ((edit "k" target3 w).1 = Ok tt
   /\ activeFile "k" (edit "k" target3 w).2 = Some content
   /\ exists_ (tempPath (writer w) "k") (disk (edit "k" target3 w).2) = false)
  /\ ((delete "k" target3 w).1 = Ok tt
      /\ activeFile "k" (delete "k" target3 w).2 = Some content
      /\ exists_ (tempPath (writer w) "k") (disk (delete "k" target3 w).2) = false).
Proof.
  apply (rewrite_without_match (H := miniHost)
           (withFile "k" (id1 +:+ NL +:+ NL +:+ id2 +:+ NL)) "k" target3
           [id1; EmptyString; id2]).
  - reflexivity.
  - repeat (apply List.Forall_cons;
            [split; [reflexivity | first [left; reflexivity | right; reflexivity]]|]).
    apply List.Forall_nil.
  - repeat (apply List.Forall_cons; [reflexivity|]). apply List.Forall_nil.
Defined.

(** A line of white space only is not handed to [JSON.parse]: the blank
    branch of the loop writes an empty line for it, after [edit] and after
    [delete]. *)
Lemma whitespace_line_skips_the_parser :
  let blanks := String (ascii_of_nat 9) " " in
  let content := id1 +:+ NL +:+ blanks +:+ NL +:+ id2 +:+ NL in
  let w := withFile "k" content in
  JSON_parse blanks = None
  /\ readline content = [id1; blanks; id2]
  /\ (exists c, activeFile "k" (edit "k" target3 w).2 = Some c
                /\ readline c = [id1; EmptyString; id2])
  /\ (exists c, activeFile "k" (delete "k" target3 w).2 = Some c
                /\ readline c = [id1; EmptyString; id2]).
Proof. vm_compute. repeat split; eexists; split; reflexivity. Qed.

(** C8 on the file [{"id":1}], [oops], [{"id":1}]. *)
Lemma unparseable_line_is_copied_witness :
  let content := id1 +:+ NL +:+ "oops" +:+ NL +:+ id1 +:+ NL in
  let w := withFile "k" content in
  ((edit "k" target1 w).1 = Ok tt
   /\ activeFile "k" (edit "k" target1 w).2
      = Some ((id1_new +:+ NL) +:+ ("oops" +:+ NL) +:+ (id1_new +:+ NL)))
  /\ ((delete "k" target1 w).1 = Ok tt
      /\ activeFile "k" (delete "k" target1 w).2
         = Some (EmptyString +:+ ("oops" +:+ NL) +:+ EmptyString)).
Proof.
  exact (unparseable_line_is_copied (H := miniHost)
           (withFile "k" (id1 +:+ NL +:+ "oops" +:+ NL +:+ id1 +:+ NL)) "k" target1
           (id1 +:+ NL +:+ "oops" +:+ NL +:+ id1 +:+ NL) [id1] [id1] "oops"
           eq_refl eq_refl eq_refl (or_intror eq_refl)).
Defined.

(** C10 fails on the code: the line [null] parses and has no field [id],
    the target [{}] has none either, and neither [delete] nor [edit]
    touches the line.  Nor does the target [null] match the line
    [{"a":1}]. *)
Lemma null_line_counterexample :
  let content := "null" +:+ NL in
  let w := withFile "k" content in
  let w' := withFile "k" (a1 +:+ NL) in
  (JSON_parse "null" = Some Null
   /\ lacks_id (Null : value Z)
   /\ lacks_id target_no_id
   /\ matching target_no_id "null" = false
   /\ activeFile "k" (delete "k" target_no_id w).2 = Some content
   /\ activeFile "k" (edit "k" target_no_id w).2 = Some content)
  /\ (JSON_parse a1 = Some (Obj [("a", Num 1%Z)])
      /\ matching (Null : value Z) a1 = false
      /\ activeFile "k" (delete "k" Null w').2 = Some (a1 +:+ NL)).
Proof. vm_compute. repeat split. Qed.

(** The amended C10 on the file [{"a":1}], [{"id":2}], [7] and the target
    [{}]. *)
Lemma missing_id_matches_witness :
  let content := a1 +:+ NL +:+ id2 +:+ NL +:+ "7" +:+ NL in
  let w := withFile "k" content in
  (forall line parsed,
     JSON_parse line = Some parsed -> parsed <> Null -> lacks_id parsed ->
     matching target_no_id line = true
     /\ delete_line target_no_id line = EmptyString
     /\ edit_line target_no_id line = JSON_stringify target_no_id +:+ NL)
  /\ (exists content',
        activeFile "k" (delete "k" target_no_id w).2 = Some content'
        /\ forall line parsed,
             line ∈ readline content' ->
             JSON_parse line = Some parsed -> parsed <> Null -> ~ lacks_id parsed).
Proof.
  apply (missing_id_matches (H := miniHost)
           (withFile "k" (a1 +:+ NL +:+ id2 +:+ NL +:+ "7" +:+ NL)) "k" target_no_id
           (a1 +:+ NL +:+ id2 +:+ NL +:+ "7" +:+ NL)).
  - discriminate.
  - reflexivity.
  - reflexivity.
Defined.

End RewriteExamples.

(** * The promise chain: properties *)

Section SchedulerFacts.
Import Scheduler.

Lemma latest_snoc k cs c n found :
  latest k (cs ++ [c]) n found
  = if String.eqb (call_key c) k then Some (n + length cs) else latest k cs n found.
Proof.
  revert n found; induction cs as [|c' cs IH]; intros n found; cbn [app latest length].
  - rewrite Nat.add_0_r. reflexivity.
  - rewrite IH. replace (S n + length cs) with (n + S (length cs)) by lia. reflexivity.
Qed.

(** [latest] finds the last call for [k], if there is one. *)
Lemma latest_spec k cs :
  match latest k cs 0 None with
  | Some p =>
      (exists c, cs !! p = Some c /\ call_key c = k)
      /\ forall j c', p < j -> cs !! j = Some c' -> call_key c' <> k
  | None => forall j c', cs !! j = Some c' -> call_key c' <> k
  end.
Proof.
  induction cs as [|c cs IH] using rev_ind; [intros j c'; now rewrite lookup_nil|].
  rewrite latest_snoc. cbn [Nat.add].
  destruct (String.eqb_spec (call_key c) k) as [E|N].
  - split.
    + exists c. split; [|exact E]. now rewrite lookup_app_r, Nat.sub_diag by lia.
    + intros j c' L G. apply lookup_lt_Some in G. rewrite length_app in G. cbn in G. lia.
  - assert (forall j c', (cs ++ [c]) !! j = Some c' -> j < length cs \/ c' = c) as Split.
    { intros j c' G. destruct (decide (j < length cs)) as [L|L]; [now left|right].
      rewrite lookup_app_r in G by lia.
      destruct (j - length cs) as [|m]; cbn in G; [congruence | discriminate]. }
    destruct (latest k cs 0 None) as [p|].
    + destruct IH as [(c0 & L0 & K0) IH]. split.
      * exists c0. split; [|exact K0]. rewrite lookup_app_l; [exact L0|].
        now apply lookup_lt_Some in L0.
      * intros j c' L G. destruct (Split j c' G) as [B| ->]; [|exact N].
        rewrite lookup_app_l in G by exact B. now apply (IH j).
    + intros j c' G. destruct (Split j c' G) as [B| ->]; [|exact N].
      rewrite lookup_app_l in G by exact B. now apply (IH j).
Qed.

Lemma inv_init : inv init.
Proof.
  split; cbn; intros; try rewrite lookup_nil in *; try discriminate; auto.
Qed.

Lemma set_promise_eq p v f : set_promise p v f p = v.
Proof. unfold set_promise. now rewrite decide_True. Qed.

Lemma set_promise_ne p q v f : q <> p -> set_promise p v f q = f q.
Proof. intros N. unfold set_promise. now rewrite decide_False. Qed.

Lemma set_promise_settled p v f q :
  v <> Pending -> f q <> Pending -> set_promise p v f q <> Pending.
Proof. intros V F. unfold set_promise. now destruct (decide (q = p)). Qed.

Lemma set_task_eq i v f : set_task i v f i = v.
Proof. unfold set_task. now rewrite decide_True. Qed.

Lemma set_task_ne i j v f : j <> i -> set_task i v f j = f j.
Proof. intros N. unfold set_task. now rewrite decide_False. Qed.

Lemma inv_submit s k o s' : inv s -> step (Submit k o) s = Some s' -> inv s'.
Proof.
  intros I E. cbn in E. injection E as <-.
  pose proof (inv_queue s I k) as Q.
  split; cbn [queues calls settled task].
  - intros k'. rewrite latest_snoc. cbn [call_key Nat.add].
    destruct (String.eqb_spec k k') as [<-|N].
    + now rewrite lookup_insert_eq.
    + rewrite lookup_insert_ne by exact N. apply I.
  - intros i c L. unfold link. cbn [calls].
    destruct (decide (i < length (calls s))) as [B|B].
    + rewrite lookup_app_l in L by exact B.
      rewrite take_app_le by lia. now apply (inv_link s I).
    + apply lookup_lt_Some in L as B'. rewrite length_app in B'. cbn in B'.
      assert (i = length (calls s)) as -> by lia.
      rewrite lookup_app_r, Nat.sub_diag in L by lia. injection L as <-.
      rewrite take_app_length. cbn [call_key call_last].
      rewrite Q. now destruct (latest k (calls s) 0 None).
  - intros i c L R.
    destruct (decide (i < length (calls s))) as [B|B].
    + rewrite lookup_app_l in L by exact B.
      pose proof (inv_resolved s I i c L R) as F.
      destruct (queues s !! k); [exact F|].
      unfold set_promise. now destruct (decide _).
    + apply lookup_lt_Some in L as B'. rewrite length_app in B'. cbn in B'.
      assert (i = length (calls s)) as -> by lia.
      rewrite lookup_app_r, Nat.sub_diag in L by lia. injection L as <-.
      cbn [call_last] in R. rewrite Q in *.
      destruct (latest k (calls s) 0 None); [discriminate R|].
      apply set_promise_eq.
  - intros i c L.
    assert (forall q, settled s q <> Pending ->
              match queues s !! k with
              | Some _ => settled s
              | None => set_promise (Resolved (length (calls s))) Fulfilled (settled s)
              end q <> Pending) as Keep.
    { intros q. destruct (queues s !! k); [trivial|].
      now apply set_promise_settled. }
    assert (match queues s !! k with
            | Some _ => settled s
            | None => set_promise (Resolved (length (calls s))) Fulfilled (settled s)
            end (Caught i) = settled s (Caught i)) as ->.
    { destruct (queues s !! k); [reflexivity|]. now apply set_promise_ne. }
    destruct (decide (i < length (calls s))) as [B|B].
    + rewrite lookup_app_l in L by exact B.
      destruct (inv_caught s I i c L) as [C1 C2]. split; [exact C1|].
      intros F. apply Keep, C2, F.
    + destruct (inv_fresh s I i) as [C _]; [lia|]. rewrite C. split; discriminate.
  - intros i. rewrite length_app. cbn [length].
    assert (match queues s !! k with
            | Some _ => settled s
            | None => set_promise (Resolved (length (calls s))) Fulfilled (settled s)
            end (Caught i) = settled s (Caught i)) as ->.
    { destruct (queues s !! k); [reflexivity|]. now apply set_promise_ne. }
    assert (match queues s !! k with
            | Some _ => settled s
            | None => set_promise (Resolved (length (calls s))) Fulfilled (settled s)
            end (Next i) = settled s (Next i)) as ->.
    { destruct (queues s !! k); [reflexivity|]. now apply set_promise_ne. }
    pose proof (inv_task s I i) as T. destruct (task s i); intuition lia.
  - intros i. rewrite length_app. cbn [length]. intros B.
    assert (match queues s !! k with
            | Some _ => settled s
            | None => set_promise (Resolved (length (calls s))) Fulfilled (settled s)
            end (Caught i) = settled s (Caught i)) as ->.
    { destruct (queues s !! k); [reflexivity|]. now apply set_promise_ne. }
    apply (inv_fresh s I). lia.
Qed.

Lemma inv_catch s i s' : inv s -> step (Catch i) s = Some s' -> inv s'.
Proof.
  intros I E. cbn in E. destruct (calls s !! i) as [c|] eqn:L; [|discriminate].
  cbn in E. destruct (settled s (Caught i)) eqn:C; try discriminate.
  assert (settled s (call_last c) <> Pending
          /\ s' = {| queues := queues s; calls := calls s;
                     settled := set_promise (Caught i) Fulfilled (settled s);
                     task := task s |}) as [S ->].
  { destruct (settled s (call_last c)); [discriminate | |]; split; congruence. }
  clear E. split; cbn [queues calls settled task].
  - apply I.
  - intros j cj Lj. now apply (inv_link s I).
  - intros j cj Lj R. rewrite set_promise_ne by discriminate.
    now apply (inv_resolved s I j cj).
  - intros j cj Lj. destruct (inv_caught s I j cj Lj) as [C1 C2].
    destruct (decide (j = i)) as [->|N].
    + rewrite set_promise_eq. split; [discriminate|]. intros _.
      apply set_promise_settled; [discriminate|]. congruence.
    + rewrite (set_promise_ne _ (Caught j)) by congruence. split; [exact C1|].
      intros F. apply set_promise_settled; [discriminate | now apply C2].
  - intros j. rewrite (set_promise_ne _ (Next j)) by discriminate.
    pose proof (inv_task s I j) as T. destruct (task s j); [exact T | |].
    + destruct T as (T1 & T2 & T3). repeat split; [|assumption..].
      destruct (decide (j = i)) as [->|N];
        [apply set_promise_eq | now rewrite set_promise_ne by congruence].
    + destruct T as (T1 & T2 & T3). repeat split; [|assumption..].
      destruct (decide (j = i)) as [->|N];
        [apply set_promise_eq | now rewrite set_promise_ne by congruence].
  - intros j B. apply lookup_lt_Some in L.
    rewrite set_promise_ne by (intros [= ->]; lia). now apply (inv_fresh s I).
Qed.

Lemma inv_then s i s' : inv s -> step (Then i) s = Some s' -> inv s'.
Proof.
  intros I E. cbn in E. destruct (calls s !! i) as [c|] eqn:L; [|discriminate].
  cbn in E. destruct (task s i) eqn:T; try discriminate.
  destruct (settled s (Next i)) eqn:N; try discriminate.
  destruct (inv_caught s I i c L) as [C1 _].
  destruct (settled s (Caught i)) eqn:C; try discriminate; [|congruence].
  injection E as <-. apply lookup_lt_Some in L.
  split; cbn [queues calls settled task]; try apply I.
  - intros j. destruct (decide (j = i)) as [->|Nj].
    + rewrite set_task_eq. auto.
    + rewrite set_task_ne by exact Nj. apply (inv_task s I).
  - intros j B. rewrite set_task_ne by lia. now apply (inv_fresh s I).
Qed.

Lemma inv_settle s i ok s' : inv s -> step (Settle i ok) s = Some s' -> inv s'.
Proof.
  intros I E. cbn in E. pose proof (inv_task s I i) as T.
  destruct (task s i) eqn:Ti; try discriminate. injection E as <-.
  destruct T as (T1 & T2 & T3).
  assert ((if ok then Fulfilled else Rejected) <> Pending) as V by now destruct ok.
  split; cbn [queues calls settled task].
  - apply I.
  - intros j cj Lj. now apply (inv_link s I).
  - intros j cj Lj R. rewrite set_promise_ne by discriminate.
    now apply (inv_resolved s I j cj).
  - intros j cj Lj. destruct (inv_caught s I j cj Lj) as [C1 C2].
    rewrite (set_promise_ne _ (Caught j)) by discriminate. split; [exact C1|].
    intros F. apply set_promise_settled; [exact V | now apply C2].
  - intros j. rewrite (set_promise_ne _ (Caught j)) by discriminate.
    destruct (decide (j = i)) as [->|N].
    + rewrite set_task_eq, set_promise_eq. auto.
    + rewrite set_task_ne by exact N. rewrite set_promise_ne by congruence.
      apply (inv_task s I).
  - intros j B. rewrite set_promise_ne by discriminate.
    rewrite set_task_ne by lia. now apply (inv_fresh s I).
Qed.

Lemma inv_step e s s' : inv s -> step e s = Some s' -> inv s'.
Proof.
  destruct e; eauto using inv_submit, inv_catch, inv_then, inv_settle.
Qed.

Lemma inv_run es s s' : inv s -> run es s = Some s' -> inv s'.
Proof.
  revert s; induction es as [|e es IH]; intros s I R; cbn in R.
  - now injection R as <-.
  - destruct (step e s) as [s1|] eqn:E; [|discriminate]. cbn in R.
    eauto using inv_step.
Qed.

(** In a state that satisfies the invariant, a task that has started has
    every earlier task of its key behind it. *)
Lemma started_after_earlier s :
  inv s ->
  forall j i, i < j -> same_key s i j -> started s j -> finished s i.
Proof.
  intros I j. induction j as [j IH] using lt_wf_ind.
  intros i Lt (ci & cj & Li & Lj & K) St. unfold started in St.
  assert (settled s (Caught j) = Fulfilled) as C.
  { pose proof (inv_task s I j) as T. destruct (task s j); [congruence | apply T..]. }
  destruct (inv_caught s I j cj Lj) as [_ S]. specialize (S C).
  pose proof (inv_link s I j cj Lj) as Lk. unfold link in Lk.
  pose proof (latest_spec (call_key cj) (take j (calls s))) as Sp.
  destruct (latest (call_key cj) (take j (calls s)) 0 None) as [p|].
  - destruct Sp as [(cp & Lp & Kp) After].
    apply lookup_take_Some in Lp as [Lp Bp].
    assert (exists ok, task s p = Done ok) as [ok Dp].
    { rewrite Lk in S. pose proof (inv_task s I p) as T.
      destruct (task s p); [congruence | destruct T as (_ & T & _); congruence | eauto]. }
    destruct (Nat.lt_trichotomy i p) as [B|[->|B]].
    + apply (IH p Bp i B); [exists ci, cp; intuition congruence|].
      unfold started. congruence.
    + exists ok. exact Dp.
    + exfalso. apply (After i ci B); [|exact K].
      now rewrite lookup_take_lt.
  - exfalso. apply (Sp i ci); [|exact K]. now rewrite lookup_take_lt.
Qed.

(** A task that waits while every earlier task of its key has finished,
    well or not, is started by the reactions of its own call. *)
Lemma next_task_starts s j :
  inv s ->
  j < length (calls s) ->
  task s j = Waiting ->
  (forall i, i < j -> same_key s i j -> finished s i) ->
  exists es s',
    (es = [Then j] \/ es = [Catch j; Then j])
    /\ run es s = Some s' /\ task s' j = Running.
Proof.
  intros I B W Fin. apply lookup_lt_is_Some in B as [cj Lj].
  pose proof (inv_task s I j) as T. rewrite W in T.
  destruct (inv_caught s I j cj Lj) as [C1 _].
  destruct (settled s (Caught j)) eqn:C; [| |congruence].
  - assert (settled s (call_last cj) <> Pending) as S.
    { pose proof (inv_link s I j cj Lj) as Lk. unfold link in Lk.
      pose proof (latest_spec (call_key cj) (take j (calls s))) as Sp.
      destruct (latest (call_key cj) (take j (calls s)) 0 None) as [p|].
      - destruct Sp as [(cp & Lp & Kp) _].
        apply lookup_take_Some in Lp as [Lp Bp].
        destruct (Fin p Bp) as [ok Dp]; [exists cp, cj; auto|].
        pose proof (inv_task s I p) as Tp. rewrite Dp in Tp.
        rewrite Lk. destruct Tp as (_ & -> & _). now destruct ok.
      - rewrite Lk, (inv_resolved s I j cj Lj Lk). discriminate. }
    eexists [Catch j; Then j], _. split; [now right|].
    cbn [run step]. rewrite Lj. cbn [mbind option_bind]. rewrite C.
    assert (exists v, settled s (call_last cj) = v /\ v <> Pending) as (v & -> & V) by eauto.
    destruct v; [congruence | |];
      cbn [mbind option_bind calls task settled]; rewrite Lj; cbn [mbind option_bind];
      rewrite W, set_promise_eq, (set_promise_ne _ (Next j)), T by discriminate;
      cbn [mbind option_bind task]; (split; [reflexivity | apply set_task_eq]).
  - eexists [Then j], _. split; [now left|].
    cbn [run step]. rewrite Lj. cbn [mbind option_bind]. rewrite W, T, C.
    cbn [mbind option_bind task]. split; [reflexivity | apply set_task_eq].
Qed.

(** After the first task threw, the reactions of the second call start the
    second task. *)
Example failed_task_does_not_block :
  let s := reached (failing_first ++ [Catch 1; Then 1]) in
  task s 0 = Done false /\ settled s (Next 0) = Rejected /\ task s 1 = Running.
Proof. vm_compute. auto. Qed.

(** The second task cannot start while the first one runs. *)
Example second_task_waits :
  run [Submit "a" Append; Submit "a" Edit; Catch 0; Then 0; Catch 1] init = None
  /\ run [Submit "a" Append; Submit "a" Edit; Catch 0; Then 0; Then 1] init = None.
Proof. vm_compute. auto. Qed.

End SchedulerFacts.

(** * The cache of open handles: what holds and what does not *)

Section HandlesFacts.
Import Handles.

Lemma opening_uncached_step e s s' :
  opening_uncached s -> step e s = Some s' -> opening_uncached s'.
Proof.
  intros I E k. destruct e as [k0|k0|t|n]; cbn in E.
  - case_bool_decide as A; [discriminate|].
    destruct (fileStates s !! k0) as [st|] eqn:F; injection E as <-; cbn.
    + intros In. destruct (decide (k = k0)) as [->|N]; [contradiction|].
      rewrite lookup_insert_ne by congruence. now apply I.
    + intros [->|In]%elem_of_cons; [exact F | now apply I].
  - case_bool_decide as A; [|discriminate]. injection E as <-. cbn.
    intros [N In]%list_elem_of_filter.
    rewrite !lookup_insert_ne by congruence. now apply I.
  - destruct (timers s !! t) as [k1|]; [|discriminate]. injection E as <-. cbn.
    apply I.
  - destruct (closing s !! n) as [[k1 h]|]; [|discriminate]. injection E as <-. cbn.
    intros In. destruct (decide (k = k1)) as [->|N].
    + apply lookup_delete_eq.
    + rewrite lookup_delete_ne by congruence. now apply I.
Qed.

Lemma opening_uncached_run es s s' :
  opening_uncached s -> run es s = Some s' -> opening_uncached s'.
Proof.
  revert s; induction es as [|e es IH]; intros s I R; cbn in R.
  - now injection R as <-.
  - destruct (step e s) as [s1|] eqn:E; [|discriminate]. cbn in R.
    eauto using opening_uncached_step.
Qed.

Lemma closing_other_key (l : list (string * nat)) n k h k0 h0 :
  NoDup l.*1 -> l !! n = Some (k, h) ->
  (k0, h0) ∈ take n l ++ drop (S n) l -> k0 <> k.
Proof.
  intros N L In ->. rewrite <- (take_drop_middle l n (k, h) L) in N.
  rewrite fmap_app, fmap_cons in N. apply NoDup_app in N as (_ & N1 & N2).
  apply NoDup_cons in N2 as [N2 _]. apply elem_of_app in In as [In|In].
  - apply (N1 k); [|left]. apply list_elem_of_fmap. now exists (k, h0).
  - apply N2. apply list_elem_of_fmap. now exists (k, h0).
Qed.

Ltac fields :=
  unfold cached_only; cbn [fileStates opened timers acquiring closing Handles.fresh].

Lemma cached_only_step e s s' :
  opening_uncached s -> cached_only s -> calm e s -> step e s = Some s' ->
  cached_only s'.
Proof.
  intros U (J1 & J2 & J3) C E. destruct e as [k|k|t|n]; cbn in E.
  - case_bool_decide as A; [discriminate|].
    destruct (fileStates s !! k) as [st|] eqn:F; injection E as <-;
      [|now repeat split].
    unfold resetIdleTimer. fields.
    assert (forall k0 h0,
              (exists st0, fileStates s !! k0 = Some st0 /\ handle st0 = h0) ->
              exists st0,
                <[k := {| handle := handle st; timer := Some (Handles.fresh s) |}]>
                  (fileStates s) !! k0
                = Some st0 /\ handle st0 = h0) as Keep.
    { intros k0 h0 (st0 & F0 & H0). destruct (decide (k0 = k)) as [->|N].
      - rewrite lookup_insert_eq. eexists. split; [reflexivity|]. cbn. congruence.
      - rewrite lookup_insert_ne by congruence. eauto. }
    repeat split; [intros h0 k0 O; apply Keep, (J1 h0 k0 O)
                  | intros k0 h0 In; apply Keep, (J2 k0 h0 In) | exact J3].
  - case_bool_decide as A; [|discriminate]. injection E as <-.
    unfold resetIdleTimer. fields. cbn [handle].
    pose proof (U k A) as F.
    assert (forall k0 h0,
              (exists st0, fileStates s !! k0 = Some st0 /\ handle st0 = h0) ->
              exists st0,
                <[k := {| handle := Handles.fresh s; timer := Some (S (Handles.fresh s)) |}]>
                  (<[k := {| handle := Handles.fresh s; timer := None |}]> (fileStates s))
                  !! k0
                = Some st0 /\ handle st0 = h0) as Keep.
    { intros k0 h0 (st0 & F0 & H0). rewrite !lookup_insert_ne by congruence. eauto. }
    repeat split; [| intros k0 h0 In; apply Keep, (J2 k0 h0 In) | exact J3].
    intros h0 k0 O. destruct (decide (h0 = Handles.fresh s)) as [->|N].
    + rewrite lookup_insert_eq in O. injection O as <-.
      rewrite lookup_insert_eq. eauto.
    + rewrite lookup_insert_ne in O by congruence. apply Keep, (J1 h0 k0 O).
  - destruct (timers s !! t) as [k|] eqn:T; [|discriminate]. cbn in E, C.
    rewrite T in C. injection E as <-. fields. repeat split; [exact J1 | |].
    + intros k0 h0 In. destruct (fileStates s !! k) as [st|] eqn:F; [|now apply J2].
      apply elem_of_app in In as [In|In]; [now apply J2|].
      apply list_elem_of_singleton in In as [= -> ->]. eauto.
    + destruct (fileStates s !! k); [|exact J3].
      rewrite fmap_app. apply NoDup_app. repeat split; [exact J3 | | apply NoDup_singleton].
      intros k0 In0 ->%list_elem_of_singleton. contradiction.
  - destruct (closing s !! n) as [[k h]|] eqn:L; [|discriminate]. injection E as <-. fields.
    destruct (J2 k h) as (st & F & Hst); [eapply list_elem_of_lookup_2; exact L|].
    repeat split.
    + intros h0 k0 O. destruct (decide (h0 = h)) as [->|N].
      { now rewrite lookup_delete_eq in O. }
      rewrite lookup_delete_ne in O by congruence.
      destruct (J1 h0 k0 O) as (st0 & F0 & H0).
      rewrite lookup_delete_ne by congruence. eauto.
    + intros k0 h0 In. pose proof (closing_other_key _ _ _ _ _ _ J3 L In) as N.
      rewrite lookup_delete_ne by congruence. apply J2.
      apply elem_of_app in In as [In|In];
        [eapply subseteq_take | eapply subseteq_drop]; exact In.
    + rewrite <- (take_drop_middle _ n (k, h) L) in J3.
      rewrite fmap_app, fmap_cons in J3. rewrite fmap_app.
      apply NoDup_app in J3 as (N1 & N2 & N3). apply NoDup_cons in N3 as [_ N3].
      apply NoDup_app. repeat split; [exact N1 | | exact N3].
      intros x In1 In2. apply (N2 x In1). now right.
Qed.

(** X24. When calls of [closeFile] for one key never overlap, at most one
    handle is open for a key in every state that is reached. *)
Lemma one_handle_without_overlap es s :
  calm_run es init -> run es init = Some s ->
  forall h h' k, opened s !! h = Some k -> opened s !! h' = Some k -> h = h'.
Proof.
  assert (forall es s0 s,
            opening_uncached s0 -> cached_only s0 -> calm_run es s0 ->
            run es s0 = Some s -> cached_only s) as Run.
  { clear. induction es as [|e es IH]; intros s0 s U J C R; cbn in R, C.
    - now injection R as <-.
    - destruct C as [C1 C2]. destruct (step e s0) as [s1|] eqn:E; [|discriminate].
      cbn in R. eapply IH; [| |exact C2|exact R];
        eauto using opening_uncached_step, cached_only_step. }
  intros C R h h' k O O'.
  destruct (Run es init s) as (J1 & _); [| |exact C|exact R|].
  - intros k0 In. now apply elem_of_nil in In.
  - repeat split; cbn; [intros h0 k0 O0; now rewrite lookup_empty in O0
                       | intros k0 h0 In; now apply elem_of_nil in In | constructor].
  - destruct (J1 h k O) as (st & F & <-). destruct (J1 h' k O') as (st' & F' & <-).
    congruence.
Qed.

(** The timer of an entry fires while no [closeFile] is suspended, and the
    close returns: the handle is closed and the entry has left the cache. *)
Lemma idle_close_evicts s t k st :
  timers s !! t = Some k -> fileStates s !! k = Some st ->
  exists s',
    run [Fire t; Closed (length (closing s))] s = Some s'
    /\ fileStates s' !! k = None /\ opened s' !! handle st = None.
Proof.
  intros T F. eexists. cbn [run step]. rewrite T. cbn [mbind option_bind].
  rewrite F. cbn [closing]. rewrite lookup_app_r, Nat.sub_diag by lia.
  cbn. split; [reflexivity|]. split; apply lookup_delete_eq.
Qed.

(** X25. In every state that is reached, [fs.open] returns to
    [getFileHandle] only while the cache has no entry for the key: a handle
    is never opened for a key that has a cached one. *)
Lemma opened_only_when_uncached es s k s' :
  run es init = Some s -> step (Opened k) s = Some s' -> fileStates s !! k = None.
Proof.
  intros R E. cbn in E. case_bool_decide as A; [|discriminate].
  eapply opening_uncached_run; [|exact R|exact A].
  intros k0 In. cbn in In. now apply elem_of_nil in In.
Qed.

(** C9 fails on the code: after [overlapping_closes] the handles 3 and 5
    are both open for the key ["k"]. *)
Lemma two_handles_open_for_one_key :
  exists s,
    run overlapping_closes init = Some s
    /\ opened s !! 3 = Some "k"
    /\ opened s !! 5 = Some "k"
    /\ length (open_for "k" s) = 2
    /\ fileStates s !! "k" = Some {| handle := 5; timer := Some 6 |}
    /\ closing s = [] /\ acquiring s = [].
Proof. eexists. split; [vm_compute; reflexivity|]. vm_compute. auto 7. Qed.

End HandlesFacts.

(** * Further properties of the writer and of finalize *)

(** ** The cache of the sequential writer *)

Section MoreWriterFacts.
Context `{Host}.
Import Text FileWriter TextFacts.

Lemma append_uncached id line w :
  fileStates (writer w) !! id = None ->
  baseDir (writer (append id line w).2) = baseDir (writer w)
  /\ holds id (append id line w).2
       (default EmptyString (activeFile id w) +:+ line +:+ NL).
Proof.
  intros N. unfold append, getFileHandle. rewrite N.
  unfold openAppend, activeFile, readFile.
  destruct (names (disk w) !! filePath (writer w) id) as [i|] eqn:E.
  - cbn. split; [reflexivity|]. exists i. unfold filePath in *. cbn.
    rewrite lookup_insert_eq. rewrite E. rewrite lookup_insert_eq. 
    repeat split.
  - cbn. split; [reflexivity|]. exists (next (disk w)). unfold filePath in *. cbn.
    rewrite !lookup_insert_eq. repeat split.
Qed.


Lemma closeFile_spec id w :
  disk (closeFile id w) = disk w
  /\ baseDir (writer (closeFile id w)) = baseDir (writer w)
  /\ fileStates (writer (closeFile id w)) = base.delete id (fileStates (writer w)).
Proof.
  unfold closeFile. destruct (fileStates (writer w) !! id) eqn:E; cbn.
  - auto.
  - repeat split. symmetry. now apply delete_id.
Qed.

Lemma closeFile_fold (keys : list string) w :
  let w' := fold_left (fun w id => closeFile id w) keys w in
  disk w' = disk w
  /\ baseDir (writer w') = baseDir (writer w)
  /\ forall k : string, fileStates (writer w') !! k
       = if decide (k ∈ keys) then None else fileStates (writer w) !! k.
Proof.
  revert w. induction keys as [|id keys IH]; intros w; cbn.
  - repeat split.
  - destruct (IH (closeFile id w)) as (D & B & L).
    destruct (closeFile_spec id w) as (D' & B' & L').
    split; [congruence|]. split; [congruence|].
    intros k. rewrite L, L'.
    destruct (decide (k ∈ keys)) as [I|I], (decide (k ∈ id :: keys)) as [J|J];
      try reflexivity.
    + exfalso. apply J. now right.
    + apply elem_of_cons in J as [->|J]; [|contradiction].
      apply lookup_delete_eq.
    + apply lookup_delete_ne. intros ->. apply J. now left.
Qed.

Lemma closeAll_spec w :
  disk (closeAll w) = disk w
  /\ baseDir (writer (closeAll w)) = baseDir (writer w)
  /\ fileStates (writer (closeAll w)) = ∅.
Proof.
  unfold closeAll.
  destruct (closeFile_fold (map_to_list (fileStates (writer w))).*1 w) as (D & B & L).
  split; [exact D|]. split; [exact B|].
  apply map_eq. intros k. rewrite L, lookup_empty.
  destruct (decide (k ∈ (map_to_list (fileStates (writer w))).*1)) as [I|I];
    [reflexivity|].
  destruct (fileStates (writer w) !! k) as [h|] eqn:E; [|reflexivity].
  exfalso. apply I. apply list_elem_of_fmap. exists (k, h). split; [reflexivity|].
  now apply elem_of_map_to_list.
Qed.

Lemma append_reopened id line w w' c :
  holds id w c ->
  disk w' = disk w ->
  baseDir (writer w') = baseDir (writer w) ->
  fileStates (writer w') !! id = None ->
  activeFile id (append id line w').2 = Some (c +:+ line +:+ NL).
Proof.
  intros (h & _ & N & D) Dk B F.
  destruct (append_uncached id line w' F) as (_ & Hd).
  apply holds_activeFile in Hd. rewrite Hd. f_equal. f_equal.
  unfold activeFile, readFile, filePath in *. rewrite Dk, B, N. cbn. now rewrite D.
Qed.

(** The key has a cached handle on its active file, whose content is [c],
    or no cached handle and an active file whose content is [c] (no file
    when [c] is empty). *)
Lemma runActions_content id (acts : list action) w c :
  holds id w c
  \/ (fileStates (writer w) !! id = None /\ default EmptyString (activeFile id w) = c) ->
  (holds id (runActions id acts w) (c +:+ concat (map (fun x => x +:+ NL) (appended acts)))
   \/ (fileStates (writer (runActions id acts w)) !! id = None
       /\ default EmptyString (activeFile id (runActions id acts w))
          = c +:+ concat (map (fun x => x +:+ NL) (appended acts))))
  /\ (activeFile id w <> None \/ appended acts <> [] ->
      activeFile id (runActions id acts w) <> None).
Proof.
  revert w c. induction acts as [|a acts IH]; intros w c S.
  - cbn. rewrite append_empty. split; [exact S|]. intros [E|E]; [exact E | congruence].
  - change (runActions id (a :: acts) w) with (runActions id acts (act id a w)).
    destruct a as [line|].
    + assert (Hd : holds id (act id (AppendTask line) w) (c +:+ line +:+ NL)).
      { destruct S as [Hd|(N & <-)].
        - now apply append_holds.
        - now apply append_uncached. }
      destruct (IH _ _ (or_introl Hd)) as (C & E).
      change (appended (AppendTask line :: acts)) with (line :: appended acts).
      assert (Eq : c +:+ concat (map (fun x => x +:+ NL) (line :: appended acts))
                   = (c +:+ line +:+ NL)
                     +:+ concat (map (fun x => x +:+ NL) (appended acts))).
      { cbn [map concat]. now rewrite !append_assoc. }
      rewrite Eq. split; [exact C|].
      intros _. apply E. left. apply holds_activeFile in Hd. congruence.
    + destruct (closeFile_spec id w) as (D & B & F).
      assert (A : activeFile id (act id IdleClose w) = activeFile id w).
      { unfold activeFile, filePath. cbn [act]. now rewrite D, B. }
      assert (S' : holds id (act id IdleClose w) c
                   \/ (fileStates (writer (act id IdleClose w)) !! id = None
                       /\ default EmptyString (activeFile id (act id IdleClose w)) = c)).
      { right. split; [cbn [act]; rewrite F; apply lookup_delete_eq|].
        rewrite A. destruct S as [Hd|(_ & S)]; [|exact S].
        apply holds_activeFile in Hd. now rewrite Hd. }
      destruct (IH _ _ S') as (C & E).
      change (appended (IdleClose :: acts)) with (appended acts).
      split; [exact C|]. intros X. apply E. rewrite A. exact X.
Qed.

End MoreWriterFacts.

Section WriterProperties.
Context `{Host}.
Import Text FileWriter TextFacts.

(** X1. In a run in which the tasks of the appends of a key and the idle
    closes of its handle each run to their end, one after the other (no
    task meets a handle that [closeFile] is closing), starting with no
    cached handle: the active file holds what it held before (nothing when
    it did not exist) followed by every appended text with a line feed, in
    the order of the calls, wherever the idle closes fall between them; it
    exists once a text was appended; and on a key with no file before, and
    texts without line breaks, a line reader gets the texts back in
    order. *)
Theorem appends_land_in_order (w : World) (id : string) (acts : list action) :
  fileStates (writer w) !! id = None ->
  let w' := runActions id acts w in
  default EmptyString (activeFile id w')
  = default EmptyString (activeFile id w)
    +:+ concat (map (fun x => x +:+ NL) (appended acts))
  /\ (appended acts <> [] -> activeFile id w' <> None)
  /\ (activeFile id w = None ->
      Forall (fun x => noBreak x = true) (appended acts) ->
      readline (default EmptyString (activeFile id w')) = appended acts).
Proof.
  intros N w'.
  destruct (runActions_content id acts w (default EmptyString (activeFile id w)))
    as (C & E); [right; auto|].
  fold w' in C, E.
  assert (A : default EmptyString (activeFile id w')
              = default EmptyString (activeFile id w)
                +:+ concat (map (fun x => x +:+ NL) (appended acts))).
  { destruct C as [Hd|(_ & C)]; [|exact C].
    apply holds_activeFile in Hd. now rewrite Hd. }
  split; [exact A|]. split; [intros Ne; apply E; now right|].
  intros F B. rewrite A, F. cbn [default]. change (EmptyString +:+ ?x) with x.
  now apply readline_lines.
Qed.

(** X2. When the idle timer closes the handle of a key, the active file
    keeps its content, and the next append reopens it and writes after that
    content: nothing is truncated. *)
Theorem idle_close_keeps_content (w : World) (id l c : string) :
  holds id w c ->
  let w1 := closeFile id w in
  fileStates (writer w1) !! id = None
  /\ activeFile id w1 = Some c
  /\ activeFile id (append id l w1).2 = Some (c +:+ l +:+ NL).
Proof.
  intros Hd w1. destruct (closeFile_spec id w) as (D & B & F).
  assert (N : fileStates (writer w1) !! id = None).
  { subst w1. rewrite F. apply lookup_delete_eq. }
  split; [exact N|]. split.
  - apply holds_activeFile in Hd. rewrite <- Hd.
    unfold activeFile, filePath. subst w1. now rewrite D, B.
  - now apply (append_reopened id l w w1 c).
Qed.

(** X3. [closeAll] empties the handle cache and writes nothing; whatever
    key had a handle, its next append reopens the file and writes after the
    content it had. *)
Theorem closeAll_closes_every_handle (w : World) :
  fileStates (writer (closeAll w)) = ∅
  /\ disk (closeAll w) = disk w
  /\ baseDir (writer (closeAll w)) = baseDir (writer w)
  /\ forall id l c, holds id w c ->
       activeFile id (append id l (closeAll w)).2 = Some (c +:+ l +:+ NL).
Proof.
  destruct (closeAll_spec w) as (D & B & F).
  repeat split; try assumption.
  intros id l c Hd. apply (append_reopened id l w (closeAll w) c Hd D B).
  rewrite F. apply lookup_empty.
Qed.

End WriterProperties.

Lemma appends_land_in_order_witness :
  let w := Sample.withFile "k" ("x" +:+ Text.NL) in
  let acts := [FileWriter.AppendTask "y"; FileWriter.IdleClose; FileWriter.AppendTask "z"] in
  let w' := FileWriter.runActions "k" acts w in
  default EmptyString (FileWriter.activeFile "k" w')
  = ("x" +:+ Text.NL) +:+ Text.concat (map (fun x => x +:+ Text.NL) ["y"; "z"])
  /\ (FileWriter.appended acts <> [] -> FileWriter.activeFile "k" w' <> None)
  /\ (FileWriter.activeFile "k" w = None ->
      Forall (fun x => Text.noBreak x = true) (FileWriter.appended acts) ->
      Text.readline (default EmptyString (FileWriter.activeFile "k" w'))
      = FileWriter.appended acts).
Proof.
  apply (appends_land_in_order
           (Sample.withFile "k" ("x" +:+ Text.NL)) "k"
           [FileWriter.AppendTask "y"; FileWriter.IdleClose; FileWriter.AppendTask "z"]).
  reflexivity.
Defined.

Lemma idle_close_keeps_content_witness :
  let w := (FileWriter.append "k" "x" Sample.w0).2 in
  let w1 := FileWriter.closeFile "k" w in
  fileStates (writer w1) !! "k" = None
  /\ FileWriter.activeFile "k" w1 = Some ("x" +:+ Text.NL)
  /\ FileWriter.activeFile "k" (FileWriter.append "k" "y" w1).2
     = Some (("x" +:+ Text.NL) +:+ "y" +:+ Text.NL).
Proof.
  apply (idle_close_keeps_content
           (FileWriter.append "k" "x" Sample.w0).2 "k" "y" ("x" +:+ Text.NL)).
  exists 0. repeat split; vm_compute; reflexivity.
Defined.

(** ** Files and their names *)

Section MoreDiskFacts.

(** Writing a temporary file and renaming it over [file] leaves [file] on an
    inode that no path had but the temporary one, and touches no other
    inode. *)
Lemma replace_file temp file written d :
  wellFormed d -> temp <> file ->
  let d' := rename temp file (writeFile temp written d) in
  exists i,
    names d' = <[file := i]> (base.delete temp (names d))
    /\ data d' = <[i := written]> (data d)
    /\ (forall p, names d !! p = Some i -> p = temp).
Proof.
  intros (B & I) Ne d'. subst d'. unfold writeFile.
  destruct (names d !! temp) as [i|] eqn:E.
  - exists i. unfold rename. cbn. rewrite E. cbn. repeat split.
    intros p P. now apply (I p temp i).
  - exists (next d). unfold rename. cbn. rewrite lookup_insert_eq. cbn.
    rewrite delete_insert_eq. repeat split.
    intros p P. apply B in P. lia.
Qed.

Lemma replace_file_frame temp file written d p :
  wellFormed d -> temp <> file -> p <> temp -> p <> file ->
  readFile p (rename temp file (writeFile temp written d)) = readFile p d.
Proof.
  intros W Ne Pt Pf.
  destruct (replace_file temp file written d W Ne) as (i & N & D & U).
  unfold readFile. rewrite N, D.
  rewrite lookup_insert_ne by congruence. rewrite lookup_delete_ne by congruence.
  destruct (names d !! p) as [j|] eqn:E; [|reflexivity]. cbn.
  rewrite lookup_insert_ne; [reflexivity|]. intros ->. now apply U in E.
Qed.

(** Two texts that end with different characters differ. *)
Lemma last_char_ne (a b : string) (c c' : ascii) :
  c <> c' -> a +:+ String c EmptyString <> b +:+ String c' EmptyString.
Proof.
  intros Ne. revert b. induction a as [|x a IH]; intros [|y b]; cbn; intros E.
  - congruence.
  - destruct b; discriminate.
  - destruct a; discriminate.
  - injection E as _ E. now apply IH in E.
Qed.

Lemma path_join_last dir name c :
  exists z, path_join dir (name +:+ String c EmptyString) = z +:+ String c EmptyString.
Proof.
  unfold path_join.
  destruct (name +:+ String c EmptyString) as [|x r] eqn:E.
  - destruct name; discriminate.
  - rewrite <- E. destruct (Ascii.eqb x "/").
    + exists (dir +:+ name). now rewrite TextFacts.append_assoc.
    + exists (dir +:+ "/" +:+ name). now rewrite !TextFacts.append_assoc.
Qed.


Lemma wellFormed_empty : wellFormed emptyDisk.
Proof. split; intros *; cbn; rewrite lookup_empty; discriminate. Qed.

Lemma wellFormed_fresh p s d :
  wellFormed d -> names d !! p = None ->
  wellFormed {| names := <[p := next d]> (names d);
                data := <[next d := s]> (data d);
                next := S (next d) |}.
Proof.
  intros (B & I) N. split; cbn.
  - intros q i. destruct (decide (q = p)) as [->|Ne].
    + rewrite lookup_insert_eq. intros [= <-]. lia.
    + rewrite lookup_insert_ne by congruence. intros Q. apply B in Q. lia.
  - intros q q' i. destruct (decide (q = p)) as [->|Ne], (decide (q' = p)) as [->|Ne'];
      rewrite ?lookup_insert_eq, ?lookup_insert_ne by congruence; try congruence.
    + intros [= <-] Q. apply B in Q. lia.
    + intros Q [= <-]. apply B in Q. lia.
    + apply I.
Qed.

Lemma wellFormed_writeFile p s d : wellFormed d -> wellFormed (writeFile p s d).
Proof.
  intros W. unfold writeFile. destruct (names d !! p) eqn:E.
  - exact W.
  - now apply wellFormed_fresh.
Qed.

Lemma wellFormed_openAppend p d : wellFormed d -> wellFormed (openAppend p d).2.
Proof.
  intros W. unfold openAppend, create. destruct (names d !! p) eqn:E; cbn.
  - exact W.
  - now apply wellFormed_fresh.
Qed.

Lemma wellFormed_appendFile i s d : wellFormed d -> wellFormed (appendFile i s d).
Proof. intros W. exact W. Qed.

Lemma wellFormed_unlink p d : wellFormed d -> wellFormed (unlink p d).
Proof.
  intros (B & I). split; cbn.
  - intros q i Q. apply lookup_delete_Some in Q as (_ & Q). now apply B in Q.
  - intros q q' i Q Q'. apply lookup_delete_Some in Q as (_ & Q).
    apply lookup_delete_Some in Q' as (_ & Q'). now apply (I q q' i).
Qed.

Lemma wellFormed_rename from to d : wellFormed d -> wellFormed (rename from to d).
Proof.
  intros (B & I). unfold rename. destruct (names d !! from) as [i|] eqn:E;
    [ | now split ].
  assert (K : forall q j, <[to := i]> (base.delete from (names d)) !! q = Some j ->
                          (q = to /\ j = i) \/ (q <> from /\ names d !! q = Some j)).
  { intros q j. destruct (decide (q = to)) as [->|Ne].
    - rewrite lookup_insert_eq. intros [= <-]. now left.
    - rewrite lookup_insert_ne by congruence. intros Q.
      apply lookup_delete_Some in Q as (Q1 & Q2). right. split; congruence. }
  split; cbn.
  - intros q j Q. apply K in Q as [(_ & ->)|(_ & Q)]; eapply B; eassumption.
  - intros q q' j Q Q'.
    apply K in Q as [(-> & ->)|(Nq & Q)]; apply K in Q' as [(-> & E')|(Nq' & Q')];
      try reflexivity.
    + subst. exfalso. apply Nq'. now apply (I q' from i).
    + subst. exfalso. apply Nq. now apply (I q from i).
    + now apply (I q q' j).
Qed.

End MoreDiskFacts.

Section MorePathFacts.
Context `{Host}.
Import FileWriter.

Lemma filePath_last wr id : exists z, filePath wr id = z +:+ "l".
Proof.
  unfold filePath.
  destruct (path_join_last (baseDir wr) (id +:+ ".json") "l") as (z & E).
  exists z. rewrite <- E. f_equal. now rewrite TextFacts.append_assoc.
Qed.

Lemma tempPath_last wr id : exists z, tempPath wr id = z +:+ "p".
Proof.
  unfold tempPath. exists (filePath wr id +:+ ".tm").
  now rewrite TextFacts.append_assoc.
Qed.

Lemma outputPath_last id : exists z, outputPath id = z +:+ "n".
Proof.
  unfold outputPath.
  destruct (path_join_last (path_join cwd "/transcripts/complete") (id +:+ ".jso") "n")
    as (z & E).
  exists z. rewrite <- E. f_equal. now rewrite TextFacts.append_assoc.
Qed.

Lemma tempPath_filePath_any wr id id' : tempPath wr id <> filePath wr id'.
Proof.
  destruct (tempPath_last wr id) as (a & ->), (filePath_last wr id') as (b & ->).
  now apply last_char_ne.
Qed.

Lemma filePath_outputPath wr id id' : filePath wr id <> outputPath id'.
Proof.
  destruct (filePath_last wr id) as (a & ->), (outputPath_last id') as (b & ->).
  now apply last_char_ne.
Qed.

Lemma tempPath_outputPath wr id id' : tempPath wr id <> outputPath id'.
Proof.
  destruct (tempPath_last wr id) as (a & ->), (outputPath_last id') as (b & ->).
  now apply last_char_ne.
Qed.

Lemma append_cancel_l (a x y : string) : a +:+ x = a +:+ y -> x = y.
Proof. induction a as [|c a IH]; cbn; [auto|]. intros [= E]. auto. Qed.

Lemma append_cancel_r (x y z : string) : x +:+ z = y +:+ z -> x = y.
Proof.
  revert y. induction x as [|c x IH]; intros [|c' y] E; cbn in E.
  - reflexivity.
  - apply (f_equal String.length) in E. cbn in E. rewrite length_append in E. lia.
  - apply (f_equal String.length) in E. cbn in E. rewrite length_append in E. lia.
  - injection E as -> E. f_equal. now apply IH.
Qed.

Lemma filePath_plain wr id :
  plain id = true -> filePath wr id = baseDir wr +:+ "/" +:+ id +:+ ".jsonl".
Proof.
  unfold filePath, path_join. destruct id as [|c id]; cbn; [reflexivity|].
  intros P. apply andb_true_iff in P as (P & _). apply negb_true_iff in P.
  now rewrite P.
Qed.

(** Two keys without a separator that differ have two active files. *)
Lemma filePath_plain_inj wr id id' :
  plain id' = true -> plain id = true -> filePath wr id' = filePath wr id -> id' = id.
Proof.
  intros P' P E. rewrite (filePath_plain wr id' P'), (filePath_plain wr id P) in E.
  apply append_cancel_l in E. apply (append_cancel_l "/") in E.
  now apply append_cancel_r in E.
Qed.

End MorePathFacts.

(** ** A cached handle after a rewrite or a finalize *)

Section StaleHandle.
Context `{Host}.
Import Text FileWriter TextFacts.

Lemma append_after_rewrite turn id l w c :
  wellFormed (disk w) ->
  holds id w c ->
  let w1 := (rewrite turn id w).2 in
  activeFile id w1 = Some (concat (map turn (readline c)))
  /\ activeFile id (append id l w1).2 = activeFile id w1
  /\ activeFile id (append id l (closeFile id w1)).2
     = Some (concat (map turn (readline c)) +:+ l +:+ NL).
Proof.
  intros W Hd w1.
  pose proof (holds_activeFile id w c Hd) as A.
  destruct (rewrite_present turn id w c A) as (_ & Wr & A1 & _).
  fold w1 in Wr, A1. split; [exact A1|].
  destruct Hd as (h & F & N & D). split.
  - unfold append, getFileHandle. rewrite Wr, F. cbn.
    unfold activeFile, readFile, appendFile. cbn. rewrite Wr.
    subst w1. unfold rewrite. fold (activeFile id w). rewrite A. cbn.
    destruct (replace_file (tempPath (writer w) id) (filePath (writer w) id)
                (rewrite_loop turn (readline c)) (disk w) W
                (tempPath_filePath (writer w) id)) as (i & Nm & Dt & U).
    rewrite Nm, Dt. rewrite lookup_insert_eq. cbn.
    assert (i <> h).
    { intros ->. apply U in N. symmetry in N. now apply tempPath_filePath in N. }
    now rewrite (lookup_insert_ne _ h i) by congruence.
  - destruct (closeFile_spec id w1) as (Dk & B & Fs).
    assert (N' : fileStates (writer (closeFile id w1)) !! id = None).
    { rewrite Fs. apply lookup_delete_eq. }
    destruct (append_uncached id l _ N') as (_ & Hd).
    apply holds_activeFile in Hd. rewrite Hd. do 2 f_equal.
    unfold activeFile, filePath in *. rewrite Dk, B. now rewrite A1.
Qed.

(** X4. A handle cached before [edit] or [delete] still writes to the file
    that the rename replaced: an append that uses it changes nothing in the
    active file, so the appended record is lost.  Once the handle is closed
    (idle timeout), the next append reopens the path and lands after the
    rewritten lines. *)
Theorem append_after_rewrite_misses_the_file (w : World) (id l c : string)
    (obj : value number) :
  wellFormed (disk w) ->
  holds id w c ->
  (let w1 := (edit id obj w).2 in
   activeFile id w1 = Some (concat (map (edit_line obj) (readline c)))
   /\ activeFile id (append id l w1).2 = activeFile id w1
   /\ activeFile id (append id l (closeFile id w1)).2
      = Some (concat (map (edit_line obj) (readline c)) +:+ l +:+ NL))
  /\ (let w1 := (delete id obj w).2 in
      activeFile id w1 = Some (concat (map (delete_line obj) (readline c)))
      /\ activeFile id (append id l w1).2 = activeFile id w1
      /\ activeFile id (append id l (closeFile id w1)).2
         = Some (concat (map (delete_line obj) (readline c)) +:+ l +:+ NL)).
Proof.
  intros W Hd. split.
  - exact (append_after_rewrite (edit_line obj) id l w c W Hd).
  - exact (append_after_rewrite (delete_line obj) id l w c W Hd).
Qed.

(** X5. A handle cached before [finishTranscript] still writes to the
    unlinked active file: an append that uses it creates no active file and
    leaves the finished document as it is, so the appended record is
    lost. *)
Theorem append_after_finalize_is_lost (w : World) (id l c : string)
    (metadata : jsval) :
  baseDir (writer w) = baseDir new_default ->
  wellFormed (disk w) ->
  holds id w c ->
  (finishTranscript id metadata (disk w)).1 = Ok tt ->
  let r := finishTranscript id metadata (disk w) in
  let w2 := (append id l {| writer := writer w; disk := r.2 |}).2 in
  activeFile id w2 = None
  /\ readFile (outputPath id) (disk w2) = readFile (outputPath id) r.2
  /\ readFile (outputPath id) r.2 <> None.
Proof.
  intros Bd (Bn & Inj) Hd Okr r w2.
  pose proof (holds_activeFile id w c Hd) as A.
  rewrite (activeFile_inputPath id w Bd) in A.
  pose proof (finishTranscript_eq id metadata (disk w) c A) as E.
  fold r in E. subst r. rewrite E in Okr.
  destruct (finishText (default (Obj []) metadata) c) as [[m msgs]|e];
    [|discriminate].
  destruct Hd as (h & F & N & D).
  assert (P : filePath (writer w) id = inputPath id).
  { unfold filePath, inputPath. now rewrite Bd. }
  subst w2. rewrite E. unfold append, getFileHandle. cbn. rewrite F. cbn.
  unfold activeFile, readFile. cbn. rewrite P.
  rewrite lookup_delete_eq. split; [reflexivity|].
  rewrite lookup_delete_ne by apply inputPath_outputPath.
  unfold writeFile.
  destruct (names (disk w) !! outputPath id) as [j|] eqn:O; cbn.
  - rewrite O. cbn. rewrite lookup_insert_eq.
    assert (j <> h).
    { intros ->. rewrite P in N.
      now apply (inputPath_outputPath id id), (Inj _ _ h). }
    rewrite lookup_insert_ne by congruence. rewrite lookup_insert_eq. split; congruence.
  - rewrite lookup_insert_eq. cbn. rewrite lookup_insert_eq.
    assert (next (disk w) <> h) by (apply Bn in N; lia).
    rewrite lookup_insert_ne by congruence. rewrite lookup_insert_eq. split; congruence.
Qed.

Lemma rewrite_frame turn id w :
  wellFormed (disk w) ->
  let w' := (rewrite turn id w).2 in
  writer w' = writer w
  /\ (forall id', filePath (writer w) id' <> filePath (writer w) id ->
                  activeFile id' w' = activeFile id' w)
  /\ (forall id', readFile (outputPath id') (disk w') = readFile (outputPath id') (disk w)).
Proof.
  intros W w'. subst w'.
  unfold rewrite. destruct (readFile (filePath (writer w) id) (disk w)) as [content|];
    cbn; [|repeat split].
  split; [reflexivity|]. split.
  - intros id' Ne. unfold activeFile. cbn.
    apply replace_file_frame; try assumption.
    + apply tempPath_filePath.
    + intros E. symmetry in E. now apply tempPath_filePath_any in E.
  - intros id'. apply replace_file_frame; try assumption.
    + apply tempPath_filePath.
    + intros E. symmetry in E. now apply tempPath_outputPath in E.
    + intros E. symmetry in E. now apply filePath_outputPath in E.
Qed.

(** X6. [edit] and [delete] on a key without a separator leave the cache
    of handles, the active file of every other key without a separator, and
    every finished document as they were. *)
Theorem rewrite_touches_no_other_file (w : World) (id : string)
    (obj : value number) :
  wellFormed (disk w) ->
  plain id = true ->
  (let w' := (edit id obj w).2 in
   writer w' = writer w
   /\ (forall id', plain id' = true -> id' <> id ->
                   activeFile id' w' = activeFile id' w)
   /\ (forall id', readFile (outputPath id') (disk w')
                   = readFile (outputPath id') (disk w)))
  /\ (let w' := (delete id obj w).2 in
      writer w' = writer w
      /\ (forall id', plain id' = true -> id' <> id ->
                      activeFile id' w' = activeFile id' w)
      /\ (forall id', readFile (outputPath id') (disk w')
                      = readFile (outputPath id') (disk w))).
Proof.
  intros W P.
  assert (Fr : forall turn,
            let w' := (rewrite turn id w).2 in
            writer w' = writer w
            /\ (forall id', plain id' = true -> id' <> id ->
                            activeFile id' w' = activeFile id' w)
            /\ (forall id', readFile (outputPath id') (disk w')
                            = readFile (outputPath id') (disk w))).
  { intros turn. destruct (rewrite_frame turn id w W) as (Wr & Act & Doc).
    split; [exact Wr|]. split; [|exact Doc].
    intros id' P' Ne. apply Act. intros E. apply Ne.
    now apply (filePath_plain_inj (writer w)). }
  split.
  - exact (Fr (edit_line obj)).
  - exact (Fr (delete_line obj)).
Qed.

(** X7. Whatever the keys and the directory of the writer, the temporary
    file of a rewrite is no key's active file, and neither an active file
    nor a temporary file is a finished document. *)
Theorem file_names_never_collide (wr : Writer) (id id' : string) :
  tempPath wr id <> filePath wr id'
  /\ filePath wr id <> outputPath id'
  /\ tempPath wr id <> outputPath id'.
Proof.
  split; [apply tempPath_filePath_any|].
  split; [apply filePath_outputPath | apply tempPath_outputPath].
Qed.

End StaleHandle.

Section WellFormedWorlds.
Context `{Host}.
Import FileWriter.

Lemma wellFormed_append id l w :
  wellFormed (disk w) -> wellFormed (disk (append id l w).2).
Proof.
  intros W. unfold append, getFileHandle.
  destruct (fileStates (writer w) !! id); cbn.
  - exact W.
  - pose proof (wellFormed_openAppend (filePath (writer w) id) (disk w) W) as W'.
    destruct (openAppend (filePath (writer w) id) (disk w)). exact W'.
Qed.

End WellFormedWorlds.

Section StaleHandleExamples.
Import Text FileWriter Sample.

Lemma append_after_rewrite_misses_the_file_witness :
  let w := (append "k" id1 w0).2 in
  let c := id1 +:+ NL in
  (let w1 := (edit "k" target1 w).2 in
   activeFile "k" w1 = Some (concat (map (edit_line target1) (readline c)))
   /\ activeFile "k" (append "k" id2 w1).2 = activeFile "k" w1
   /\ activeFile "k" (append "k" id2 (closeFile "k" w1)).2
      = Some (concat (map (edit_line target1) (readline c)) +:+ id2 +:+ NL))
  /\ (let w1 := (delete "k" target1 w).2 in
      activeFile "k" w1 = Some (concat (map (delete_line target1) (readline c)))
      /\ activeFile "k" (append "k" id2 w1).2 = activeFile "k" w1
      /\ activeFile "k" (append "k" id2 (closeFile "k" w1)).2
         = Some (concat (map (delete_line target1) (readline c)) +:+ id2 +:+ NL)).
Proof.
  apply (append_after_rewrite_misses_the_file (H := miniHost)
           (append "k" id1 w0).2 "k" id2 (id1 +:+ NL) target1).
  - apply wellFormed_append, wellFormed_empty.
  - exists 0. repeat split; vm_compute; reflexivity.
Defined.

Lemma append_after_finalize_is_lost_witness :
  let w := (append "k" a1 w0).2 in
  let r := finishTranscript "k" None (disk w) in
  let w2 := (append "k" a2 {| writer := writer w; disk := r.2 |}).2 in
  activeFile "k" w2 = None
  /\ readFile (outputPath "k") (disk w2) = readFile (outputPath "k") r.2
  /\ readFile (outputPath "k") r.2 <> None.
Proof.
  apply (append_after_finalize_is_lost (H := miniHost)
           (append "k" a1 w0).2 "k" a2 (a1 +:+ NL) None).
  - reflexivity.
  - apply wellFormed_append, wellFormed_empty.
  - exists 0. repeat split; vm_compute; reflexivity.
  - vm_compute. reflexivity.
Defined.

Lemma rewrite_touches_no_other_file_witness :
  let w := (append "other" a1 (append "k" id1 w0).2).2 in
  (let w' := (edit "k" target1 w).2 in
   writer w' = writer w
   /\ (forall id', plain id' = true -> id' <> "k" ->
                   activeFile id' w' = activeFile id' w)
   /\ (forall id', readFile (outputPath id') (disk w')
                   = readFile (outputPath id') (disk w)))
  /\ (let w' := (delete "k" target1 w).2 in
      writer w' = writer w
      /\ (forall id', plain id' = true -> id' <> "k" ->
                      activeFile id' w' = activeFile id' w)
      /\ (forall id', readFile (outputPath id') (disk w')
                      = readFile (outputPath id') (disk w))).
Proof.
  apply (rewrite_touches_no_other_file (H := miniHost)
           (append "other" a1 (append "k" id1 w0).2).2 "k" target1).
  - apply wellFormed_append, wellFormed_append, wellFormed_empty.
  - reflexivity.
Defined.

End StaleHandleExamples.

(** ** The document of finalize *)

Section MoreFinishFacts.
Context `{Host}.
Import Text TextFacts.

Lemma forLines_parseable ls m i :
  Forall parseable ls ->
  forLines ls m i = Ok (m ++ parsedLines ls, i + length (parsedLines ls)).
Proof.
  intros F. revert m i. induction F as [|l ls P F IH]; intros m i; cbn.
  - rewrite app_nil_r. f_equal. f_equal. lia.
  - unfold parsedLines in *. cbn [omap list_omap].
    destruct (blank l) eqn:B.
    + apply IH.
    + destruct P as [P|P]; [congruence|]. unfold parse.
      destruct (JSON_parse l) as [v|]; [|congruence]. cbn.
      rewrite IH. cbn. rewrite <- app_assoc. cbn. f_equal. f_equal. lia.
Qed.

Lemma forLines_Ok ls m i r : forLines ls m i = Ok r -> Forall parseable ls.
Proof.
  revert m i. induction ls as [|l ls IH]; intros m i E; [constructor|].
  cbn in E. destruct (blank l) eqn:B.
  - constructor; [now left | now apply IH in E].
  - unfold parse in E. destruct (JSON_parse l) as [v|] eqn:P; [|discriminate].
    cbn in E. constructor; [right; congruence | now apply IH in E].
Qed.

Lemma split_nl_removelast s : split_nl s = removelast (split_nl s) ++ [rest s].
Proof.
  unfold rest. pose proof (split_nl_nonempty s) as N.
  destruct (split_nl s) as [|x r] eqn:E using rev_ind; [congruence|].
  rewrite removelast_last, last_snoc. cbn [orEmpty].
  destruct x; reflexivity.
Qed.

Lemma parsedLines_app a b : parsedLines (a ++ b) = parsedLines a ++ parsedLines b.
Proof. unfold parsedLines. apply omap_app. Qed.

Lemma finishText_Ok metadata content r :
  finishText metadata content = Ok r -> Forall parseable (split_nl content).
Proof.
  unfold finishText, scanText. intros E.
  destruct (forLines (removelast (split_nl content)) [] 0) as [[m i]|e] eqn:L;
    [|discriminate].
  apply forLines_Ok in L. cbn in E.
  rewrite split_nl_removelast. apply Forall_app. split; [exact L|].
  constructor; [|constructor]. unfold lastLine in E. cbn in E.
  destruct (blank (rest content)) eqn:B; [now left|].
  right. unfold parse in E. destruct (JSON_parse (rest content)); [congruence|discriminate].
Qed.

Lemma finishText_parseable metadata content :
  Forall parseable (split_nl content) ->
  finishText metadata content
  = Ok match JSON_parse (rest content) with
       | None => (metadata, parsedLines (removelast (split_nl content)))
       | Some v =>
           match parsedLines (removelast (split_nl content)) with
           | [] => (v, [])
           | _ :: _ => (metadata, parsedLines (removelast (split_nl content)) ++ [v])
           end
       end.
Proof.
  intros F. rewrite split_nl_removelast in F. apply Forall_app in F as (F & T).
  apply Forall_inv in T.
  unfold finishText, scanText. rewrite (forLines_parseable _ _ _ F). cbn.
  unfold lastLine. cbn.
  destruct (blank (rest content)) eqn:B.
  - now rewrite (JSON_parse_blank _ B).
  - destruct T as [T|T]; [congruence|]. unfold parse.
    destruct (JSON_parse (rest content)) as [v|]; [|congruence]. cbn.
    destruct (parsedLines (removelast (split_nl content))); reflexivity.
Qed.

End MoreFinishFacts.

Section MoreFinalizeProperties.
Context `{Host}.
Import Text TextFacts.

(** X8. What the loop of [finishTranscript] computes depends on the text of
    the stream only, not on where the stream is cut into chunks: a record
    that is split over two chunks is parsed as one line. *)
Theorem chunking_is_irrelevant (cs1 cs2 : list string) (st : scan) :
  noLF (buffer st) = true ->
  concat cs1 = concat cs2 ->
  forChunks cs1 st = forChunks cs2 st.
Proof.
  intros B E. rewrite !forChunks_scanText by exact B. now rewrite E.
Qed.

(** X9. [finishTranscript] succeeds exactly when the active file exists and
    each of its lines (split at line feeds, the unterminated last one
    included) is blank or accepted by [JSON.parse]; whenever it fails, the
    disk is as it was. *)
Theorem finalize_succeeds_iff (id : string) (metadata : jsval) (d : Disk) :
  ((finishTranscript id metadata d).1 = Ok tt
   <-> exists content, readFile (inputPath id) d = Some content
                       /\ Forall parseable (split_nl content))
  /\ ((finishTranscript id metadata d).1 <> Ok tt ->
      (finishTranscript id metadata d).2 = d).
Proof.
  destruct (readFile (inputPath id) d) as [content|] eqn:R.
  - rewrite (finishTranscript_eq id metadata d content R).
    destruct (finishText (default (Obj []) metadata) content) as [[m msgs]|e] eqn:E.
    + split; [|cbn; congruence]. split; [|reflexivity].
      intros _. exists content. split; [reflexivity|]. now apply finishText_Ok in E.
    + split; [|reflexivity]. split; [discriminate|].
      intros (c & [= <-] & F). rewrite (finishText_parseable _ _ F) in E. discriminate.
  - unfold finishTranscript. rewrite R. cbn. split; [|reflexivity].
    split; [discriminate|]. now intros (c & ? & _).
Qed.

(** X10. The document [finishTranscript] writes, for an active file whose
    lines are all blank or parseable: its messages are the values of the
    non-blank lines in file order, under the caller's metadata; but when the
    last line has no line feed after it and no non-blank line before it, its
    value is the metadata and there is no message. *)
Theorem finalize_document (id : string) (metadata : jsval) (d : Disk)
    (content : string) :
  readFile (inputPath id) d = Some content ->
  Forall parseable (split_nl content) ->
  let m := default (Obj []) metadata in
  let vs := parsedLines (removelast (split_nl content)) in
  let doc :=
    match JSON_parse (rest content) with
    | None => document m vs
    | Some v =>
        match vs with
        | [] => document v []
        | _ :: _ => document m (vs ++ [v])
        end
    end in
  finishTranscript id metadata d
  = (Ok tt, unlink (inputPath id) (writeFile (outputPath id) (JSON_stringify doc) d)).
Proof.
  intros R F m vs doc. rewrite (finishTranscript_eq id metadata d content R).
  rewrite (finishText_parseable _ _ F). subst doc vs m.
  destruct (JSON_parse (rest content)); [|reflexivity].
  destruct (parsedLines (removelast (split_nl content))); reflexivity.
Qed.

End MoreFinalizeProperties.

Section MoreFinalizeExamples.
Import Text Sample.

Lemma chunking_is_irrelevant_witness :
  let st := {| buffer := EmptyString; messages := []; lineIndex := 0 |} in
  forChunks [a1 +:+ NL +:+ "{"; Mini.q "a" +:+ ":2}" +:+ NL] st
  = forChunks [a1 +:+ NL +:+ a2 +:+ NL] st.
Proof.
  apply (chunking_is_irrelevant (H := miniHost)
           [a1 +:+ NL +:+ "{"; Mini.q "a" +:+ ":2}" +:+ NL] [a1 +:+ NL +:+ a2 +:+ NL]
           {| buffer := EmptyString; messages := []; lineIndex := 0 |}).
  - reflexivity.
  - reflexivity.
Defined.

Lemma finalize_document_witness :
  let content := NL +:+ a1 +:+ NL +:+ "  " +:+ NL +:+ a2 in
  let d := disk (withFile "k" content) in
  finishTranscript "k" None d
  = (Ok tt,
     unlink (inputPath "k") (writeFile (outputPath "k") doc_a1_a2 d)).
Proof.
  apply (finalize_document (H := miniHost) "k" None
           (disk (withFile "k" (NL +:+ a1 +:+ NL +:+ "  " +:+ NL +:+ a2)))
           (NL +:+ a1 +:+ NL +:+ "  " +:+ NL +:+ a2)).
  - reflexivity.
  - repeat (apply List.Forall_cons;
            [first [left; reflexivity | right; discriminate]|]).
    apply List.Forall_nil.
Defined.

End MoreFinalizeExamples.

(** * Further properties of the scheduler and of the handle cache *)

Section SchedulerProgress.
Import Scheduler.

Lemma step_reaction e s s' :
  step e s = Some s' -> reaction e -> calls s' = calls s /\ queues s' = queues s.
Proof.
  destruct e as [k o|i|i|i ok]; cbn; intros E R; [contradiction| | |].
  - destruct (calls s !! i); [|discriminate]. cbn in E.
    destruct (settled s (Caught i)); try discriminate.
    destruct (settled s (call_last c)); try discriminate; injection E as <-; auto.
  - destruct (calls s !! i); [|discriminate]. cbn in E.
    destruct (task s i); try discriminate.
    destruct (settled s (Next i)); try discriminate.
    destruct (settled s (Caught i)); try discriminate; injection E as <-; auto.
  - destruct (task s i); try discriminate. injection E as <-; auto.
Qed.

Lemma step_done e s s' i ok :
  step e s = Some s' -> task s i = Done ok -> task s' i = Done ok.
Proof.
  destruct e as [k o|j|j|j ok']; cbn; intros E D.
  - injection E as <-. exact D.
  - destruct (calls s !! j); [|discriminate]. cbn in E.
    destruct (settled s (Caught j)); try discriminate.
    destruct (settled s (call_last c)); try discriminate; injection E as <-; exact D.
  - destruct (calls s !! j); [|discriminate]. cbn in E.
    destruct (task s j) eqn:T; try discriminate.
    destruct (settled s (Next j)); try discriminate.
    destruct (settled s (Caught j)); try discriminate; injection E as <-; cbn;
      [|exact D].
    rewrite set_task_ne; [exact D|]. intros ->. congruence.
  - destruct (task s j) eqn:T; try discriminate. injection E as <-. cbn.
    rewrite set_task_ne; [exact D|]. intros ->. congruence.
Qed.

Lemma run_reaction es s s' :
  run es s = Some s' -> Forall reaction es ->
  calls s' = calls s
  /\ forall i ok, task s i = Done ok -> task s' i = Done ok.
Proof.
  revert s. induction es as [|e es IH]; intros s R F; cbn in R.
  - injection R as <-. auto.
  - destruct (step e s) as [s1|] eqn:E; [|discriminate]. cbn in R.
    apply Forall_cons in F as (Fe & F).
    destruct (IH s1 R F) as (C & D). destruct (step_reaction e s s1 E Fe) as (C1 & _).
    split; [congruence|]. intros i ok Di. apply D. now apply (step_done e s s1).
Qed.

Lemma run_app es1 es2 s s1 s2 :
  run es1 s = Some s1 -> run es2 s1 = Some s2 -> run (es1 ++ es2) s = Some s2.
Proof.
  revert s. induction es1 as [|e es1 IH]; intros s R1 R2; cbn in *.
  - now injection R1 as <-.
  - destruct (step e s) as [s'|]; [|discriminate]. cbn in *. now apply IH.
Qed.

Lemma step_other e s s' j :
  step e s = Some s' ->
  (e = Catch j \/ e = Then j \/ exists ok, e = Settle j ok) ->
  forall i, i <> j -> task s' i = task s i.
Proof.
  intros E [->|[->|(ok & ->)]] i Ne; cbn in E.
  - destruct (calls s !! j); [|discriminate]. cbn in E.
    destruct (settled s (Caught j)); try discriminate.
    destruct (settled s (call_last c)); try discriminate; now injection E as <-.
  - destruct (calls s !! j); [|discriminate]. cbn in E.
    destruct (task s j); try discriminate.
    destruct (settled s (Next j)); try discriminate.
    destruct (settled s (Caught j)); try discriminate; injection E as <-; cbn;
      [|reflexivity].
    now apply set_task_ne.
  - destruct (task s j); try discriminate. injection E as <-. cbn.
    now apply set_task_ne.
Qed.

Lemma run_other es s s' j :
  run es s = Some s' ->
  Forall (fun e => e = Catch j \/ e = Then j \/ exists ok, e = Settle j ok) es ->
  Forall reaction es /\ forall i, i <> j -> task s' i = task s i.
Proof.
  revert s. induction es as [|e es IH]; intros s R F; cbn in R.
  - injection R as <-. split; [constructor | reflexivity].
  - destruct (step e s) as [s1|] eqn:E; [|discriminate]. cbn in R.
    apply Forall_cons in F as (Fe & F). destruct (IH s1 R F) as (Q & O). split.
    + constructor; [|exact Q]. destruct Fe as [->|[->|(ok & ->)]]; exact Logic.I.
    + intros i Ne. rewrite (O i Ne). now apply (step_other e s s1 j).
Qed.

(** From a state that satisfies the invariant, the tasks of the first [n]
    calls can all be brought to their end, each task that had not finished
    with the outcome [outcome] gives it. *)
Lemma drain (outcome : nat -> bool) s n :
  inv s -> n <= length (calls s) ->
  exists es s',
    Forall reaction es /\ run es s = Some s' /\ inv s'
    /\ (forall i, i < n ->
          exists ok, task s' i = Done ok
                     /\ (task s i = Done ok \/ ok = outcome i))
    /\ (forall i, n <= i -> task s' i = task s i).
Proof.
  intros I. induction n as [|n IH]; intros B.
  - exists [], s. split; [constructor|]. split; [reflexivity|]. split; [exact I|].
    split; [lia | reflexivity].
  - destruct IH as (es & s1 & Q & R & I1 & Fin & Rest); [lia|].
    destruct (run_reaction es s s1 R Q) as (C & Mono).
    assert (Step : exists es2 s2,
               Forall (fun e => e = Catch n \/ e = Then n \/ exists ok, e = Settle n ok) es2
               /\ run es2 s1 = Some s2
               /\ exists ok, task s2 n = Done ok
                             /\ (task s n = Done ok \/ ok = outcome n)).
    { assert (Settle_n : forall s', task s' n = Running ->
                exists s2, run [Settle n (outcome n)] s' = Some s2
                           /\ task s2 n = Done (outcome n)).
      { intros s' T. eexists. cbn. rewrite T. cbn. split; [reflexivity|].
        apply set_task_eq. }
      destruct (task s1 n) as [| |ok] eqn:T.
      - destruct (next_task_starts s1 n I1) as (es2 & s2 & Sh & R2 & T2);
          [rewrite C; lia | exact T | |].
        { intros i L _. destruct (Fin i L) as (ok & D & _). now exists ok. }
        destruct (Settle_n s2 T2) as (s3 & R3 & T3).
        exists (es2 ++ [Settle n (outcome n)]), s3. split; [|split].
        + apply Forall_app. split.
          * destruct Sh as [-> | ->];
              repeat (apply List.Forall_cons; [auto|]); apply List.Forall_nil.
          * apply List.Forall_cons; [|apply List.Forall_nil].
            right. right. now exists (outcome n).
        + now apply (run_app es2 _ s1 s2 s3).
        + exists (outcome n). auto.
      - destruct (Settle_n s1 T) as (s3 & R3 & T3).
        exists [Settle n (outcome n)], s3. split.
        { apply List.Forall_cons; [|apply List.Forall_nil].
          right. right. now exists (outcome n). }
        split; [exact R3|]. exists (outcome n). auto.
      - exists [], s1. split; [constructor|]. split; [reflexivity|].
        exists ok. split; [exact T|]. left. rewrite <- T. symmetry. apply Rest. lia. }
    destruct Step as (es2 & s2 & Q2 & R2 & ok & T2 & O2).
    destruct (run_other es2 s1 s2 n R2 Q2) as (Q2' & Other).
    exists (es ++ es2), s2. split; [now apply Forall_app|].
    split; [now apply (run_app es es2 s s1 s2)|].
    split; [now apply (inv_run es2 s1 s2)|]. split.
    + intros i L. destruct (decide (i = n)) as [->|Ne].
      * exists ok. auto.
      * rewrite (Other i Ne). apply Fin. lia.
    + intros i L. rewrite Other by lia. apply Rest. lia.
Qed.

End SchedulerProgress.

Section ChainProperties.
Import Scheduler.





End ChainProperties.

Section SchedulerProperties.
Import Scheduler.

(** X11. No chain gets stuck: from every state the scheduler reaches,
    reactions and task ends alone (no new call) lead to a state where the
    task of every call has finished, whatever each remaining task does,
    return or throw; a task that had finished keeps its outcome. *)
Theorem every_task_can_finish (es : list event) (s : state) (outcome : nat -> bool) :
  run es init = Some s ->
  exists es' s',
    Forall reaction es'
    /\ run es' s = Some s'
    /\ calls s' = calls s
    /\ forall i, i < length (calls s) ->
         task s' i = match task s i with
                     | Done ok => Done ok
                     | _ => Done (outcome i)
                     end.
Proof.
  intros R. pose proof (inv_run es init s inv_init R) as I.
  destruct (drain outcome s (length (calls s)) I (le_n _))
    as (es' & s' & Q & R' & _ & Fin & _).
  destruct (run_reaction es' s s' R' Q) as (C & Mono).
  exists es', s'. repeat split; try assumption.
  intros i L. destruct (Fin i L) as (ok & D & O). rewrite D.
  destruct (task s i) as [| |ok0] eqn:T.
  - destruct O as [O| ->]; [discriminate | reflexivity].
  - destruct O as [O| ->]; [discriminate | reflexivity].
  - rewrite (Mono i ok0 T) in D. congruence.
Qed.

(** X12. In every state the scheduler reaches, the map [queues] holds for
    a key exactly the promise returned by the latest call for that key, and
    holds nothing for a key that was never used: a new call always chains
    after the latest one, and an entry is never removed. *)
Theorem queue_holds_latest_call (es : list event) (s : state) (k : string) :
  run es init = Some s ->
  match queues s !! k with
  | Some p =>
      exists i c, p = Next i /\ calls s !! i = Some c /\ call_key c = k
                  /\ forall j c', i < j -> calls s !! j = Some c' -> call_key c' <> k
  | None => forall j c', calls s !! j = Some c' -> call_key c' <> k
  end.
Proof.
  intros R. pose proof (inv_run es init s inv_init R) as I.
  rewrite (inv_queue s I k). pose proof (latest_spec k (calls s)) as L.
  destruct (latest k (calls s) 0 None) as [i|]; cbn.
  - destruct L as ((c & Lc & Kc) & Later). exists i, c. auto.
  - exact L.
Qed.

End SchedulerProperties.

Section SchedulerExamples.
Import Scheduler.

Lemma every_task_can_finish_witness :
  let s := reached [Submit "a" Append; Submit "b" Edit; Submit "a" Delete;
                    Catch 0; Then 0] in
  exists es' s',
    Forall reaction es'
    /\ run es' s = Some s'
    /\ calls s' = calls s
    /\ forall i, i < length (calls s) ->
         task s' i = match task s i with
                     | Done ok => Done ok
                     | _ => Done (negb (i =? 0))
                     end.
Proof.
  apply (every_task_can_finish
           [Submit "a" Append; Submit "b" Edit; Submit "a" Delete; Catch 0; Then 0]
           (reached [Submit "a" Append; Submit "b" Edit; Submit "a" Delete;
                     Catch 0; Then 0])
           (fun i => negb (i =? 0))).
  vm_compute. reflexivity.
Defined.

Lemma queue_holds_latest_call_witness :
  let s := reached [Submit "a" Append; Submit "b" Edit; Submit "a" Delete] in
  match queues s !! "a" with
  | Some p =>
      exists i c, p = Next i /\ calls s !! i = Some c /\ call_key c = "a"
                  /\ forall j c', i < j -> calls s !! j = Some c' -> call_key c' <> "a"
  | None => forall j c', calls s !! j = Some c' -> call_key c' <> "a"
  end.
Proof.
  apply (queue_holds_latest_call
           [Submit "a" Append; Submit "b" Edit; Submit "a" Delete]
           (reached [Submit "a" Append; Submit "b" Edit; Submit "a" Delete]) "a").
  vm_compute. reflexivity.
Defined.

End SchedulerExamples.

Section SchedulerTraces.
Import Scheduler.

Lemma step_calls e s s' :
  step e s = Some s' -> exists more, calls s' = calls s ++ more.
Proof.
  destruct e as [k o|i|i|i ok]; cbn; intros E.
  - injection E as <-. cbn. eauto.
  - destruct (calls s !! i); [|discriminate]. cbn in E.
    destruct (settled s (Caught i)); try discriminate.
    destruct (settled s (call_last c)); try discriminate; injection E as <-;
      exists []; now rewrite app_nil_r.
  - destruct (calls s !! i); [|discriminate]. cbn in E.
    destruct (task s i); try discriminate.
    destruct (settled s (Next i)); try discriminate.
    destruct (settled s (Caught i)); try discriminate; injection E as <-;
      exists []; now rewrite app_nil_r.
  - destruct (task s i); try discriminate. injection E as <-.
    exists []. now rewrite app_nil_r.
Qed.

Lemma run_calls es s s' :
  run es s = Some s' -> exists more, calls s' = calls s ++ more.
Proof.
  revert s. induction es as [|e es IH]; intros s R; cbn in R.
  - injection R as <-. exists []. now rewrite app_nil_r.
  - destruct (step e s) as [s1|] eqn:E; [|discriminate]. cbn in R.
    destruct (step_calls e s s1 E) as (m1 & C1). destruct (IH s1 R) as (m2 & C2).
    exists (m1 ++ m2). now rewrite C2, C1, app_assoc.
Qed.

Lemma run_split es1 es2 s s' :
  run (es1 ++ es2) s = Some s' ->
  exists s1, run es1 s = Some s1 /\ run es2 s1 = Some s'.
Proof.
  revert s. induction es1 as [|e es1 IH]; intros s R; cbn in *.
  - eauto.
  - destruct (step e s) as [s1|]; [|discriminate]. cbn in *. now apply IH.
Qed.

(** A task that has finished was ended by an event of the run. *)
Lemma done_by_settle es s s' i ok :
  run es s = Some s' -> task s' i = Done ok ->
  task s i = Done ok \/ Settle i ok ∈ es.
Proof.
  revert s. induction es as [|e es IH]; intros s R D; cbn in R.
  - injection R as <-. now left.
  - destruct (step e s) as [s1|] eqn:E; [|discriminate]. cbn in R.
    destruct (IH s1 R D) as [D1|I]; [|right; now right].
    destruct e as [k o|j|j|j ok']; cbn in E.
    + injection E as <-. now left.
    + destruct (calls s !! j); [|discriminate]. cbn in E.
      destruct (settled s (Caught j)); try discriminate.
      destruct (settled s (call_last c)); try discriminate; injection E as <-; now left.
    + destruct (calls s !! j); [|discriminate]. cbn in E.
      destruct (task s j) eqn:T; try discriminate.
      destruct (settled s (Next j)); try discriminate.
      destruct (settled s (Caught j)); try discriminate; injection E as <-; cbn in D1;
        [|now left].
      unfold set_task in D1. destruct (decide (i = j)); [discriminate | now left].
    + destruct (task s j) eqn:T; try discriminate. injection E as <-. cbn in D1.
      unfold set_task in D1. destruct (decide (i = j)) as [->|Ne]; [|now left].
      injection D1 as ->. right. left.
Qed.

(** X26. In every interleaving, the tasks of one key end in the order of
    their calls: when the task of a call ends, the task of every earlier
    call for the same key has ended before it in the run. *)
Theorem tasks_end_in_call_order (es1 es2 : list event) (s : state) (i j : nat)
    (ok : bool) :
  run (es1 ++ Settle j ok :: es2) init = Some s ->
  i < j ->
  same_key s i j ->
  exists ok', Settle i ok' ∈ es1.
Proof.
  intros R L (ci & cj & Ci & Cj & K).
  apply run_split in R as (s1 & R1 & R2).
  pose proof (inv_run es1 init s1 inv_init R1) as I1.
  destruct (run_calls _ _ _ R2) as (more & C).
  assert (T : task s1 j = Running).
  { cbn in R2. destruct (task s1 j); try discriminate. reflexivity. }
  pose proof (inv_task s1 I1 j) as Tj. rewrite T in Tj. destruct Tj as (_ & _ & Bj).
  assert (Sk : same_key s1 i j).
  { exists ci, cj. rewrite C in Ci, Cj.
    rewrite lookup_app_l in Ci by lia. rewrite lookup_app_l in Cj by lia. auto. }
  assert (St : started s1 j) by (unfold started; congruence).
  destruct (started_after_earlier s1 I1 j i L Sk St) as (ok' & D).
  exists ok'. destruct (done_by_settle es1 init s1 i ok' R1 D) as [D0|In]; [|exact In].
  discriminate.
Qed.

End SchedulerTraces.

Section SchedulerTraceExamples.
Import Scheduler.

Lemma tasks_end_in_call_order_witness :
  exists ok', Settle 0 ok' ∈ [Submit "a" Append; Submit "a" Edit; Catch 0; Then 0;
                              Settle 0 false; Catch 1; Then 1].
Proof.
  apply (tasks_end_in_call_order
           [Submit "a" Append; Submit "a" Edit; Catch 0; Then 0; Settle 0 false;
            Catch 1; Then 1]
           []
           (reached [Submit "a" Append; Submit "a" Edit; Catch 0; Then 0; Settle 0 false;
                     Catch 1; Then 1; Settle 1 true])
           0 1 true).
  - vm_compute. reflexivity.
  - lia.
  - eexists _, _. repeat split; vm_compute; reflexivity.
Defined.

End SchedulerTraceExamples.

Section HandlesExamples.
Import Handles.

Lemma one_handle_without_overlap_witness :
  exists s,
    run [Acquire "k"; Opened "k"; Fire 1; Closed 0; Acquire "k"; Opened "k"] init = Some s
    /\ forall h h' k, opened s !! h = Some k -> opened s !! h' = Some k -> h = h'.
Proof.
  eexists. split; [vm_compute; reflexivity|].
  apply (one_handle_without_overlap
           [Acquire "k"; Opened "k"; Fire 1; Closed 0; Acquire "k"; Opened "k"]).
  - vm_compute. repeat split. all: intros I; inversion I.
  - vm_compute. reflexivity.
Defined.

Lemma opened_only_when_uncached_witness :
  exists s s',
    run [Acquire "k"] init = Some s
    /\ step (Opened "k") s = Some s'
    /\ fileStates s !! "k" = None.
Proof.
  eexists. eexists. split; [vm_compute; reflexivity|].
  split; [vm_compute; reflexivity|].
  eapply (opened_only_when_uncached [Acquire "k"]).
  - vm_compute. reflexivity.
  - vm_compute. reflexivity.
Defined.

End HandlesExamples.

(** * The database *)

Section DatabaseFacts.
Import Database.

Lemma oldest_Some now db id :
  oldest now db = Some id ->
  exists row, transcripts db !! id = Some row /\ expired now row = true.
Proof.
  unfold oldest.
  set (l := filter (fun r => expired now r.2 = true) (map_to_list (transcripts db))).
  assert (A : forall r, r ∈ l -> transcripts db !! r.1 = Some r.2 /\ expired now r.2 = true).
  { intros [i r] I. apply list_elem_of_filter in I as (E & I).
    apply elem_of_map_to_list in I. auto. }
  clearbody l. intros E.
  assert (B : forall best, foldr (fun r best =>
             match best with
             | None => Some r
             | Some b =>
                 if isoLt (default 0%N (expires_at b.2)) (default 0%N (expires_at r.2))
                 then Some b else Some r
             end) None l = Some best -> best ∈ l).
  { clear E A. induction l as [|r l IH]; cbn; intros best E; [discriminate|].
    destruct (foldr _ None l) as [b|].
    - destruct (isoLt _ _); injection E as <-; [right; now apply IH | left].
    - injection E as <-. left. }
  destruct (foldr _ None l) as [[i r]|] eqn:F; [|discriminate].
  cbn in E. injection E as <-. specialize (B _ eq_refl). apply A in B. cbn in B.
  exists r. exact B.
Qed.

Lemma oldest_None now db id row :
  oldest now db = None -> transcripts db !! id = Some row -> expired now row = false.
Proof.
  unfold oldest. intros E L.
  destruct (expired now row) eqn:X; [|reflexivity]. exfalso.
  assert (I : (id, row) ∈ filter (fun r => expired now r.2 = true)
                            (map_to_list (transcripts db))).
  { apply list_elem_of_filter. split; [exact X | now apply elem_of_map_to_list]. }
  destruct (filter _ (map_to_list (transcripts db))) as [|r l]; [inversion I|].
  cbn in E. destruct (foldr _ None l) as [b|]; [|discriminate].
  destruct (isoLt _ _); discriminate.
Qed.

End DatabaseFacts.

Section CleanupFacts.
Context `{Host}.
Import Database.

Lemma expired_later t t' row :
  (t <= t')%N -> (t' < year10000)%N ->
  expired t row = true -> expired t' row = true.
Proof.
  unfold expired, isoLt. intros L Y E. apply andb_true_iff in E as (P & E). rewrite P. cbn.
  destruct (expires_at row) as [e|]; [|discriminate].
  assert (T : (t <? year10000)%N = true) by (apply N.ltb_lt; lia).
  assert (T' : (t' <? year10000)%N = true) by (apply N.ltb_lt; lia).
  rewrite T in E. rewrite T'. destruct (e <? year10000)%N; [|reflexivity].
  apply N.ltb_lt in E. apply N.ltb_lt. lia.
Qed.

(** The rows, the tags and the files at the exit of the loop, from those at
    its entry. *)
Lemma cleanupLoop_spec (clock : nat -> N) fuel turn (st : Db * Disk) :
  (forall i j, i <= j -> (clock i <= clock j)%N) ->
  (forall i, (clock i < year10000)%N) ->
  size (transcripts st.1) < fuel ->
  let r := cleanupLoop fuel clock turn st in
  let now := clock r.2 in
  (turn <= r.2 <= turn + size (transcripts st.1))
  /\ foreign_keys r.1.1 = foreign_keys st.1
  /\ (forall id row, transcripts st.1 !! id = Some row ->
        transcripts r.1.1 !! id = if expired now row then None else Some row)
  /\ (forall id, transcripts st.1 !! id = None -> transcripts r.1.1 !! id = None)
  /\ (forall id tag,
        (id, tag) ∈ transcript_tags r.1.1
        <-> (id, tag) ∈ transcript_tags st.1
            /\ forall row, transcripts st.1 !! id = Some row -> expired now row = false)
  /\ (forall p, readFile p r.1.2 = None \/ readFile p r.1.2 = readFile p st.2)
  /\ (forall id row, transcripts st.1 !! id = Some row -> expired now row = true ->
        readFile (outputPath id) r.1.2 = None)
  /\ (forall p,
        (forall id row, transcripts st.1 !! id = Some row -> expired now row = true ->
                        p <> outputPath id) ->
        readFile p r.1.2 = readFile p st.2).
Proof.
  intros Mono Range. revert turn st.
  induction fuel as [|fuel IH]; intros turn st B; [lia|].
  cbn [cleanupLoop]. destruct (oldest (clock turn) st.1) as [id0|] eqn:O.
  - destruct (oldest_Some _ _ _ O) as (row0 & L0 & X0).
    assert (Sz : size (transcripts (deleteTranscript id0 st).1) < fuel).
    { cbn. rewrite map_size_delete_Some by eauto.
      assert (size (transcripts st.1) <> 0) by (eapply map_size_ne_0_lookup_2; eauto).
      lia. }
    specialize (IH (S turn) (deleteTranscript id0 st) Sz).
    set (r := cleanupLoop fuel clock (S turn) (deleteTranscript id0 st)) in *.
    cbn zeta in IH. destruct IH as (Bn & Fk & Rows & Gone & Tags & Either & Rm & Keep).
    cbn [deleteTranscript fst snd transcripts transcript_tags foreign_keys] in *.
    unfold deleteTranscriptData in *.
    assert (Sz' : size (base.delete id0 (transcripts st.1)) = pred (size (transcripts st.1))).
    { apply map_size_delete_Some. eauto. }
    assert (Sz0 : size (transcripts st.1) <> 0) by (eapply map_size_ne_0_lookup_2; eauto).
    assert (X0' : expired (clock r.2) row0 = true).
    { apply (expired_later (clock turn)); [apply Mono; lia | apply Range | exact X0]. }
    cbn zeta. split; [lia|]. split; [exact Fk|]. split; [|split; [|split; [|split; [|split]]]].
    + intros id row L. destruct (decide (id = id0)) as [->|Ne].
      * assert (row = row0) as -> by congruence. rewrite X0'.
        apply Gone. apply lookup_delete_eq.
      * apply Rows. now rewrite lookup_delete_ne by congruence.
    + intros id L. apply Gone. destruct (decide (id = id0)) as [->|Ne].
      * apply lookup_delete_eq.
      * now rewrite lookup_delete_ne by congruence.
    + intros id tag. rewrite Tags. rewrite elem_of_filter. cbn. split.
      * intros ((Ne & I) & K). split; [exact I|]. intros row L. apply K.
        now rewrite lookup_delete_ne by congruence.
      * intros (I & K). assert (Ne : id <> id0).
        { intros ->. specialize (K row0 L0). congruence. }
        split; [auto|]. intros row L. apply K.
        now rewrite lookup_delete_ne in L by congruence.
    + intros p. destruct (Either p) as [E|E]; [now left|]. rewrite E.
      destruct (decide (p = outputPath id0)) as [->|Ne].
      * left. apply readFile_unlink.
      * right. apply readFile_unlink_ne. congruence.
    + intros id row L X. destruct (decide (id = id0)) as [->|Ne].
      * destruct (Either (outputPath id0)) as [E|E]; [exact E|].
        rewrite E. apply readFile_unlink.
      * apply (Rm id row); [|exact X]. now rewrite lookup_delete_ne by congruence.
    + intros p K. rewrite Keep.
      * apply readFile_unlink_ne. intros E. now apply (K id0 row0 L0 X0').
      * intros id row L X. destruct (decide (id = id0)) as [->|Ne].
        -- now rewrite lookup_delete_eq in L.
        -- rewrite lookup_delete_ne in L by congruence. now apply (K id row).
  - cbn zeta. cbn [fst snd]. split; [lia|]. split; [reflexivity|].
    split; [|split; [|split; [|split; [|split]]]].
    + intros id row L. now rewrite (oldest_None _ _ _ _ O L).
    + auto.
    + intros id tag. split; [|now intros (I & _)].
      intros I. split; [exact I|]. intros row L. apply (oldest_None _ _ _ _ O L).
    + now right.
    + intros id row L X. rewrite (oldest_None _ _ _ _ O L) in X. discriminate.
    + reflexivity.
Qed.

End CleanupFacts.

Section CleanupProperties.
Context `{Host}.
Import Database.

(** X13. One run of the cleanup loop, with a clock that does not go back
    and stays before the year 10000: the loop ends after at most as many
    turns as there are rows, and with [now] the time it read last, it has
    removed exactly the rows that are not permanent and whose expiry text is
    before the text of [now] (for an expiry before the year 10000: an expiry
    earlier than [now]; an expiry from the year 10000 on, whose text begins
    with a sign, always is), with all their tags and their documents; every
    other row, tag and file is as before, and no expired row is left. *)
Theorem cleanup_removes_the_expired (clock : nat -> N) (db : Db) (d : Disk) :
  (forall i j, i <= j -> (clock i <= clock j)%N) ->
  (forall i, (clock i < year10000)%N) ->
  let r := cleanupExpiredTranscripts clock (db, d) in
  let now := clock r.2 in
  r.2 <= size (transcripts db)
  /\ (forall row e, expires_at row = Some e ->
        expired now row
        = negb (is_permanent row)
          && (if (e <? year10000)%N then (e <? now)%N else true))
  /\ (forall id row, transcripts r.1.1 !! id = Some row -> expired now row = false)
  /\ (forall id row, transcripts db !! id = Some row ->
        transcripts r.1.1 !! id = if expired now row then None else Some row)
  /\ (forall id, transcripts db !! id = None -> transcripts r.1.1 !! id = None)
  /\ (forall id tag,
        (id, tag) ∈ transcript_tags r.1.1
        <-> (id, tag) ∈ transcript_tags db
            /\ forall row, transcripts db !! id = Some row -> expired now row = false)
  /\ (forall id row, transcripts db !! id = Some row -> expired now row = true ->
        readFile (outputPath id) r.1.2 = None)
  /\ (forall p,
        (forall id row, transcripts db !! id = Some row -> expired now row = true ->
                        p <> outputPath id) ->
        readFile p r.1.2 = readFile p d).
Proof.
  intros Mono Range r now. subst now r. unfold cleanupExpiredTranscripts. cbn [fst snd].
  destruct (cleanupLoop_spec clock (S (size (transcripts db))) 0 (db, d) Mono Range)
    as (Bn & _ & Rows & Gone & Tags & _ & Rm & Keep); [cbn; lia|].
  cbn [fst snd] in *.
  set (r := cleanupLoop (S (size (transcripts db))) clock 0 (db, d)) in *.
  set (now := clock r.2) in *.
  split; [lia|]. split.
  { intros row e E. unfold expired, isoLt. rewrite E.
    assert (T : (now <? year10000)%N = true) by (apply N.ltb_lt; apply Range).
    rewrite T. now destruct (e <? year10000)%N. }
  split; [|auto 10].
  intros id row L. destruct (transcripts db !! id) as [row0|] eqn:L0.
  - rewrite (Rows id row0 L0) in L. destruct (expired now row0) eqn:X; congruence.
  - rewrite (Gone id L0) in L. discriminate.
Qed.

End CleanupProperties.

Section TrimFacts.
Import Text.

Lemma trimEnd_idempotent s : trimEnd (trimEnd s) = trimEnd s.
Proof.
  induction s as [|c s IH]; [reflexivity|]. cbn [trimEnd].
  destruct (isWhiteSpace c && falsy (trimEnd s)) eqn:E; [reflexivity|].
  cbn [trimEnd]. rewrite IH, E. reflexivity.
Qed.

Lemma trimStart_head s :
  match trimStart s with
  | EmptyString => True
  | String c _ => isWhiteSpace c = false
  end.
Proof.
  induction s as [|c s IH]; cbn; [exact I|].
  destruct (isWhiteSpace c) eqn:E; [exact IH | exact E].
Qed.

Lemma trim_idempotent s : trim (trim s) = trim s.
Proof.
  unfold trim. pose proof (trimStart_head s) as Hd.
  destruct (trimStart s) as [|c u]; [reflexivity|].
  cbn [trimEnd]. rewrite Hd. cbn [andb trimStart]. rewrite Hd.
  change (String c (trimEnd u)) with (String c (trimEnd u)).
  cbn [trimEnd]. rewrite Hd. cbn [andb]. now rewrite trimEnd_idempotent.
Qed.

Lemma falsy_empty s : falsy s = true <-> s = EmptyString.
Proof. destruct s; cbn; split; congruence. Qed.

Lemma falsy_trim s : falsy s = true -> falsy (trim s) = true.
Proof. intros E. apply falsy_empty in E as ->. reflexivity. Qed.

End TrimFacts.

Section TagFacts.
Import Text Database.

Lemma keeps_tag tag :
  negb (falsy tag) && negb (falsy (trim tag)) = negb (blank tag).
Proof.
  unfold blank. destruct (falsy tag) eqn:E; cbn; [|reflexivity].
  now rewrite (falsy_trim tag E).
Qed.

Lemma insertTag_present id tag db :
  is_Some (transcripts db !! id) ->
  insertTag id tag db
  = Returns {| foreign_keys := foreign_keys db; transcripts := transcripts db;
               transcript_tags := {[ (id, tag) ]} ∪ transcript_tags db |}.
Proof. intros [row L]. unfold insertTag. now rewrite L. Qed.

Lemma insertTags_present id tags db :
  is_Some (transcripts db !! id) ->
  exists db',
    insertTags id tags db = Returns db'
    /\ foreign_keys db' = foreign_keys db
    /\ transcripts db' = transcripts db
    /\ forall i t, (i, t) ∈ transcript_tags db'
         <-> (i, t) ∈ transcript_tags db
             \/ (i = id /\ exists tag, tag ∈ tags /\ blank tag = false /\ t = trim tag).
Proof.
  revert db. induction tags as [|tag tags IH]; intros db S; cbn [insertTags].
  - exists db. repeat split; auto. intros [I|(_ & tag & I & _)]; [exact I|].
    now apply elem_of_nil in I.
  - rewrite keeps_tag. destruct (blank tag) eqn:B; cbn [negb].
    + destruct (IH db S) as (db' & E & F & T & G). exists db'.
      split; [exact E|]. split; [exact F|]. split; [exact T|].
      intros i t. rewrite G. split; intros [I|(-> & tg & I & Bt & ->)]; auto.
      * right. split; [reflexivity|]. exists tg. split; [now right|auto].
      * apply elem_of_cons in I as [->|I]; [congruence|].
        right. split; [reflexivity|]. exists tg. auto.
    + rewrite (insertTag_present id (trim tag) db S). cbn.
      destruct (IH {| foreign_keys := foreign_keys db; transcripts := transcripts db;
                      transcript_tags := {[ (id, trim tag) ]} ∪ transcript_tags db |} S)
        as (db' & E & F & T & G).
      exists db'. split; [exact E|]. split; [exact F|]. split; [exact T|].
      intros i t. rewrite G. cbn. rewrite elem_of_union, elem_of_singleton.
      split.
      * intros [[[= -> ->]|I]|(-> & tg & I & Bt & ->)]; auto.
        -- right. split; [reflexivity|]. exists tag. split; [now left|auto].
        -- right. split; [reflexivity|]. exists tg. split; [now right|auto].
      * intros [I|(-> & tg & I & Bt & ->)]; auto.
        apply elem_of_cons in I as [->|I]; [auto|].
        right. split; [reflexivity|]. exists tg. auto.
Qed.

End TagFacts.

Section DatabaseProperties.
Import Text Database.

(** X14. [createTranscriptInDb] on an id that has a row throws (the primary
    key) and changes nothing.  On a new id it stores the row, which expires
    thirty days after [now] unless it is permanent, and one tag row for
    each listed tag that is not blank, trimmed; listed twice, or there
    already, a tag is stored once; no other row changes. *)
Theorem createTranscriptInDb_stores (id sv : string) (perm : bool)
    (tags : list string) (now : N) (db : Db) :
  match transcripts db !! id with
  | Some _ =>
      createTranscriptInDb id sv perm tags now db = Throws SQLITE_CONSTRAINT_PRIMARYKEY
  | None =>
      exists db',
        createTranscriptInDb id sv perm tags now db = Returns db'
        /\ foreign_keys db' = foreign_keys db
        /\ transcripts db'
           = <[id := {| server := sv;
                        expires_at := if perm then None else Some (now + thirtyDays)%N;
                        is_permanent := perm |}]> (transcripts db)
        /\ forall i t, (i, t) ∈ transcript_tags db'
             <-> (i, t) ∈ transcript_tags db
                 \/ (i = id /\ exists tag, tag ∈ tags /\ blank tag = false /\ t = trim tag)
  end.
Proof.
  unfold createTranscriptInDb, insertTranscript.
  destruct (transcripts db !! id) eqn:L; [reflexivity|]. cbn.
  match goal with |- context [insertTags id tags ?d] => destruct (insertTags_present id tags d) as (db' & E & F & T & G) end.
  { cbn. rewrite lookup_insert_eq. eauto. }
  exists db'. auto.
Qed.

End DatabaseProperties.

Section FindFacts.
Import Text Database.

Lemma remove_dups_length (l : list string) :
  length (remove_dups l) <= length l
  /\ (length (remove_dups l) = length l -> NoDup l).
Proof.
  induction l as [|x l (Le & Nd)]; cbn [remove_dups length].
  - split; [lia | constructor].
  - destruct (decide_rel elem_of x l) as [I|I]; cbn [length].
    + split; [lia|]. intros E. lia.
    + split; [lia|]. intros E. constructor; [exact I | apply Nd; lia].
Qed.

Lemma remove_dups_NoDup (l : list string) : NoDup l -> remove_dups l = l.
Proof.
  induction 1 as [|x l I N IH]; cbn [remove_dups]; [reflexivity|].
  destruct (decide_rel elem_of x l); [contradiction | now rewrite IH].
Qed.

Lemma filter_all (P : string -> Prop) `{!forall x, Decision (P x)} (l : list string) :
  length (filter P l) = length l <-> forall x, x ∈ l -> P x.
Proof.
  split.
  - intros E x I. destruct (decide (P x)) as [p|n]; [exact p|].
    pose proof (length_filter_lt P l x I n). lia.
  - induction l as [|x l IH]; intros A; [reflexivity|].
    rewrite filter_cons_True by (apply A; left). cbn. f_equal. apply IH.
    intros y I. apply A. now right.
Qed.

Lemma tagged_true db id t : tagged db id t = true <-> (id, t) ∈ transcript_tags db.
Proof. unfold tagged. apply bool_decide_eq_true. Qed.

Lemma countDistinct_all db id (tags : list string) :
  countDistinct db id tags = length tags
  <-> NoDup tags /\ forall t, t ∈ tags -> (id, t) ∈ transcript_tags db.
Proof.
  unfold countDistinct. destruct (remove_dups_length tags) as (Le & Nd). split.
  - intros E.
    pose proof (length_filter (fun tag => tagged db id tag = true) (remove_dups tags)) as Lf.
    assert (E1 : length (remove_dups tags) = length tags) by lia.
    split; [now apply Nd|]. intros t I. apply tagged_true.
    assert (E2 : length (filter (fun tag => tagged db id tag = true) (remove_dups tags))
                 = length (remove_dups tags)) by lia.
    apply (proj1 (filter_all _ _) E2). now apply elem_of_remove_dups.
  - intros (N & A). rewrite (remove_dups_NoDup tags N). apply filter_all.
    intros t I. apply tagged_true. now apply A.
Qed.

Lemma existsb_tagged db id (tags : list string) :
  existsb (tagged db id) tags = true
  <-> exists t, t ∈ tags /\ (id, t) ∈ transcript_tags db.
Proof.
  rewrite existsb_exists. split; intros (t & I & T); exists t.
  - split; [now apply list_elem_of_In | now apply tagged_true].
  - split; [now apply list_elem_of_In | now apply tagged_true].
Qed.

Lemma elem_of_selected (P : string * Row -> Prop) `{!forall r, Decision (P r)}
    (m : gmap string Row) (id : string) :
  id ∈ (filter P (map_to_list m)).*1 <-> exists row, m !! id = Some row /\ P (id, row).
Proof.
  rewrite list_elem_of_fmap. split.
  - intros ([i row] & -> & I). apply list_elem_of_filter in I as (p & I).
    apply elem_of_map_to_list in I. exists row. auto.
  - intros (row & L & p). exists (id, row). split; [reflexivity|].
    apply list_elem_of_filter. split; [exact p | now apply elem_of_map_to_list].
Qed.

Lemma NoDup_selected (P : string * Row -> Prop) `{!forall r, Decision (P r)}
    (m : gmap string Row) :
  NoDup (filter P (map_to_list m)).*1.
Proof.
  apply (sublist_NoDup _ (map_to_list m).*1); [apply NoDup_fst_map_to_list|].
  apply fmap_sublist. apply sublist_filter.
Qed.

End FindFacts.

Section FindProperties.
Import Text Database.

(** X15. What [findTranscripts] returns: each transcript at most once, and
    exactly the transcripts of the server that, with no tag asked for, are
    any at all; in the mode ["any"], carry one of the tags; in any other
    mode, carry every tag, the tags being listed without a repetition.  A
    tag listed twice makes the count of distinct tags fall short of the
    length of the list: the search then finds nothing. *)
Theorem findTranscripts_finds (sv : string) (tags : option (list string))
    (mode : string) (db : Db) :
  NoDup (findTranscripts sv tags mode db)
  /\ forall id,
       id ∈ findTranscripts sv tags mode db
       <-> exists row,
             transcripts db !! id = Some row /\ server row = sv
             /\ match default [] tags with
                | [] => True
                | ts =>
                    if String.eqb mode "any"
                    then exists t, t ∈ ts /\ (id, t) ∈ transcript_tags db
                    else NoDup ts /\ forall t, t ∈ ts -> (id, t) ∈ transcript_tags db
                end.
Proof.
  unfold findTranscripts.
  destruct (default [] tags) as [|tag rest].
  - split; [apply NoDup_selected|]. intros id. rewrite elem_of_selected. cbn.
    split; intros (row & L & S); exists row; tauto.
  - destruct (String.eqb mode "any").
    + rewrite list_filter_filter. split; [apply NoDup_selected|].
      intros id. rewrite elem_of_selected. cbn [fst snd].
      split.
      * intros (row & L & E & S). exists row. rewrite <- existsb_tagged. auto.
      * intros (row & L & S & E). exists row. rewrite existsb_tagged. auto.
    + rewrite list_filter_filter. split; [apply NoDup_selected|].
      intros id. rewrite elem_of_selected. cbn [fst snd].
      split.
      * intros (row & L & E & S). exists row. rewrite <- countDistinct_all. auto.
      * intros (row & L & S & E). exists row. rewrite countDistinct_all. auto.
Qed.

End FindProperties.

Section SoundFacts.
Context `{Host}.
Import Text Database.

Lemma sound_empty fk : sound (emptyDb fk).
Proof.
  split; cbn.
  - intros id tag I. now apply elem_of_empty in I.
  - intros id tag _ I. now apply elem_of_empty in I.
  - intros id row L. now rewrite lookup_empty in L.
Qed.

Lemma trimmed_tag tag :
  blank tag = false -> trim tag <> EmptyString /\ trim (trim tag) = trim tag.
Proof.
  intros B. split; [|apply trim_idempotent].
  intros E. unfold blank in B. rewrite E in B. discriminate.
Qed.

Lemma sound_insertTag id tag db db' :
  sound db -> blank tag = false -> insertTag id (trim tag) db = Returns db' -> sound db'.
Proof.
  intros [T R X] B E.
  assert (D : foreign_keys db' = foreign_keys db /\ transcripts db' = transcripts db
              /\ transcript_tags db' = {[ (id, trim tag) ]} ∪ transcript_tags db
              /\ (foreign_keys db = true -> is_Some (transcripts db !! id))).
  { unfold insertTag in E. destruct (transcripts db !! id) as [row|] eqn:L.
    - injection E as <-. cbn. eauto 6.
    - destruct (foreign_keys db); [discriminate|]. injection E as <-. cbn.
      repeat split. discriminate. }
  destruct D as (F & Tr & Tg & Fk). split.
  - intros i t. rewrite Tg, elem_of_union, elem_of_singleton.
    intros [[= -> ->]|I]; [now apply trimmed_tag | now apply (T i)].
  - intros i t. rewrite F, Tr, Tg, elem_of_union, elem_of_singleton.
    intros Fk' [[= -> ->]|I]; [now apply Fk | now apply (R i t)].
  - intros i row. rewrite Tr. apply X.
Qed.

Lemma sound_insertTags id tags db db' :
  sound db -> insertTags id tags db = Returns db' -> sound db'.
Proof.
  revert db. induction tags as [|tag tags IH]; intros db S E; cbn [insertTags] in E.
  - now injection E as <-.
  - rewrite keeps_tag in E. destruct (blank tag) eqn:B; cbn [negb] in E.
    + now apply (IH db).
    + destruct (insertTag id (trim tag) db) as [db1|e] eqn:E1; [|discriminate].
      cbn in E. apply (IH db1); [|exact E]. now apply (sound_insertTag id tag db).
Qed.

Lemma sound_create id sv perm tags now db db' :
  sound db -> createTranscriptInDb id sv perm tags now db = Returns db' -> sound db'.
Proof.
  intros [T R X] E. unfold createTranscriptInDb, insertTranscript in E.
  destruct (transcripts db !! id) eqn:L; [discriminate|]. cbn in E.
  apply sound_insertTags in E; [exact E|]. split; cbn.
  - exact T.
  - intros i t Fk I. destruct (decide (i = id)) as [->|Ne].
    + rewrite lookup_insert_eq. eauto.
    + rewrite lookup_insert_ne by congruence. now apply (R i t).
  - intros i row. destruct (decide (i = id)) as [->|Ne].
    + rewrite lookup_insert_eq. intros [= <-]. cbn. destruct perm; split; congruence.
    + rewrite lookup_insert_ne by congruence. apply X.
Qed.

Lemma sound_addTag id tag db db' :
  sound db -> addTag id tag db = Returns db' -> sound db'.
Proof.
  intros S E. unfold addTag in E. destruct (falsy (trim tag)) eqn:B.
  - now injection E as <-.
  - now apply (sound_insertTag id tag db).
Qed.

Lemma sound_removeTag id tag db : sound db -> sound (removeTag id tag db).
Proof.
  intros [T R X]. split; cbn.
  - intros i t I. apply elem_of_difference in I as (I & _). now apply (T i).
  - intros i t Fk I. apply elem_of_difference in I as (I & _). now apply (R i t).
  - exact X.
Qed.

Lemma sound_deleteTranscript id (st : Db * Disk) :
  sound st.1 -> sound (deleteTranscript id st).1.
Proof.
  intros [T R X]. split; cbn.
  - intros i t I. apply elem_of_filter in I as (_ & I). now apply (T i).
  - intros i t Fk I. apply elem_of_filter in I as (Ne & I). cbn in Ne.
    rewrite lookup_delete_ne by congruence. now apply (R i t).
  - intros i row L. apply lookup_delete_Some in L as (_ & L). now apply (X i).
Qed.

Lemma sound_cleanupLoop fuel clock turn (st : Db * Disk) :
  sound st.1 -> sound (cleanupLoop fuel clock turn st).1.1.
Proof.
  revert turn st. induction fuel as [|fuel IH]; intros turn st S; cbn; [exact S|].
  destruct (oldest (clock turn) st.1); [|exact S].
  apply IH. now apply sound_deleteTranscript.
Qed.

Lemma sound_exec c (st : Db * Disk) : sound st.1 -> sound (exec c st).1.
Proof.
  intros S. destruct c as [id sv perm tags now|id tag|id tag|clock]; cbn [exec].
  - destruct (createTranscriptInDb id sv perm tags now st.1) eqn:E; [|exact S].
    now apply (sound_create id sv perm tags now st.1).
  - destruct (addTag id tag st.1) eqn:E; [|exact S].
    now apply (sound_addTag id tag st.1).
  - now apply sound_removeTag.
  - unfold cleanupExpiredTranscripts. now apply sound_cleanupLoop.
Qed.

End SoundFacts.

Section SoundProperties.
Context `{Host}.
Import Text Database.

(** X16. Whatever calls of [createTranscriptInDb], [addTag], [removeTag]
    and runs of the cleanup are made on an empty database: every stored tag
    is not empty and has no white space at its ends; a row is permanent
    exactly when it has no expiry time; and when foreign keys are enforced,
    every tag belongs to a transcript that has a row. *)
Theorem database_stays_sound (fk : bool) (d : Disk) (cs : list operation) :
  let db := (foldl (fun st c => exec c st) (emptyDb fk, d) cs).1 in
  (forall id tag, (id, tag) ∈ transcript_tags db ->
                  tag <> EmptyString /\ trim tag = tag)
  /\ (forall id row, transcripts db !! id = Some row ->
                     (is_permanent row = true <-> expires_at row = None))
  /\ (foreign_keys db = true ->
      forall id tag, (id, tag) ∈ transcript_tags db -> is_Some (transcripts db !! id)).
Proof.
  intros db.
  assert (S : sound db).
  { subst db. assert (S0 : sound (emptyDb fk, d).1) by apply sound_empty.
    revert S0. generalize (emptyDb fk, d). induction cs as [|c cs IH]; intros st S0.
    - exact S0.
    - cbn [foldl]. apply IH. now apply sound_exec. }
  destruct S as [T R X]. split; [exact T|]. split; [exact X|].
  intros Fk id tag. now apply R.
Qed.

End SoundProperties.

Section TagFinding.
Import Text Database.

Lemma found_by_tag sv t mode db id :
  id ∈ findTranscripts sv (Some [t]) mode db
  <-> exists row, transcripts db !! id = Some row /\ server row = sv
                  /\ (id, t) ∈ transcript_tags db.
Proof.
  unfold findTranscripts. change (default [] (Some [t])) with [t].
  cbv iota. destruct (String.eqb mode "any").
  - rewrite list_filter_filter, elem_of_selected. cbn [fst snd].
    split; intros (row & L & A & B); exists row.
    + apply existsb_tagged in A as (t' & I & T). apply list_elem_of_singleton in I as ->.
      auto.
    + split; [exact L|]. split; [|exact A]. apply existsb_tagged. exists t.
      split; [apply list_elem_of_singleton; reflexivity | exact B].
  - rewrite list_filter_filter, elem_of_selected. cbn [fst snd].
    split; intros (row & L & A & B); exists row.
    + apply countDistinct_all in A as (_ & A). split; [exact L|]. split; [exact B|].
      apply A. now apply list_elem_of_singleton.
    + split; [exact L|]. split; [|exact A]. apply countDistinct_all.
      split; [apply NoDup_singleton|]. intros t' I.
      now apply list_elem_of_singleton in I as ->.
Qed.

End TagFinding.

Section TagProperties.
Import Text Database.

(** X17. A tag that is not blank, added to a transcript that has a row, is
    stored trimmed: a search of the transcript's server for the trimmed tag
    finds the transcript, in either mode; adding the tag again changes
    nothing; and after [removeTag] with a tag that trims to the same text,
    the search no longer finds the transcript. *)
Theorem tag_added_is_found (id tag tag' sv : string) (db : Db) (row : Row) :
  transcripts db !! id = Some row ->
  server row = sv ->
  blank tag = false ->
  trim tag' = trim tag ->
  exists db',
    addTag id tag db = Returns db'
    /\ transcripts db' = transcripts db
    /\ (forall mode, id ∈ findTranscripts sv (Some [trim tag]) mode db')
    /\ addTag id tag' db' = Returns db'
    /\ (forall mode, id ∉ findTranscripts sv (Some [trim tag]) mode (removeTag id tag' db')).
Proof.
  intros L S B E. unfold addTag. fold (blank tag). rewrite B.
  rewrite (insertTag_present id (trim tag) db) by eauto.
  set (db' := {| foreign_keys := foreign_keys db; transcripts := transcripts db;
                 transcript_tags := {[ (id, trim tag) ]} ∪ transcript_tags db |}).
  exists db'. split; [reflexivity|]. split; [reflexivity|]. split; [|split].
  - intros mode. apply found_by_tag. exists row. split; [exact L|]. split; [exact S|].
    apply elem_of_union_l, elem_of_singleton. reflexivity.
  - fold (blank tag'). unfold blank. rewrite E. fold (blank tag). rewrite B.
    rewrite insertTag_present by (exists row; exact L). f_equal. subst db'.
    cbn [foreign_keys transcripts transcript_tags]. f_equal.
    apply set_eq. intros x. rewrite !elem_of_union, !elem_of_singleton. tauto.
  - intros mode I. apply found_by_tag in I as (row' & _ & _ & I).
    cbn [removeTag transcript_tags] in I.
    rewrite E in I. apply elem_of_difference in I as (_ & I). apply I.
    now apply elem_of_singleton.
Qed.

(** X18. A tag for a transcript that has no row: [addTag] throws when
    foreign keys are enforced, and changes nothing; when they are not, the
    tag row is stored, but no search finds the transcript, whatever the
    server, the tags and the mode. *)
Theorem addTag_without_transcript (id tag : string) (db : Db) :
  transcripts db !! id = None ->
  blank tag = false ->
  if foreign_keys db then addTag id tag db = Throws SQLITE_CONSTRAINT_FOREIGNKEY
  else exists db',
         addTag id tag db = Returns db'
         /\ (id, trim tag) ∈ transcript_tags db'
         /\ forall sv tags mode, id ∉ findTranscripts sv tags mode db'.
Proof.
  intros L B. unfold addTag. fold (blank tag). rewrite B. unfold insertTag. rewrite L.
  destruct (foreign_keys db); [reflexivity|].
  eexists. split; [reflexivity|]. split.
  - apply elem_of_union_l, elem_of_singleton. reflexivity.
  - intros sv tags mode I. unfold findTranscripts in I. cbn [transcripts] in I.
    assert (N : forall (P : string * Row -> Prop) `{!forall r, Decision (P r)},
              id ∉ (filter P (map_to_list (transcripts db))).*1).
    { intros P ? J. apply elem_of_selected in J as (row & J & _). congruence. }
    destruct (default [] tags); [now apply N in I|].
    destruct (String.eqb mode "any"); rewrite list_filter_filter in I; now apply N in I.
Qed.

End TagProperties.

(** * The routes *)

Section SplitFacts.
Import Text Server.

Lemma split_head sep s :
  exists x r,
    split sep s = x :: r
    /\ without sep x = true
    /\ ((r = [] /\ s = x) \/ exists s', s = x +:+ String sep s' /\ r = split sep s').
Proof.
  induction s as [|c s (x & r & E & W & C)]; cbn [split].
  - exists EmptyString, []. repeat split. now left.
  - destruct (Ascii.eqb c sep) eqn:Q.
    + apply Ascii.eqb_eq in Q as ->. exists EmptyString, (split sep s).
      repeat split. right. now exists s.
    + rewrite E. exists (String c x), r. split; [reflexivity|].
      split; [cbn; now rewrite Q, W|].
      destruct C as [(-> & ->)|(s' & -> & ->)]; [now left|].
      right. now exists s'.
Qed.

Lemma split_without sep x s :
  without sep x = true -> split sep (x +:+ String sep s) = x :: split sep s.
Proof.
  induction x as [|c x IH]; cbn [without]; intros W.
  - cbn. now rewrite Ascii.eqb_refl.
  - apply andb_true_iff in W as (Q & W). apply negb_true_iff in Q.
    cbn. rewrite Q. now rewrite (IH W).
Qed.

Lemma split_whole sep x : without sep x = true -> split sep x = [x].
Proof.
  induction x as [|c x IH]; cbn [without]; intros W; [reflexivity|].
  apply andb_true_iff in W as (Q & W). apply negb_true_iff in Q.
  cbn. rewrite Q. now rewrite (IH W).
Qed.

End SplitFacts.

Section AuthProperties.
Import Text Server.

(** X19. The middleware lets a request through exactly when its
    authorization header is a first word, one space, and then a second word
    that is not empty and equals ACCESS_TOKEN; what the first word is and
    what follows the second are not looked at.  When ACCESS_TOKEN is not
    set, or is empty, or has a space in it, no request gets through. *)
Theorem authorized_iff (authorization ACCESS_TOKEN : option string) :
  (authorized authorization ACCESS_TOKEN = true
   <-> exists scheme token rest,
         orEmpty authorization = scheme +:+ " " +:+ token +:+ rest
         /\ without " " scheme = true
         /\ without " " token = true
         /\ token <> EmptyString
         /\ (rest = EmptyString \/ exists r, rest = String " " r)
         /\ ACCESS_TOKEN = Some token)
  /\ (ACCESS_TOKEN = None \/ ACCESS_TOKEN = Some EmptyString
      \/ (exists t, ACCESS_TOKEN = Some t /\ without " " t = false) ->
      authorized authorization ACCESS_TOKEN = false).
Proof.
  assert (Iff : authorized authorization ACCESS_TOKEN = true
   <-> exists scheme token rest,
         orEmpty authorization = scheme +:+ " " +:+ token +:+ rest
         /\ without " " scheme = true
         /\ without " " token = true
         /\ token <> EmptyString
         /\ (rest = EmptyString \/ exists r, rest = String " " r)
         /\ ACCESS_TOKEN = Some token).
  { unfold authorized. set (a := orEmpty authorization). split.
    - destruct (split_head " " a) as (x & r & E & W & C). rewrite E. cbn [lookup].
      destruct C as [(-> & _)|(s' & A & ->)]; [discriminate|].
      destruct (split_head " " s') as (t & r' & E' & W' & C'). rewrite E'.
      cbn. destruct (falsy t) eqn:F; [discriminate|].
      destruct ACCESS_TOKEN as [expected|]; [|discriminate].
      intros Q. apply String.eqb_eq in Q as <-.
      assert (t <> EmptyString) by (intros ->; discriminate).
      destruct C' as [(_ & ->)|(s'' & -> & _)].
      + exists x, t, EmptyString. rewrite TextFacts.append_empty. auto 10.
      + exists x, t, (String " " s''). repeat split; eauto.
    - intros (scheme & token & rest & A & Ws & Wt & Ne & R & ->). rewrite A.
      change (scheme +:+ " " +:+ token +:+ rest)
        with (scheme +:+ String " " (token +:+ rest)).
      rewrite (split_without " " scheme _ Ws).
      assert (T : exists r', split " " (token +:+ rest) = token :: r').
      { destruct R as [->|(r & ->)].
        - rewrite TextFacts.append_empty, (split_whole " " token Wt). eauto.
        - rewrite (split_without " " token r Wt). eauto. }
      destruct T as (r' & ->). cbn.
      destruct token; [congruence|]. cbn [falsy]. apply String.eqb_refl. }
  split; [exact Iff|].
  intros Bad. apply not_true_is_false. intros A.
  apply Iff in A as (scheme & token & rest & _ & _ & Wt & Ne & _ & E).
  destruct Bad as [->|[->|(t & -> & W)]]; congruence.
Qed.

End AuthProperties.

Section TrimLength.
Import Text.




End TrimLength.

Section RouteProperties.
Import Text Database Server.

Lemma searchTags_elem t x :
  x ∈ searchTags t
  <-> exists piece, piece ∈ split "," (default EmptyString t)
                    /\ blank piece = false /\ x = trim piece.
Proof.
  unfold searchTags. rewrite list_elem_of_filter, list_elem_of_In, in_map_iff.
  split.
  - intros (F & piece & <- & I). exists piece. rewrite list_elem_of_In. auto.
  - intros (piece & I & B & ->). split; [exact B|]. exists piece.
    rewrite <- list_elem_of_In. auto.
Qed.

(** X20. The search route: its tags are the pieces of the parameter [t]
    between commas, trimmed, the blank ones dropped; it answers 200 exactly
    when the mode is omitted, ["any"] or ["all"] and the server is not
    empty, with what [findTranscripts] returns for these tags (an omitted
    mode counts as ["any"]), and 400 with no search otherwise.  The tags
    are not freed of repetitions: in the mode ["all"], a tag that occurs
    twice in [t] makes the search find nothing. *)
Theorem search_answers (sv : string) (t m : option string) (db : Db) :
  let tags := searchTags t in
  let r := search sv t m db in
  (forall x, x ∈ tags
     <-> exists piece, piece ∈ split "," (default EmptyString t)
                       /\ blank piece = false /\ x = trim piece)
  /\ (forall x, x ∈ tags -> x <> EmptyString /\ trim x = x)
  /\ (status r = 200
      <-> (m = None \/ m = Some "any" \/ m = Some "all") /\ sv <> EmptyString)
  /\ (status r = 200 ->
      found r = Some (findTranscripts sv (Some tags) (default "any" m) db))
  /\ (status r <> 200 -> status r = 400 /\ found r = None)
  /\ (m = Some "all" -> sv <> EmptyString -> ~ NoDup tags -> found r = Some []).
Proof.
  intros tags r.
  split; [apply searchTags_elem|]. split.
  { intros x I. apply searchTags_elem in I as (piece & _ & B & ->).
    now apply trimmed_tag. }
  assert (M : bool_decide (default "any" m ∈ ["any"; "all"]) = true
              <-> m = None \/ m = Some "any" \/ m = Some "all").
  { rewrite bool_decide_eq_true. destruct m as [mode|].
    - change (default "any" (Some mode)) with mode.
      rewrite !elem_of_cons, elem_of_nil. split.
      + intros [->|[->|[]]]; auto.
      + intros [|[[= ->]|[= ->]]]; [discriminate| |]; auto.
    - split; [auto|]. intros _. left. }
  assert (Sv : falsy sv = false <-> sv <> EmptyString).
  { destruct sv; cbn; split; congruence. }
  subst r. unfold search. fold tags.
  destruct (bool_decide (default "any" m ∈ ["any"; "all"])) eqn:Bm; cbn [negb].
  - destruct (falsy sv) eqn:Fs; cbn [status found].
    + split; [split; [discriminate|]|].
      { intros (_ & Ne). apply Sv in Ne. discriminate. }
      split; [discriminate|]. split; [auto|].
      intros _ Ne. apply Sv in Ne. discriminate.
    + split; [split; [intros _|reflexivity]|].
      { split; [now apply M | now apply Sv]. }
      split; [reflexivity|]. split; [congruence|].
      intros -> _ Nd. f_equal. change (default "any" (Some "all")) with "all".
      unfold findTranscripts. change (default [] (Some tags)) with tags.
      destruct tags as [|tag rest] eqn:T; [exfalso; apply Nd; constructor|].
      change (("all" =? "any")%string) with false. cbv iota.
      rewrite list_filter_filter. apply elem_of_nil_inv.
      intros id I. apply elem_of_selected in I as (row & _ & C & _). cbn [fst] in C.
      apply countDistinct_all in C as (N & _). contradiction.
  - cbn [status found]. split; [split; [discriminate|]|].
    { intros (Mm & _). apply M in Mm. discriminate. }
    split; [discriminate|]. split; [auto|].
    intros -> _ _. discriminate.
Qed.


End RouteProperties.

Section DatabaseExamples.
Import Text Database Server SampleDb.

Lemma cleanup_removes_the_expired_witness :
  let clock := fun _ : nat => (thirtyDays + 1)%N in
  let r := cleanupExpiredTranscripts clock (db1, disk1) in
  let now := clock r.2 in
  r.2 <= size (transcripts db1)
  /\ (forall row e, expires_at row = Some e ->
        expired now row
        = negb (is_permanent row)
          && (if (e <? year10000)%N then (e <? now)%N else true))
  /\ (forall id row, transcripts r.1.1 !! id = Some row -> expired now row = false)
  /\ (forall id row, transcripts db1 !! id = Some row ->
        transcripts r.1.1 !! id = if expired now row then None else Some row)
  /\ (forall id, transcripts db1 !! id = None -> transcripts r.1.1 !! id = None)
  /\ (forall id tag,
        (id, tag) ∈ transcript_tags r.1.1
        <-> (id, tag) ∈ transcript_tags db1
            /\ forall row, transcripts db1 !! id = Some row -> expired now row = false)
  /\ (forall id row, transcripts db1 !! id = Some row -> expired now row = true ->
        readFile (outputPath id) r.1.2 = None)
  /\ (forall p,
        (forall id row, transcripts db1 !! id = Some row -> expired now row = true ->
                        p <> outputPath id) ->
        readFile p r.1.2 = readFile p disk1).
Proof.
  apply (cleanup_removes_the_expired (H := miniHost)
           (fun _ : nat => (thirtyDays + 1)%N) db1 disk1).
  - intros i j _. lia.
  - intros i. reflexivity.
Defined.

Lemma tag_added_is_found_witness :
  exists db',
    addTag "t1" " urgent " db1 = Returns db'
    /\ transcripts db' = transcripts db1
    /\ (forall mode, "t1" ∈ findTranscripts "s" (Some [trim " urgent "]) mode db')
    /\ addTag "t1" "urgent" db' = Returns db'
    /\ (forall mode,
          "t1" ∉ findTranscripts "s" (Some [trim " urgent "]) mode
                   (removeTag "t1" "urgent" db')).
Proof.
  apply (tag_added_is_found "t1" " urgent " "urgent" "s" db1 row1).
  - vm_compute. reflexivity.
  - reflexivity.
  - reflexivity.
  - reflexivity.
Defined.

Lemma addTag_without_transcript_witness :
  addTag "t9" "bug" db1 = Throws SQLITE_CONSTRAINT_FOREIGNKEY.
Proof.
  apply (addTag_without_transcript "t9" "bug" db1).
  - vm_compute. reflexivity.
  - reflexivity.
Defined.


End DatabaseExamples.

(** * From the routes to the finished document *)

Section EndToEnd.
Context `{Host}.
Import Text TextFacts FileWriter.


Lemma kept_record l v : record l v -> kept l = l.
Proof. intros R. unfold kept. now rewrite (record_not_blank l v R). Qed.

Lemma edited_records obj (ls : list string) (vs : list (value number)) :
  Forall2 record ls vs ->
  record (JSON_stringify obj) obj ->
  Forall2 record
    (map (fun l => if matching obj l then JSON_stringify obj else kept l) ls)
    (zip_with (fun l v => if matching obj l then obj else v) ls vs).
Proof.
  intros F R. induction F as [|l v ls vs Rl F IH]; cbn; constructor; [|exact IH].
  destruct (matching obj l); [exact R|]. now rewrite (kept_record l v Rl).
Qed.

Lemma remaining_records obj (ls : list string) (vs : list (value number)) :
  Forall2 record ls vs ->
  Forall2 record
    (map kept (filter (fun l => matching obj l = false) ls))
    (filter (fun p => matching obj p.1 = false) (zip ls vs)).*2.
Proof.
  intros F. induction F as [|l v ls vs Rl F IH]; [constructor|].
  change (zip (l :: ls) (v :: vs)) with ((l, v) :: zip ls vs).
  rewrite !filter_cons. cbn [fst]. destruct (decide (matching obj l = false)).
  - rewrite fmap_cons. cbn [map snd]. constructor; [|exact IH].
    now rewrite (kept_record l v Rl).
  - exact IH.
Qed.

(** X23. A rewrite followed by a finalize.  For an active file of records,
    one to a line and without carriage returns, and a target that
    [JSON.parse] reads back from its [JSON.stringify]: after [edit] the
    finished document has the target in the place of every message whose
    line matched, and the other messages as they were; after [delete] it
    has the messages whose lines did not match, in their order. *)
Theorem rewrite_then_finalize (w : World) (id : string) (ls : list string)
    (vs : list (value number)) (obj : value number) (metadata : jsval) :
  baseDir (writer w) = baseDir new_default ->
  activeFile id w = Some (concat (map (fun l => l +:+ NL) ls)) ->
  Forall2 record ls vs ->
  Forall (fun l => noBreak l = true) ls ->
  record (JSON_stringify obj) obj ->
  let m := default (Obj []) metadata in
  (let r := finishTranscript id metadata (disk (edit id obj w).2) in
   r.1 = Ok tt
   /\ readFile (outputPath id) r.2
      = Some (JSON_stringify
                (document m (zip_with (fun l v => if matching obj l then obj else v) ls vs))))
  /\ (let r := finishTranscript id metadata (disk (delete id obj w).2) in
      r.1 = Ok tt
      /\ readFile (outputPath id) r.2
         = Some (JSON_stringify
                   (document m (filter (fun p => matching obj p.1 = false) (zip ls vs)).*2))).
Proof.
  intros B A F Nb R m.
  assert (Fin : forall turn ls' vs',
            concat (map turn ls) = concat (map (fun l => l +:+ NL) ls') ->
            Forall2 record ls' vs' ->
            let r := finishTranscript id metadata (disk (rewrite turn id w).2) in
            r.1 = Ok tt
            /\ readFile (outputPath id) r.2 = Some (JSON_stringify (document m vs'))).
  { intros turn ls' vs' E F'.
    destruct (rewrite_present turn id w _ A) as (_ & Wr & A' & _).
    rewrite readline_lines in A' by exact Nb. rewrite E in A'.
    rewrite activeFile_inputPath in A' by (rewrite Wr; exact B).
    destruct (finishTranscript_Ok id metadata _ _ m vs' A') as (R1 & R2 & _); [|auto].
    now apply finishText_records. }
  split.
  - apply (Fin _ (map (fun l => if matching obj l then JSON_stringify obj else kept l) ls));
      [|now apply edited_records].
    rewrite edit_written. now rewrite map_map.
  - apply (Fin _ (map kept (filter (fun l => matching obj l = false) ls)));
      [|now apply remaining_records].
    rewrite delete_written. now rewrite map_map.
Qed.

End EndToEnd.

Section WriteRouteProperties.
Context {H : Host} {T : Truthiness H}.
Import Text TextFacts FileWriter.



End WriteRouteProperties.

Section EndToEndExamples.
Import Text FileWriter Sample.


Lemma rewrite_then_finalize_witness :
  let w := withFile "k" (concat (map (fun l => l +:+ NL) [id1; id2])) in
  let vs : list (value Z) := [Obj [("id", Num 1%Z)]; Obj [("id", Num 2%Z)]] in
  let m : value Z := Obj [] in
  (let r := finishTranscript "k" None (disk (edit "k" target1 w).2) in
   r.1 = Ok tt
   /\ readFile (outputPath "k") r.2
      = Some (JSON_stringify
                (document m (zip_with (fun l v => if matching target1 l then target1 else v)
                               [id1; id2] vs))))
  /\ (let r := finishTranscript "k" None (disk (delete "k" target1 w).2) in
      r.1 = Ok tt
      /\ readFile (outputPath "k") r.2
         = Some (JSON_stringify
                   (document m (filter (fun p => matching target1 p.1 = false)
                                  (zip [id1; id2] vs)).*2))).
Proof.
  apply (rewrite_then_finalize (H := miniHost)
           (withFile "k" (concat (map (fun l => l +:+ NL) [id1; id2]))) "k" [id1; id2]
           [Obj [("id", Num 1%Z)]; Obj [("id", Num 2%Z)]] target1 None).
  - reflexivity.
  - vm_compute. reflexivity.
  - repeat first [apply Forall2_nil_2 | apply Forall2_cons_2; [split; reflexivity|]].
  - repeat (apply List.Forall_cons; [reflexivity|]). apply List.Forall_nil.
  - split; reflexivity.
Defined.

End EndToEndExamples.
